(** * Storm object-relational mapper: the store (unit of work) and the
    parameter-mark conversion of its database layer.

    The development embeds [storm/database.py] (module [database]),
    [storm/store.py] (module [store]) and the connection of
    [storm/databases/sqlite.py] (module [sqlite]), and states the
    properties of the specification, and further properties of the code,
    over these embeddings. *)

From stdpp Require Import gmap strings list fin_maps relations.
From Stdlib Require Import Ascii ZArith Lia.


(* ===================================================================== *)
(** * storm/database.py *)
(* ===================================================================== *)

Module database.

(** Python byte strings are lists of characters. *)
Abbreviation str := (list ascii).

Definition quote : ascii := "'"%char.

(** [s.startswith(p)]. *)
Fixpoint startswith (p s : str) : bool :=
  match p, s with
  | [], _ => true
  | _ :: _, [] => false
  | a :: p', b :: s' => if decide (a = b) then startswith p' s' else false
  end.

(** [p in s] on strings: [p] occurs as a substring of [s]. *)
Fixpoint contains (p s : str) : bool :=
  match s with
  | [] => startswith p []
  | _ :: s' => startswith p s || contains p s'
  end.

(** [s.replace(old, new)] for a non-empty [old]: the occurrences are
    taken from left to right and do not overlap.  [skip] counts the
    characters of a matched occurrence that are still to be dropped. *)
Fixpoint replace_skip (old new : str) (skip : nat) (s : str) : str :=
  match s with
  | [] => []
  | c :: s' =>
      match skip with
      | S k => replace_skip old new k s'
      | O =>
          if startswith old s
          then new ++ replace_skip old new (length old - 1) s'
          else c :: replace_skip old new 0 s'
      end
  end.

(** [s.replace(old, new)]; with an empty [old] Python puts [new] before
    every character and at the end. *)
Definition replace (old new s : str) : str :=
  match old with
  | [] => new ++ flat_map (λ c, c :: new) s
  | _ :: _ => replace_skip old new 0 s
  end.

(** [s.split(sep)] for a one-character separator: [n] separators give
    [n + 1] tokens. *)
Fixpoint split (sep : ascii) (s : str) : list str :=
  match s with
  | [] => [[]]
  | c :: s' =>
      if decide (c = sep) then [] :: split sep s'
      else match split sep s' with
           | t :: ts => (c :: t) :: ts
           | [] => [[c]]
           end
  end.

(** [sep.join(tokens)]. *)
Fixpoint join (sep : ascii) (tokens : list str) : str :=
  match tokens with
  | [] => []
  | t :: ts =>
      match ts with
      | [] => t
      | _ :: _ => t ++ sep :: join sep ts
      end
  end.

(** [for i in range(0, len(tokens), 2): tokens[i] = f(tokens[i])]. *)
Fixpoint map_even (f : str → str) (tokens : list str) : list str :=
  match tokens with
  | [] => []
  | t :: ts =>
      f t :: match ts with
             | [] => []
             | u :: ts' => u :: map_even f ts'
             end
  end.

Definition convert_param_marks
    (statement from_param_mark to_param_mark : str) : str :=
  if bool_decide (from_param_mark = to_param_mark)
     || negb (contains from_param_mark statement)
  then statement
  else
    let tokens := split quote statement in
    let tokens := map_even (replace from_param_mark to_param_mark) tokens in
    join quote tokens.

(** The specification's reading of the conversion, as a scanner over the
    characters of the statement: a quote toggles [in_literal]; outside a
    literal an occurrence of the source mark is replaced by the target
    mark; every other character is copied. *)
Fixpoint convert_scan (from_mark to_mark : str) (in_literal : bool)
    (skip : nat) (s : str) : str :=
  match s with
  | [] => []
  | c :: s' =>
      match skip with
      | S k => convert_scan from_mark to_mark in_literal k s'
      | O =>
          if decide (c = quote)
          then c :: convert_scan from_mark to_mark (negb in_literal) 0 s'
          else if negb in_literal && startswith from_mark s
          then to_mark ++
               convert_scan from_mark to_mark in_literal (length from_mark - 1) s'
          else c :: convert_scan from_mark to_mark in_literal 0 s'
      end
  end.

(** The tokens at odd positions are the bodies of the literals. *)
Definition map_odd (f : str → str) (tokens : list str) : list str :=
  match tokens with
  | [] => []
  | u :: ts => u :: map_even f ts
  end.

(** ** Result: iterating over the rows of a cursor *)

Section Result.
Variable V : Type.

(** A row is a tuple of values. *)
Definition Row : Type := list V.

(** The raw cursor of the driver, as the database API has it: the rows
    that are still to be fetched, and [arraysize], the number of rows
    that one [fetchmany()] takes. *)
Record Cursor := mkCursor {
  rows : list Row;
  arraysize : nat;
}.

(** [raw_cursor.fetchone()]: the next row, or [None]. *)
Definition fetchone (c : Cursor) : option Row * Cursor :=
  match rows c with
  | [] => (None, c)
  | r :: rs => (Some r, mkCursor rs (arraysize c))
  end.

(** [raw_cursor.fetchmany()]: the next [arraysize] rows, fewer at the
    end.  An [arraysize] of 0 sets no bound: the cursor of pysqlite, the
    driver of storm/databases/sqlite.py, counts the rows it has taken up
    to [arraysize] and so gives all the rows that are left. *)
Definition fetchmany (c : Cursor) : list Row * Cursor :=
  match arraysize c with
  | O => (rows c, mkCursor [] 0)
  | S _ =>
      (take (arraysize c) (rows c),
       mkCursor (drop (arraysize c) (rows c)) (arraysize c))
  end.

(** The first loop of [Result.__iter__]: the rows that it yields and the
    cursor that it leaves.  [if not result] holds for [None] and for the
    empty tuple.  The fuel bounds the iterations of [while True]; [None]
    says that it was used up. *)
Fixpoint iter_fetchone (fuel : nat) (c : Cursor) : option (list Row * Cursor) :=
  match fuel with
  | O => None
  | S fuel' =>
      let '(result, c') := fetchone c in
      match result with
      | None | Some [] => Some ([], c')
      | Some ((_ :: _) as r) =>
          match iter_fetchone fuel' c' with
          | Some (yielded, c'') => Some (r :: yielded, c'')
          | None => None
          end
      end
  end.

(** The second loop: [if not results] holds for the empty list. *)
Fixpoint iter_fetchmany (fuel : nat) (c : Cursor) : option (list Row * Cursor) :=
  match fuel with
  | O => None
  | S fuel' =>
      let '(results, c') := fetchmany c in
      match results with
      | [] => Some ([], c')
      | _ :: _ =>
          match iter_fetchmany fuel' c' with
          | Some (yielded, c'') => Some (results ++ yielded, c'')
          | None => None
          end
      end
  end.

(** [Result.__iter__], run to its end. *)
Definition __iter__ (fuel : nat) (c : Cursor) : option (list Row * Cursor) :=
  if decide (arraysize c = 1) then iter_fetchone fuel c
  else iter_fetchmany fuel c.

End Result.

Arguments mkCursor {V} _ _.
Arguments rows {V} _.
Arguments arraysize {V} _.
Arguments fetchone {V} _.
Arguments fetchmany {V} _.
Arguments iter_fetchone {V} _ _.
Arguments iter_fetchmany {V} _ _.
Arguments __iter__ {V} _ _.

End database.

(* ===================================================================== *)
(** * storm/store.py *)
(* ===================================================================== *)

Module store.

(** ** Values, classes and objects *)

(** A field value as the database knows it; [VNone] is Python's [None].
    Python's [Undef] ("no value") is the absence of a value and is
    written [None : option Value]. *)
Inductive Value := VNone | VInt (z : Z) | VStr (s : string).

#[global] Instance Value_eq_dec : EqDecision Value.
Proof. solve_decision. Defined.

#[global] Instance Value_countable : Countable Value.
Proof.
  refine (inj_countable'
    (λ v, match v with
          | VNone => inl ()
          | VInt z => inr (inl z)
          | VStr s => inr (inr s)
          end)
    (λ x, match x with
          | inl _ => VNone
          | inr (inl z) => VInt z
          | inr (inr s) => VStr s
          end) _).
  by intros [].
Defined.

Abbreviation ColName := string.

(** A primary key is a tuple of values. *)
Abbreviation Key := (list Value).

(** Modelled from the spec: the class descriptor that [get_cls_info]
    of storm/info.py returns (table name, ordered columns, primary-key
    columns); a mapped class is known by its descriptor. *)
Record ClsInfo := mkClsInfo {
  cls_name : string;
  table : string;
  columns : list ColName;
  primary_key : list ColName;
}.

#[global] Instance ClsInfo_eq_dec : EqDecision ClsInfo.
Proof. solve_decision. Defined.

#[global] Instance ClsInfo_countable : Countable ClsInfo.
Proof.
  refine (inj_countable'
    (λ c, (cls_name c, table c, columns c, primary_key c))
    (λ '(n, t, cs, pk), mkClsInfo n t cs pk) _).
  by intros [].
Defined.

(** Modelled from the spec: the positions of the primary-key columns
    among the columns ("stable position indices"). *)
Definition primary_key_pos (cls_info : ClsInfo) : list nat :=
  omap (λ name, fst <$> list_find (λ c, c = name) (columns cls_info))
       (primary_key cls_info).

(** An object is known by its identity [id(obj)] and carries its class;
    Python never gives one identity to two live objects. *)
Record Obj := mkObj {
  obj_id : positive;
  obj_class : ClsInfo;
}.

#[global] Instance Obj_eq_dec : EqDecision Obj.
Proof. solve_decision. Defined.

#[global] Instance Obj_countable : Countable Obj.
Proof.
  refine (inj_countable' (λ o, (obj_id o, obj_class o))
                         (λ '(i, c), mkObj i c) _).
  by intros [].
Defined.

Inductive Pending := PENDING_ADD | PENDING_REMOVE.

#[global] Instance Pending_eq_dec : EqDecision Pending.
Proof. solve_decision. Defined.

(** ** Object state *)

(** What [obj_info.save()] keeps for a later [restore()]. *)
Record Snapshot := mkSnapshot {
  sn_store : option positive;
  sn_pending : option Pending;
  sn_primary_values : option Key;
  sn_values : gmap ColName Value;
}.

(** Modelled from the spec: the object state of storm/info.py
    ([ObjectInfo]): the [store] back-reference, the [pending] flag, the
    cached primary-key tuple, the current values (sparse: a column
    without entry is [Undef]), the checkpoint, what [save()] kept, and
    whether the store's [_object_changed] is hooked on "changed". *)
Record ObjectInfo := mkObjectInfo {
  oi_store : option positive;
  oi_pending : option Pending;
  oi_primary_values : option Key;
  oi_values : gmap ColName Value;
  oi_checkpoint : gmap ColName Value;
  oi_saved : option Snapshot;
  oi_changed_hook : bool;
}.

(** The state [get_obj_info] makes for an object it has not seen. *)
Definition new_info : ObjectInfo :=
  mkObjectInfo None None None ∅ ∅ None false.

Definition set_oi_store (v : option positive) (i : ObjectInfo) :=
  mkObjectInfo v (oi_pending i) (oi_primary_values i) (oi_values i)
               (oi_checkpoint i) (oi_saved i) (oi_changed_hook i).
Definition set_oi_pending (v : option Pending) (i : ObjectInfo) :=
  mkObjectInfo (oi_store i) v (oi_primary_values i) (oi_values i)
               (oi_checkpoint i) (oi_saved i) (oi_changed_hook i).
Definition set_oi_primary_values (v : option Key) (i : ObjectInfo) :=
  mkObjectInfo (oi_store i) (oi_pending i) v (oi_values i)
               (oi_checkpoint i) (oi_saved i) (oi_changed_hook i).
Definition set_oi_values (v : gmap ColName Value) (i : ObjectInfo) :=
  mkObjectInfo (oi_store i) (oi_pending i) (oi_primary_values i) v
               (oi_checkpoint i) (oi_saved i) (oi_changed_hook i).
Definition set_oi_checkpoint (v : gmap ColName Value) (i : ObjectInfo) :=
  mkObjectInfo (oi_store i) (oi_pending i) (oi_primary_values i) (oi_values i)
               v (oi_saved i) (oi_changed_hook i).
Definition set_oi_saved (v : option Snapshot) (i : ObjectInfo) :=
  mkObjectInfo (oi_store i) (oi_pending i) (oi_primary_values i) (oi_values i)
               (oi_checkpoint i) v (oi_changed_hook i).
Definition set_oi_changed_hook (v : bool) (i : ObjectInfo) :=
  mkObjectInfo (oi_store i) (oi_pending i) (oi_primary_values i) (oi_values i)
               (oi_checkpoint i) (oi_saved i) v.

(** [obj_info.get_value(name)]: [None] for a column without value. *)
Definition get_value (i : ObjectInfo) (name : ColName) : Value :=
  default VNone (oi_values i !! name).

(** [obj_info.check_changed()]: the values differ from the checkpoint. *)
Definition check_changed (i : ObjectInfo) : bool :=
  bool_decide (oi_values i ≠ oi_checkpoint i).

(** [obj_info.get_changes().get(name, Undef)]: the value of a column
    that differs from its checkpoint. *)
Definition get_change (i : ObjectInfo) (name : ColName) : option Value :=
  if decide (oi_values i !! name = oi_checkpoint i !! name) then None
  else oi_values i !! name.

(** ** Statements and the connection *)

Inductive Where :=
  | compare_columns (cols : list ColName) (vals : Key)
  | insert_identity (rowid : nat).

Inductive Statement :=
  | Select (cols : list ColName) (where_ : Where)
           (default_tables : option string) (limit : option nat)
  | Insert (cols : list ColName) (vals : list Value) (tbl : string)
  | Update (sets : list (ColName * Value)) (where_ : Where) (tbl : string)
  | Delete (where_ : Where) (tbl : string).

(** What the backend answers to one call: an error, or a result whose
    [get_one()] is [one] and whose [get_insert_identity] names [rowid]. *)
Inductive Response :=
  | Fails (code : nat)
  | Result (one : option (list Value)) (rowid : nat).

(** The connection is an external collaborator.  Its behaviour in one
    run is the sequence of its answers, so it is modelled by the answers
    still to come ([responses]; an exhausted connection answers with an
    empty result) and by what it was asked ([executed], [commits]). *)
Record Connection := mkConnection {
  responses : list Response;
  executed : list Statement;
  commits : nat;
}.

(** ** The store and the world around it *)

Record Store := mkStore {
  store_id : positive;
  _connection : Connection;
  _cache : gmap (ClsInfo * Key) Obj;
  _ghosts : gset Obj;
  _dirty : list Obj;
  _order : gmap (Obj * Obj) Z;
}.

(** [_dirty] is a dictionary from [id(obj)] to [obj]: a list without
    repetition of its keys, in the order in which the dictionary is
    iterated.  [_ghosts] is iterated only to do the same to every
    ghost, and is a set.  [_cache] is a [WeakValueDictionary]; garbage
    collection is not modelled, an entry leaves the cache when the code
    deletes it. *)

Definition set_connection (v : Connection) (s : Store) :=
  mkStore (store_id s) v (_cache s) (_ghosts s) (_dirty s) (_order s).
Definition set_cache (v : gmap (ClsInfo * Key) Obj) (s : Store) :=
  mkStore (store_id s) (_connection s) v (_ghosts s) (_dirty s) (_order s).
Definition set_ghosts (v : gset Obj) (s : Store) :=
  mkStore (store_id s) (_connection s) (_cache s) v (_dirty s) (_order s).
Definition set_dirty (v : list Obj) (s : Store) :=
  mkStore (store_id s) (_connection s) (_cache s) (_ghosts s) v (_order s).
Definition set_order (v : gmap (Obj * Obj) Z) (s : Store) :=
  mkStore (store_id s) (_connection s) (_cache s) (_ghosts s) (_dirty s) v.

(** The store, the object states that [get_obj_info] finds, the next
    free object identity, and the objects on which "flushed" was
    emitted, oldest first. *)
Record World := mkWorld {
  self : Store;
  infos : gmap Obj ObjectInfo;
  next_id : positive;
  flushed : list Obj;
}.

Definition set_self (v : Store) (w : World) :=
  mkWorld v (infos w) (next_id w) (flushed w).
Definition set_infos (v : gmap Obj ObjectInfo) (w : World) :=
  mkWorld (self w) v (next_id w) (flushed w).
Definition set_next_id (v : positive) (w : World) :=
  mkWorld (self w) (infos w) v (flushed w).
Definition set_flushed (v : list Obj) (w : World) :=
  mkWorld (self w) (infos w) (next_id w) v.

(** ** Exceptions and the monad of the methods *)

Inductive StoreErrorMsg :=
  | is_part_of_another_store
  | is_already_scheduled_to_be_added
  | is_already_in_the_store
  | is_not_in_this_store
  | is_already_scheduled_to_be_removed
  | cant_reload_never_flushed
  | cant_flush_ordering_loop.

(** The text of each [StoreError]. *)
Definition message (m : StoreErrorMsg) : string :=
  match m with
  | is_part_of_another_store => "%r is part of another store"
  | is_already_scheduled_to_be_added => "%r is already scheduled to be added"
  | is_already_in_the_store => "%r is already in the store"
  | is_not_in_this_store => "%r is not in this store"
  | is_already_scheduled_to_be_removed => "%r is already scheduled to be removed"
  | cant_reload_never_flushed => "Can't reload an object if it was never flushed"
  | cant_flush_ordering_loop => "Can't flush due to ordering loop"
  end.

(** [Diverges] is not an exception of Python: it marks a [while] loop
    that has used up its fuel. *)
Inductive Exn :=
  | StoreError (m : StoreErrorMsg)
  | AssertionError
  | KeyError
  | TypeError
  | IndexError
  | BackendError (code : nat)
  | Diverges.

#[global] Instance StoreErrorMsg_eq_dec : EqDecision StoreErrorMsg.
Proof. solve_decision. Defined.
#[global] Instance Exn_eq_dec : EqDecision Exn.
Proof. solve_decision. Defined.

Inductive outcome (A : Type) :=
  | Return (a : A)
  | Raise (e : Exn).
Arguments Return {A} a.
Arguments Raise {A} e.

(** A method changes the world and returns or raises; what it changed
    before it raised stays changed. *)
Definition M (A : Type) : Type := World → outcome A * World.

Definition ret {A} (a : A) : M A := λ w, (Return a, w).
Definition raise {A} (e : Exn) : M A := λ w, (Raise e, w).
Definition bind {A B} (m : M A) (f : A → M B) : M B :=
  λ w, match m w with
       | (Return a, w') => f a w'
       | (Raise e, w') => (Raise e, w')
       end.
Definition gets {A} (f : World → A) : M A := λ w, (Return (f w), w).
Definition modify (f : World → World) : M unit := λ w, (Return tt, f w).

Declare Scope store_scope.
Delimit Scope store_scope with store.
Notation "x <- m ;; k" := (bind m (λ x, k))
  (at level 100, m at next level, right associativity) : store_scope.
Notation "m ;; k" := (bind m (λ _, k))
  (at level 100, right associativity) : store_scope.
Open Scope store_scope.

Definition modify_store (f : Store → Store) : M unit :=
  modify (λ w, set_self (f (self w)) w).

(** [for x in l: f(x)]. *)
Fixpoint for_each {A} (l : list A) (f : A → M unit) : M unit :=
  match l with
  | [] => ret tt
  | x :: l' => f x ;; for_each l' f
  end.

(** [while] loops are not needed outside [flush]. *)

(** ** The connection *)

Definition next_response (c : Connection) : Response * list Response :=
  match responses c with
  | [] => (Result None 0, [])
  | r :: rs => (r, rs)
  end.

(** [self._connection.execute(statement)]: the result, as the pair of
    its [get_one()] and its insert identity. *)
Definition execute (statement : Statement) : M (option (list Value) * nat) :=
  λ w,
    let c := _connection (self w) in
    let '(r, rs) := next_response c in
    let c' := mkConnection rs (executed c ++ [statement]) (commits c) in
    let w' := set_self (set_connection c' (self w)) w in
    match r with
    | Fails code => (Raise (BackendError code), w')
    | Result one rowid => (Return (one, rowid), w')
    end.

(** [self._connection.commit()]. *)
Definition connection_commit : M unit :=
  λ w,
    let c := _connection (self w) in
    let '(r, rs) := next_response c in
    match r with
    | Fails code =>
        (Raise (BackendError code),
         set_self (set_connection
                     (mkConnection rs (executed c) (commits c)) (self w)) w)
    | Result _ _ =>
        (Return tt,
         set_self (set_connection
                     (mkConnection rs (executed c) (S (commits c))) (self w)) w)
    end.

(** ** Object state: reading and writing *)

Definition lookup_info (m : gmap Obj ObjectInfo) (obj : Obj) : ObjectInfo :=
  default new_info (m !! obj).

Abbreviation info_of w obj := (lookup_info (infos w) obj).

Definition get_obj_info (obj : Obj) : M ObjectInfo :=
  gets (λ w, info_of w obj).

Definition update_info (obj : Obj) (f : ObjectInfo → ObjectInfo) : M unit :=
  modify (λ w, set_infos (<[obj := f (info_of w obj)]> (infos w)) w).

(** [object.__new__(cls)]: an object with an identity not in use. *)
Definition new_object (cls : ClsInfo) : M Obj :=
  λ w, (Return (mkObj (next_id w) cls), set_next_id (Pos.succ (next_id w)) w).

(** ** Dirty, ghost and cache bookkeeping *)

Definition _is_dirty (obj : Obj) : M bool :=
  gets (λ w, bool_decide (obj ∈ _dirty (self w))).

(** [self._dirty[id(obj)] = obj]: a key that is there keeps its place. *)
Definition dirty_insert (obj : Obj) (d : list Obj) : list Obj :=
  if decide (obj ∈ d) then d else d ++ [obj].

(** [self._dirty.pop(id(obj), None)]. *)
Definition dirty_remove (obj : Obj) (d : list Obj) : list Obj :=
  filter (λ o, o ≠ obj) d.

Definition _set_dirty (obj : Obj) : M unit :=
  modify_store (λ s, set_dirty (dirty_insert obj (_dirty s)) s).

Definition _set_clean (obj : Obj) : M unit :=
  modify_store (λ s, set_dirty (dirty_remove obj (_dirty s)) s).

Definition _is_ghost (obj : Obj) : M bool :=
  gets (λ w, bool_decide (obj ∈ _ghosts (self w))).

Definition _set_ghost (obj : Obj) : M unit :=
  modify_store (λ s, set_ghosts ({[obj]} ∪ _ghosts s) s).

Definition _set_alive (obj : Obj) : M unit :=
  modify_store (λ s, set_ghosts (_ghosts s ∖ {[obj]}) s).

(** [del self._cache[key]] raises [KeyError] when the key is missing. *)
Definition cache_del (key : ClsInfo * Key) : M unit :=
  λ w, match _cache (self w) !! key with
       | None => (Raise KeyError, w)
       | Some _ => modify_store (λ s, set_cache (delete key (_cache s)) s) w
       end.

Definition _add_to_cache (obj : Obj) : M unit :=
  obj_info <- get_obj_info obj ;;
  let old_primary_values := oi_primary_values obj_info in
  let new_primary_values :=
    get_value obj_info <$> primary_key (obj_class obj) in
  if decide (Some new_primary_values = old_primary_values) then ret tt
  else
    match old_primary_values with
    | Some old => cache_del (obj_class obj, old)
    | None => ret tt
    end ;;
    modify_store (λ s, set_cache
      (<[(obj_class obj, new_primary_values) := obj]> (_cache s)) s) ;;
    update_info obj (set_oi_primary_values (Some new_primary_values)).

Definition _remove_from_cache (obj : Obj) : M unit :=
  obj_info <- get_obj_info obj ;;
  match oi_primary_values obj_info with
  | Some primary_values =>
      cache_del (obj_class obj, primary_values) ;;
      update_info obj (set_oi_primary_values None)
  | None => ret tt
  end.

(** [self._cache.values()]. *)
Definition _iter_cached (w : World) : list Obj :=
  (map_to_list (_cache (self w))).*2.

Definition _enable_change_notification (obj : Obj) : M unit :=
  update_info obj (set_oi_changed_hook true).

Definition _disable_change_notification (obj : Obj) : M unit :=
  update_info obj (set_oi_changed_hook false).

Definition _object_changed (obj : Obj) (name : ColName)
    (old_value new_value : option Value) : M unit :=
  match new_value with
  | Some _ => _set_dirty obj
  | None => ret tt
  end.

(** ** Object state: the methods with effects *)

(** Modelled from the spec: [obj_info.set_value(name, value)] of
    storm/info.py, a field write; it records the value and fires the
    "changed" hook, which is the store's [_object_changed] once
    [_enable_change_notification] has hooked it.  Writing [Undef]
    ([None]) removes the value. *)
Definition set_value (obj : Obj) (name : ColName) (value : option Value)
    : M unit :=
  obj_info <- get_obj_info obj ;;
  let old_value := oi_values obj_info !! name in
  update_info obj (λ i, set_oi_values
    (match value with
     | Some v => <[name := v]> (oi_values i)
     | None => delete name (oi_values i)
     end) i) ;;
  if oi_changed_hook obj_info
  then _object_changed obj name old_value value
  else ret tt.

(** Modelled from the spec: [obj_info.checkpoint()], the current values
    become the checkpoint against which changes are computed. *)
Definition checkpoint (obj : Obj) : M unit :=
  update_info obj (λ i, set_oi_checkpoint (oi_values i) i).

(** Modelled from the spec: [obj_info.save()], the state to which a
    rollback returns. *)
Definition save (obj : Obj) : M unit :=
  update_info obj (λ i, set_oi_saved
    (Some (mkSnapshot (oi_store i) (oi_pending i) (oi_primary_values i)
                      (oi_values i))) i).

(** [obj_info.emit("flushed")]: no hook of the store listens; the event
    is recorded. *)
Definition emit_flushed (obj : Obj) : M unit :=
  modify (λ w, set_flushed (flushed w ++ [obj]) w).

(** [obj_info["primary_values"]] raises [KeyError] when there is none. *)
Definition primary_values_of (obj : Obj) : M Key :=
  obj_info <- get_obj_info obj ;;
  match oi_primary_values obj_info with
  | Some pv => ret pv
  | None => raise KeyError
  end.

(** ** add, remove, reload *)

Definition add (obj : Obj) : M unit :=
  obj_info <- get_obj_info obj ;;
  me <- gets (λ w, store_id (self w)) ;;
  let store := oi_store obj_info in
  if bool_decide (store ≠ None ∧ store ≠ Some me)
  then raise (StoreError is_part_of_another_store)
  else
    match oi_pending obj_info with
    | Some PENDING_ADD => raise (StoreError is_already_scheduled_to_be_added)
    | Some PENDING_REMOVE => update_info obj (set_oi_pending None)
    | None =>
        match store with
        | None =>
            save obj ;;
            update_info obj (set_oi_store (Some me))
        | Some _ =>
            ghost <- _is_ghost obj ;;
            if negb ghost then raise (StoreError is_already_in_the_store)
            else _set_alive obj
        end ;;
        update_info obj (set_oi_pending (Some PENDING_ADD)) ;;
        _set_dirty obj
    end.

Definition remove (obj : Obj) : M unit :=
  obj_info <- get_obj_info obj ;;
  me <- gets (λ w, store_id (self w)) ;;
  if bool_decide (oi_store obj_info ≠ Some me)
  then raise (StoreError is_not_in_this_store)
  else
    match oi_pending obj_info with
    | Some PENDING_REMOVE =>
        raise (StoreError is_already_scheduled_to_be_removed)
    | Some PENDING_ADD =>
        update_info obj (set_oi_pending None) ;;
        _set_ghost obj ;;
        _set_clean obj
    | None =>
        update_info obj (set_oi_pending (Some PENDING_REMOVE)) ;;
        _set_dirty obj
    end.

(** [zip(columns, values)] raises [TypeError] when [values] is [None]. *)
Definition _set_values (obj : Obj) (cols : list ColName)
    (values : option (list Value)) : M unit :=
  match values with
  | None => raise TypeError
  | Some row =>
      for_each (zip cols row) (λ '(name, value), set_value obj name (Some value))
  end.

Definition reload (obj : Obj) : M unit :=
  obj_info <- get_obj_info obj ;;
  me <- gets (λ w, store_id (self w)) ;;
  let cls_info := obj_class obj in
  if bool_decide (oi_store obj_info ≠ Some me)
  then raise (StoreError is_not_in_this_store)
  else
    match oi_primary_values obj_info with
    | None => raise (StoreError cant_reload_never_flushed)
    | Some primary_values =>
        let where_ := compare_columns (primary_key cls_info) primary_values in
        let select := Select (columns cls_info) where_
                             (Some (table cls_info)) (Some 1) in
        result <- execute select ;;
        _set_values obj (columns cls_info) (fst result) ;;
        checkpoint obj ;;
        _set_clean obj
    end.

(** ** Flush order *)

Definition add_flush_order (before after : Obj) : M unit :=
  let pair := (before, after) in
  modify_store (λ s, set_order
    (match _order s !! pair with
     | Some n => <[pair := (n + 1)%Z]> (_order s)
     | None => <[pair := 1%Z]> (_order s)
     end) s).

Definition remove_flush_order (before after : Obj) : M unit :=
  let pair := (before, after) in
  modify_store (λ s, set_order
    (match _order s !! pair with
     | Some n => <[pair := (n - 1)%Z]> (_order s)
     | None => _order s
     end) s).

(** ** Flushing one object *)

Definition _fill_missing_values (obj : Obj) (result : option (list Value) * nat)
    : M unit :=
  obj_info <- get_obj_info obj ;;
  let cls_info := obj_class obj in
  let missing_columns :=
    filter (λ name, oi_values obj_info !! name = None) (columns cls_info) in
  match missing_columns with
  | [] => ret tt
  | _ :: _ =>
      let primary_key := primary_key cls_info in
      let primary_values := (λ name, oi_values obj_info !! name) <$> primary_key in
      let where_ :=
        if bool_decide (None ∈ primary_values)
        then insert_identity (snd result)
        else compare_columns primary_key (get_value obj_info <$> primary_key) in
      result <- execute (Select missing_columns where_ None None) ;;
      _set_values obj missing_columns (fst result)
  end.

Definition _flush_one (obj : Obj) : M unit :=
  dirty <- _is_dirty obj ;;
  if negb dirty then ret tt
  else
    _set_clean obj ;;
    obj_info <- get_obj_info obj ;;
    let cls_info := obj_class obj in
    let pending := oi_pending obj_info in
    update_info obj (set_oi_pending None) ;;
    match pending with
    | Some PENDING_REMOVE =>
        primary_values <- primary_values_of obj ;;
        execute (Delete (compare_columns (primary_key cls_info) primary_values)
                        (table cls_info)) ;;
        _disable_change_notification obj ;;
        _set_ghost obj ;;
        _remove_from_cache obj
    | Some PENDING_ADD =>
        let defined :=
          omap (λ name, (name,.) <$> oi_values obj_info !! name)
               (columns cls_info) in
        result <- execute (Insert defined.*1 defined.*2 (table cls_info)) ;;
        _fill_missing_values obj result ;;
        _enable_change_notification obj ;;
        _set_alive obj ;;
        _add_to_cache obj ;;
        checkpoint obj
    | None =>
        if check_changed obj_info then
          let sets :=
            omap (λ name, (name,.) <$> get_change obj_info name)
                 (columns cls_info) in
          match sets with
          | [] => ret tt
          | _ :: _ =>
              primary_values <- primary_values_of obj ;;
              execute (Update sets
                         (compare_columns (primary_key cls_info) primary_values)
                         (table cls_info)) ;;
              _add_to_cache obj
          end ;;
          checkpoint obj
        else ret tt
    end ;;
    emit_flushed obj.

(** ** flush *)

(** The predecessor map: for every pair of the order table with a
    positive count, [before] is in the set of [after]. *)
Definition add_predecessor (entry : Obj * Obj * Z)
    (predecessors : gmap Obj (gset Obj)) : gmap Obj (gset Obj) :=
  let '(before, after, n) := entry in
  if decide (0 < n)%Z then
    match predecessors !! after with
    | None => <[after := {[before]}]> predecessors
    | Some before_set => <[after := before_set ∪ {[before]}]> predecessors
    end
  else predecessors.

Definition build_predecessors (order : gmap (Obj * Obj) Z)
    : gmap Obj (gset Obj) :=
  foldr add_predecessor ∅ (map_to_list order).

(** The inner [for ... else] of the scan: no predecessor of [obj] is
    dirty. *)
Definition no_dirty_predecessor (predecessors : gmap Obj (gset Obj))
    (dirty : list Obj) (obj : Obj) : Prop :=
  ∀ before, before ∈ default ∅ (predecessors !! obj) → before ∉ dirty.

#[global] Instance no_dirty_predecessor_dec predecessors dirty obj :
  Decision (no_dirty_predecessor predecessors dirty obj).
Proof.
  refine (cast_if (decide (set_Forall (λ before, before ∉ dirty)
                                      (default ∅ (predecessors !! obj)))));
    unfold no_dirty_predecessor, set_Forall in *; done.
Defined.

(** The [while self._dirty] loop; the fuel bounds its iterations. *)
Fixpoint flush_loop (predecessors : gmap Obj (gset Obj)) (fuel : nat)
    : M unit :=
  λ w,
    let dirty := _dirty (self w) in
    match dirty with
    | [] => (Return tt, w)
    | _ :: _ =>
        match fuel with
        | O => (Raise Diverges, w)
        | S fuel' =>
            match list_find (no_dirty_predecessor predecessors dirty) dirty with
            | None => (Raise (StoreError cant_flush_ordering_loop), w)
            | Some (_, obj) =>
                (_flush_one obj ;; flush_loop predecessors fuel') w
            end
        end
    end.

(** An object is flushed at most twice in one pass (an added object may
    be made dirty again by the values the database fills in), which
    bounds the iterations of the loop. *)
Definition flush : M unit :=
  predecessors <- gets (λ w, build_predecessors (_order (self w))) ;;
  fuel <- gets (λ w, 2 * length (_dirty (self w))) ;;
  flush_loop predecessors fuel ;;
  modify_store (set_order ∅).

(** ** get and commit *)

(** The [key] argument of [get]: a tuple, or a single value. *)
Inductive KeyArg :=
  | KeyTuple (key : Key)
  | KeyScalar (v : Value).

(** [values[i] for i in positions], with [IndexError]. *)
Fixpoint values_at (values : list Value) (positions : list nat) : M Key :=
  match positions with
  | [] => ret []
  | i :: positions' =>
      match values !! i with
      | None => raise IndexError
      | Some v => vs <- values_at values positions' ;; ret (v :: vs)
      end
  end.

(** [_load_object(cls_info, result, values)]; the callers in the store
    pass no [obj], and no class defines [__load__]. *)
Definition _load_object (cls_info : ClsInfo) (values : list Value) : M Obj :=
  primary_values <- values_at values (primary_key_pos cls_info) ;;
  cached <- gets (λ w, _cache (self w) !! (cls_info, primary_values)) ;;
  match cached with
  | Some obj => ret obj
  | None =>
      obj <- new_object cls_info ;;
      me <- gets (λ w, store_id (self w)) ;;
      update_info obj (set_oi_store (Some me)) ;;
      _set_values obj (columns cls_info) (Some values) ;;
      save obj ;;
      _add_to_cache obj ;;
      _enable_change_notification obj ;;
      ret obj
  end.

Definition get (cls_info : ClsInfo) (key : KeyArg) : M (option Obj) :=
  flush ;;
  let key := match key with
             | KeyTuple k => k
             | KeyScalar v => [v]
             end in
  if negb (bool_decide (length key = length (primary_key cls_info)))
  then raise AssertionError
  else
    cached <- gets (λ w, _cache (self w) !! (cls_info, key)) ;;
    match cached with
    | Some obj => ret (Some obj)
    | None =>
        let where_ := compare_columns (primary_key cls_info) key in
        let select := Select (columns cls_info) where_
                             (Some (table cls_info)) (Some 1) in
        result <- execute select ;;
        match fst result with
        | None => ret None
        | Some values =>
            obj <- _load_object cls_info values ;;
            ret (Some obj)
        end
    end.

(** [del get_obj_info(obj)["store"]] raises [KeyError] without store. *)
Definition del_store (obj : Obj) : M unit :=
  obj_info <- get_obj_info obj ;;
  match oi_store obj_info with
  | None => raise KeyError
  | Some _ => update_info obj (set_oi_store None)
  end.

Definition commit : M unit :=
  flush ;;
  connection_commit ;;
  ghosts <- gets (λ w, elements (_ghosts (self w))) ;;
  for_each ghosts del_store ;;
  cached <- gets _iter_cached ;;
  for_each cached save ;;
  modify_store (set_ghosts ∅).

(** ** execute and rollback *)

(** [Store.execute(statement)]: the pending changes are flushed, then
    the statement goes to the connection.  (The name [execute] is taken
    by the method of the connection.) *)
Definition Store_execute (statement : Statement)
    : M (option (list Value) * nat) :=
  flush ;;
  execute statement.

(** [self._connection.rollback()]. *)
Definition connection_rollback : M unit :=
  λ w,
    let c := _connection (self w) in
    let '(r, rs) := next_response c in
    let w' := set_self (set_connection
                          (mkConnection rs (executed c) (commits c)) (self w)) w in
    match r with
    | Fails code => (Raise (BackendError code), w')
    | Result _ _ => (Return tt, w')
    end.

(** The objects that [rollback] collects in its dictionary [objects]:
    the dirty ones, the ghosts and the cached ones, each once. *)
Definition rollback_objects (w : World) : list Obj :=
  remove_dups (_dirty (self w) ++ elements (_ghosts (self w)) ++ _iter_cached w).

(** The loop of [rollback] over the collected objects.  Modelled from
    the spec: [obj_info.restore()] of storm/info.py is not in the
    sources; it changes the state of the object it is called on, and is
    a parameter here. *)
Definition rollback_over (restore : ObjectInfo → ObjectInfo)
    (objects : list Obj) : M unit :=
  for_each objects (λ obj,
    _remove_from_cache obj ;;
    update_info obj restore ;;
    obj_info <- get_obj_info obj ;;
    me <- gets (λ w, store_id (self w)) ;;
    if bool_decide (oi_store obj_info = Some me)
    then _add_to_cache obj ;; _enable_change_notification obj
    else ret tt).

Definition rollback (restore : ObjectInfo → ObjectInfo) : M unit :=
  objects <- gets rollback_objects ;;
  rollback_over restore objects ;;
  modify_store (set_ghosts ∅) ;;
  modify_store (set_dirty []) ;;
  connection_rollback.

End store.

(* ===================================================================== *)
(** * storm/databases/sqlite.py *)
(* ===================================================================== *)

Module sqlite.

Abbreviation str := database.str.

(** ** The pattern [_statement_re] *)

(** [\s] on byte strings: space, tab, newline, vertical tab, form feed
    and carriage return. *)
Definition is_space (c : ascii) : bool :=
  bool_decide (c ∈ [" "; "009"; "010"; "011"; "012"; "013"]%char).

(** [re.IGNORECASE] on byte strings: the letters A to Z match as a to
    z. *)
Definition lower (c : ascii) : ascii :=
  let n := nat_of_ascii c in
  if (65 <=? n) && (n <=? 90) then ascii_of_nat (n + 32) else c.

(** What [\s*] takes: all the white space at the head. *)
Fixpoint lstrip (s : str) : str :=
  match s with
  | [] => []
  | c :: s' => if is_space c then lstrip s' else s
  end.

(** The keyword, in any case, and one character of white space. *)
Definition keyword (kw : string) (s : str) : bool :=
  let k := String.list_ascii_of_string kw in
  bool_decide (lower <$> take (length k) s = k)
  && match s !! length k with
     | Some c => is_space c
     | None => false
     end.

(** [_statement_re.match(statement)], the pattern being
    [^\s*(?:select|(insert|update|delete|replace))\s]: [None] when the
    statement does not match, and otherwise whether group 1 has
    matched. *)
Definition _statement_re_match (statement : str) : option bool :=
  let s := lstrip statement in
  if keyword "select" s then Some false
  else if existsb (λ kw, keyword kw s) ["insert"; "update"; "delete"; "replace"]
  then Some true
  else None.

(** ** The connection *)

Section connection.
(** What the raw cursor returns for a statement. *)
Variable R : Type.

(** What a call of the driver gives: a result, [sqlite.OperationalError]
    with its text, or another exception. *)
Inductive Outcome :=
  | Returns (r : R)
  | OperationalError (message : string)
  | OtherError (code : nat).

(** The exceptions that the methods raise. *)
Inductive Raised :=
  | Operational (message : string)
  | Other (code : nat).

(** The driver and the clock are external.  In one run they are what
    their calls give, one after the other: [answer n] is what the call
    number [n] of the driver gives, [now n] is what the call number [n]
    of [now()] returns.  The connection records how many calls were
    made, the statements that the driver was given, and how often
    [sleep(0.1)] was called.  Times are numbers of a unit of time;
    [_timeout] is [self._database._timeout]. *)
Record Connection := mkConnection {
  _in_transaction : bool;
  _timeout : Z;
  answer : nat → Outcome;
  now : nat → Z;
  calls : nat;
  reads : nat;
  slept : nat;
  raw_log : list str;
}.

Definition set_in_transaction (b : bool) (c : Connection) : Connection :=
  mkConnection b (_timeout c) (answer c) (now c) (calls c) (reads c)
               (slept c) (raw_log c).

(** A call of the driver with [statement]: [Connection._raw_execute] of
    the base class, or [self._raw_connection.execute]. *)
Definition raw_execute (statement : str) (c : Connection)
    : Outcome * Connection :=
  (answer c (calls c),
   mkConnection (_in_transaction c) (_timeout c) (answer c) (now c)
                (S (calls c)) (reads c) (slept c) (raw_log c ++ [statement])).

(** [now()]. *)
Definition read_clock (c : Connection) : Z * Connection :=
  (now c (reads c),
   mkConnection (_in_transaction c) (_timeout c) (answer c) (now c)
                (calls c) (S (reads c)) (slept c) (raw_log c)).

(** [sleep(0.1)]. *)
Definition sleep (c : Connection) : Connection :=
  mkConnection (_in_transaction c) (_timeout c) (answer c) (now c)
               (calls c) (reads c) (S (slept c)) (raw_log c).

(** The statement that makes PySQLite begin a transaction. *)
Definition begin_statement : str :=
  String.list_ascii_of_string "DELETE FROM sqlite_master WHERE NULL".

Definition locked : string := "database is locked".

(** [_enforce_transaction(statement)]: the exception it raises, if any,
    and the connection afterwards. *)
Definition _enforce_transaction (statement : str) (c : Connection)
    : option Raised * Connection :=
  match _statement_re_match statement with
  | None => (None, set_in_transaction false c)
  | Some group1 =>
      if _in_transaction c then (None, c)
      else
        let c := set_in_transaction true c in
        if group1 then (None, c)
        else
          let '(o, c) := raw_execute begin_statement c in
          match o with
          | OtherError code => (Some (Other code), c)
          | Returns _ | OperationalError _ => (None, c)
          end
  end.

(** The [while True] loop of [_raw_execute]; the fuel bounds its
    iterations and [None] says that it was used up. *)
Fixpoint retry (fuel : nat) (statement : str) (_started : option Z)
    (c : Connection) : option ((R + Raised) * Connection) :=
  match fuel with
  | O => None
  | S fuel' =>
      let '(o, c) := raw_execute statement c in
      match o with
      | Returns r => Some (inl r, c)
      | OtherError code => Some (inr (Other code), c)
      | OperationalError message =>
          if negb (bool_decide (message = locked))
          then Some (inr (Operational message), c)
          else
            match _started with
            | None =>
                let '(t, c) := read_clock c in
                retry fuel' statement (Some t) c
            | Some started =>
                let '(t, c) := read_clock c in
                if bool_decide (t - started < _timeout c)%Z
                then retry fuel' statement _started (sleep c)
                else Some (inr (Operational message), c)
            end
      end
  end.

(** [_raw_execute(statement)]; the callers give no [_started]. *)
Definition _raw_execute (fuel : nat) (statement : str) (c : Connection)
    : option ((R + Raised) * Connection) :=
  match _enforce_transaction statement c with
  | (Some e, c) => Some (inr e, c)
  | (None, c) => retry fuel statement None c
  end.

End connection.

Arguments Returns {R} _.
Arguments OperationalError {R} _.
Arguments OtherError {R} _.
Arguments mkConnection {R} _ _ _ _ _ _ _ _.
Arguments _in_transaction {R} _.
Arguments _timeout {R} _.
Arguments answer {R} _ _.
Arguments now {R} _ _.
Arguments calls {R} _.
Arguments reads {R} _.
Arguments slept {R} _.
Arguments raw_log {R} _.
Arguments set_in_transaction {R} _ _.
Arguments raw_execute {R} _ _.
Arguments read_clock {R} _.
Arguments sleep {R} _.
Arguments _enforce_transaction {R} _ _.
Arguments retry {R} _ _ _ _.
Arguments _raw_execute {R} _ _ _.

End sqlite.

(* ===================================================================== *)
(** * Properties of storm/database.py *)
(* ===================================================================== *)

Section convert_param_marks_properties.
Import database.

Variables from_mark to_mark : str.

Lemma split_nonempty sep s : split sep s ≠ [].
Proof.
  destruct s as [|c s]; simpl; [done|].
  case_decide; [done|]. by destruct (split sep s).
Qed.

Lemma join_cons_cons c t ts : join quote ((c :: t) :: ts) = c :: join quote (t :: ts).
Proof. simpl. by destruct ts. Qed.

Lemma join_app_cons a t ts : join quote ((a ++ t) :: ts) = a ++ join quote (t :: ts).
Proof. simpl. destruct ts; [done|]. by rewrite <- app_assoc. Qed.

Lemma join_nil_cons ts : ts ≠ [] → join quote ([] :: ts) = quote :: join quote ts.
Proof. by destruct ts. Qed.

Lemma map_even_nonempty f ts : ts ≠ [] → map_even f ts ≠ [].
Proof. by destruct ts. Qed.

Lemma map_odd_nonempty f ts : ts ≠ [] → map_odd f ts ≠ [].
Proof. by destruct ts. Qed.

Lemma map_even_cons f t ts : map_even f (t :: ts) = f t :: map_odd f ts.
Proof. by destruct ts. Qed.

(** A mark without a quote matches at the head of a statement exactly
    when it matches at the head of the statement's first token. *)
Lemma startswith_first_token p s t ts :
  quote ∉ p → split quote s = t :: ts → startswith p s = startswith p t.
Proof.
  revert s t ts. induction p as [|a p IH]; intros s t ts Hq Hs; [done|].
  apply not_elem_of_cons in Hq as [Ha Hp].
  destruct s as [|c s]; simpl in Hs.
  - by simplify_eq.
  - case_decide as Hc.
    + simplify_eq. simpl. case_decide; [congruence|done].
    + destruct (split quote s) as [|t' ts'] eqn:Hs'; simplify_eq/=.
      * case_decide; [|done]. by destruct (split_nonempty quote s).
      * case_decide; [|done]. eauto.
Qed.

(** The characters of a matched occurrence are not quotes. *)
Lemma startswith_take p s :
  startswith p s = true → take (length p) s = p.
Proof.
  revert s. induction p as [|a p IH]; intros [|c s] H; simpl in *; try done.
  case_decide; [|done]. simplify_eq. f_equal. eauto.
Qed.

Hypothesis from_nonempty : from_mark ≠ [].
Hypothesis from_no_quote : quote ∉ from_mark.

(** Outside a literal ([skip] characters of a match still to drop) and
    inside one, splitting, replacing and joining agrees with the
    scanner. *)
Lemma join_split_scan s :
  (∀ skip, quote ∉ take skip s →
     ∀ t ts, split quote s = t :: ts →
       join quote (replace_skip from_mark to_mark skip t
                     :: map_odd (replace from_mark to_mark) ts)
       = convert_scan from_mark to_mark false skip s) ∧
  (∀ t ts, split quote s = t :: ts →
     join quote (t :: map_even (replace from_mark to_mark) ts)
     = convert_scan from_mark to_mark true 0 s).
Proof.
  assert (Hrep : ∀ t, replace from_mark to_mark t
                      = replace_skip from_mark to_mark 0 t).
  { intros t. unfold replace. by destruct from_mark. }
  induction s as [|c s [IHout IHin]]; (split; [intros skip Hskip t ts Hs|intros t ts Hs]);
    simpl in Hs.
  - simplify_eq. by destruct skip.
  - by simplify_eq.
  - case_decide as Hc.
    + (* a quote: the token ends here *)
      simplify_eq. destruct skip as [|k].
      2:{ exfalso. apply Hskip. simpl. left. }
      cbn [replace_skip convert_scan]. rewrite decide_True by done.
      destruct (split quote s) as [|t' ts'] eqn:Hs'.
      { by destruct (split_nonempty quote s). }
      cbn [map_odd negb]. rewrite <- (IHin t' ts') by done.
      by rewrite join_nil_cons.
    + destruct (split quote s) as [|t' ts'] eqn:Hs'.
      { by destruct (split_nonempty quote s). }
      injection Hs as <- <-.
      assert (Hsplit : split quote (c :: s) = (c :: t') :: ts').
      { simpl. rewrite decide_False by done. by rewrite Hs'. }
      destruct skip as [|k].
      * cbn [replace_skip convert_scan]. rewrite decide_False by done.
        cbn [negb andb].
        rewrite (startswith_first_token from_mark _ _ _ from_no_quote Hsplit).
        destruct (startswith from_mark (c :: t')) eqn:Hm.
        -- rewrite join_app_cons. f_equal. apply IHout; [|done].
           rewrite <- (startswith_first_token from_mark _ _ _ from_no_quote Hsplit)
             in Hm.
           apply startswith_take in Hm.
           destruct from_mark as [|a p]; [done|].
           cbn [length take] in Hm. simpl. rewrite Nat.sub_0_r.
           injection Hm as -> Hm. intros Hin. apply from_no_quote. right.
           by rewrite Hm in Hin.
        -- rewrite join_cons_cons. f_equal. apply IHout; [|done].
           simpl. apply not_elem_of_nil.
      * cbn [replace_skip convert_scan]. apply IHout; [|done].
        intros Hin. apply Hskip. simpl. by right.
  - case_decide as Hc.
    + simplify_eq. cbn [convert_scan]. rewrite decide_True by done. cbn [negb].
      destruct (split quote s) as [|t' ts'] eqn:Hs'.
      { by destruct (split_nonempty quote s). }
      rewrite <- (IHout 0 (not_elem_of_nil _) t' ts') by done.
      rewrite join_nil_cons by (by apply map_even_nonempty).
      by rewrite map_even_cons, Hrep.
    + destruct (split quote s) as [|t' ts'] eqn:Hs'.
      { by destruct (split_nonempty quote s). }
      injection Hs as <- <-. rewrite join_cons_cons. cbn [convert_scan].
      rewrite decide_False by done. cbn [negb andb]. f_equal. by apply IHin.
Qed.

End convert_param_marks_properties.

(** Occurrences that [contains] finds are the ones [startswith] sees. *)
Lemma convert_scan_no_occurrence (from_mark to_mark : database.str) in_literal s :
  from_mark ≠ [] →
  database.contains from_mark s = false →
  database.convert_scan from_mark to_mark in_literal 0 s = s.
Proof.
  intros Hne. induction s as [|c s IH]; intros Hc; [done|].
  simpl in Hc. apply orb_false_iff in Hc as [Hhd Htl].
  cbn [database.convert_scan]. rewrite Hhd, andb_false_r.
  case_decide; f_equal; auto.
  (* after a quote the scanner is inside or outside a literal *)
  clear IH Hhd. revert in_literal. induction s as [|d s IH]; intros b; [done|].
  simpl in Htl. apply orb_false_iff in Htl as [Hhd Htl'].
  cbn [database.convert_scan]. rewrite Hhd, andb_false_r.
  case_decide; f_equal; auto.
Qed.

(** Replacing a mark by itself changes nothing. *)
Lemma convert_scan_same_mark (mark : database.str) in_literal skip s :
  mark ≠ [] →
  database.convert_scan mark mark in_literal skip s = drop skip s.
Proof.
  intros Hne. revert in_literal skip.
  induction s as [|c s IH]; intros b skip; [by destruct skip|].
  destruct skip as [|k]; cbn [database.convert_scan drop]; [|done].
  case_decide; [by rewrite IH|].
  destruct (negb b && database.startswith mark (c :: s)) eqn:Hm; [|by rewrite IH].
  apply andb_true_iff in Hm as [_ Hm]. apply startswith_take in Hm.
  rewrite IH. destruct mark as [|a p]; [done|].
  cbn [length take] in Hm. injection Hm as -> Hm.
  simpl. rewrite Nat.sub_0_r. f_equal.
  rewrite <- Hm at 1. apply take_drop.
Qed.

(** C8.  [convert_param_marks] agrees with the scanner that replaces the
    occurrences of the source mark outside single-quoted literals (taken
    from left to right, as [str.replace] does) and copies every character
    inside them, for every non-empty source mark that holds no quote; and
    it returns the statement itself when the two marks are equal or the
    source mark does not occur in the statement. *)
Theorem convert_param_marks_correct (statement from_mark to_mark : database.str) :
  (from_mark ≠ [] → database.quote ∉ from_mark →
   database.convert_param_marks statement from_mark to_mark
   = database.convert_scan from_mark to_mark false 0 statement) ∧
  (from_mark = to_mark →
   database.convert_param_marks statement from_mark to_mark = statement) ∧
  (database.contains from_mark statement = false →
   database.convert_param_marks statement from_mark to_mark = statement).
Proof.
  split; [|split].
  - intros Hne Hq. unfold database.convert_param_marks. cbv zeta.
    destruct (bool_decide (from_mark = to_mark)) eqn:Heq; simpl.
    + apply bool_decide_eq_true in Heq as <-.
      symmetry. by rewrite convert_scan_same_mark.
    + destruct (database.contains from_mark statement) eqn:Hc; simpl.
      * destruct (database.split database.quote statement) as [|t ts] eqn:Hs.
        { by destruct (split_nonempty database.quote statement). }
        rewrite map_even_cons.
        destruct (join_split_scan from_mark to_mark Hne Hq statement) as [Hout _].
        rewrite <- (Hout 0 (not_elem_of_nil _) t ts Hs).
        unfold database.replace at 1. by destruct from_mark.
      * symmetry. by apply convert_scan_no_occurrence.
  - intros ->. unfold database.convert_param_marks.
    by rewrite bool_decide_eq_true_2.
  - intros Hc. unfold database.convert_param_marks.
    by rewrite Hc, orb_true_r.
Qed.

Definition sql (s : string) : database.str := String.list_ascii_of_string s.

(** The conversion at work on a statement with a literal that holds the
    source mark. *)
Lemma convert_param_marks_correct_witness :
  database.convert_param_marks (sql "SELECT '?' WHERE a=? AND b='x?' OR c=?") (sql "?") (sql "%s")
    = sql "SELECT '?' WHERE a=%s AND b='x?' OR c=%s" ∧
  database.convert_param_marks (sql "a=? 'it''s ?'") (sql "?") (sql "?") = sql "a=? 'it''s ?'" ∧
  database.convert_param_marks (sql "SELECT 1") (sql "?") (sql "%s") = sql "SELECT 1".
Proof.
  pose proof (convert_param_marks_correct
                (sql "SELECT '?' WHERE a=? AND b='x?' OR c=?") (sql "?") (sql "%s"))
    as (H1 & _ & _).
  pose proof (convert_param_marks_correct (sql "a=? 'it''s ?'") (sql "?") (sql "?"))
    as (_ & H2 & _).
  pose proof (convert_param_marks_correct (sql "SELECT 1") (sql "?") (sql "%s"))
    as (_ & _ & H3).
  split; [|split].
  - rewrite H1; [reflexivity|discriminate|].
    intros Hin. apply list_elem_of_In in Hin. simpl in Hin.
    destruct Hin as [Hin|[]]. discriminate Hin.
  - apply H2. reflexivity.
  - apply H3. reflexivity.
Defined.

(* ===================================================================== *)
(** * Properties of storm/store.py *)
(* ===================================================================== *)

Import store.
Open Scope store_scope.

Arguments lookup_info : simpl never.
Arguments set_self _ _ /.
Arguments set_infos _ _ /.
Arguments set_next_id _ _ /.
Arguments set_flushed _ _ /.
Arguments set_connection _ _ /.
Arguments set_cache _ _ /.
Arguments set_ghosts _ _ /.
Arguments set_dirty _ _ /.
Arguments set_order _ _ /.

(** Unfolding the monad and the bookkeeping primitives. *)
Ltac unfold_monad :=
  unfold _set_dirty, _set_clean, _set_ghost, _set_alive, _is_ghost,
    _is_dirty, save, checkpoint, emit_flushed, primary_values_of,
    _enable_change_notification, _disable_change_notification in *;
  unfold get_obj_info, update_info, modify_store in *;
  unfold bind, ret, raise, gets, modify in *.

(** ** Usage errors *)

Lemma message_inj m1 m2 : message m1 = message m2 → m1 = m2.
Proof. by destruct m1, m2. Qed.

(** C4.  Adding an object that is scheduled to be added, removing one
    that is scheduled to be removed, adding one that belongs to another
    store, and reloading one that was never flushed each raise a
    [StoreError] and leave the whole world (store and object states) as
    it was; the four errors have different texts. *)
Theorem usage_errors_leave_state_unchanged (w : World) (obj : Obj) :
  let me := store_id (self w) in
  let obj_info := info_of w obj in
  (oi_pending obj_info = Some PENDING_ADD →
   oi_store obj_info = None ∨ oi_store obj_info = Some me →
   add obj w = (Raise (StoreError is_already_scheduled_to_be_added), w)) ∧
  (oi_pending obj_info = Some PENDING_REMOVE →
   oi_store obj_info = Some me →
   remove obj w = (Raise (StoreError is_already_scheduled_to_be_removed), w)) ∧
  (∀ other, oi_store obj_info = Some other → other ≠ me →
   add obj w = (Raise (StoreError is_part_of_another_store), w)) ∧
  (oi_store obj_info = Some me →
   oi_primary_values obj_info = None →
   reload obj w = (Raise (StoreError cant_reload_never_flushed), w)) ∧
  NoDup (message <$> [is_already_scheduled_to_be_added;
                      is_already_scheduled_to_be_removed;
                      is_part_of_another_store;
                      cant_reload_never_flushed]).
Proof.
  intros me obj_info. subst me obj_info. repeat split.
  - intros Hp Hs. unfold add. unfold_monad. cbn in *.
    rewrite bool_decide_eq_false_2 by (intros [? ?]; destruct Hs; congruence).
    by rewrite Hp.
  - intros Hp Hs. unfold remove. unfold_monad. cbn in *.
    rewrite bool_decide_eq_false_2 by (intros ?; congruence).
    by rewrite Hp.
  - intros other Hs Hne. unfold add. unfold_monad. cbn in *.
    rewrite bool_decide_eq_true_2; [done|].
    rewrite Hs. split; congruence.
  - intros Hs Hpv. unfold reload. unfold_monad. cbn in *.
    rewrite bool_decide_eq_false_2 by (intros ?; congruence).
    by rewrite Hpv.
  - apply NoDup_fmap_2; [intros ??; apply message_inj|].
    repeat (apply NoDup_cons; split;
            [rewrite ?elem_of_cons, elem_of_nil; intuition discriminate|]).
    apply NoDup_nil_2.
Qed.

(** ** Object states *)

Lemma lookup_info_insert_eq m obj i : lookup_info (<[obj := i]> m) obj = i.
Proof. unfold lookup_info. by rewrite lookup_insert_eq. Qed.

Lemma lookup_info_insert_ne m obj obj' i :
  obj ≠ obj' → lookup_info (<[obj := i]> m) obj' = lookup_info m obj'.
Proof. intros. unfold lookup_info. by rewrite lookup_insert_ne. Qed.

Lemma elem_of_dirty_insert obj x d :
  x ∈ dirty_insert obj d ↔ x = obj ∨ x ∈ d.
Proof.
  unfold dirty_insert. case_decide; [|rewrite elem_of_app, list_elem_of_singleton].
  - split; [tauto|]. by intros [->|].
  - tauto.
Qed.

Lemma elem_of_dirty_remove obj x d :
  x ∈ dirty_remove obj d ↔ x ≠ obj ∧ x ∈ d.
Proof. unfold dirty_remove. by rewrite list_elem_of_filter. Qed.

(** ** add and remove *)

(** C5.  For an object without pending flag, an [add] that returns
    followed by [remove] returns as well and leaves the object without
    pending flag and out of the dirty set. *)
Theorem add_then_remove_annihilates (w w1 : World) (obj : Obj) :
  oi_pending (info_of w obj) = None →
  add obj w = (Return tt, w1) →
  ∃ w2, remove obj w1 = (Return tt, w2) ∧
        oi_pending (info_of w2 obj) = None ∧
        (obj ∉ _dirty (self w2)) ∧
        _is_dirty obj w2 = (Return false, w2).
Proof.
  intros Hp Hadd. unfold add in Hadd. unfold_monad. cbn in *.
  rewrite Hp in Hadd.
  assert (Hrem : ∀ w',
    oi_store (info_of w' obj) = Some (store_id (self w')) →
    oi_pending (info_of w' obj) = Some PENDING_ADD →
    ∃ w2, remove obj w' = (Return tt, w2) ∧
          oi_pending (info_of w2 obj) = None ∧
          (obj ∉ _dirty (self w2)) ∧
          (Return (bool_decide (obj ∈ _dirty (self w2))), w2) = (Return false, w2)).
  { intros w' Hs Hpa. eexists. unfold remove. unfold_monad. cbn in *.
    rewrite bool_decide_eq_false_2 by (intros ?; congruence).
    rewrite Hpa. cbn. split; [done|]. cbn.
    rewrite lookup_info_insert_eq. cbn.
    assert (obj ∉ dirty_remove obj (_dirty (self w'))) as Hnd
      by (rewrite elem_of_dirty_remove; tauto).
    repeat split; [done|]. by rewrite bool_decide_eq_false_2. }
  destruct (bool_decide _) eqn:Hother in Hadd; [done|].
  apply bool_decide_eq_false in Hother.
  destruct (oi_store (lookup_info (infos w) obj)) as [st|] eqn:Hst.
  - destruct (bool_decide (obj ∈ _ghosts (self w))); cbn in Hadd; [|done].
    injection Hadd as <-. apply Hrem; cbn.
    + rewrite lookup_info_insert_eq. cbn. rewrite Hst. f_equal.
      destruct (decide (st = store_id (self w))); [done|].
      destruct Hother. split; congruence.
    + by rewrite lookup_info_insert_eq.
  - injection Hadd as <-. apply Hrem; cbn.
    + by rewrite !lookup_info_insert_eq.
    + by rewrite !lookup_info_insert_eq.
Qed.

Lemma set_oi_pending_id i : oi_pending i = None → set_oi_pending None i = i.
Proof. destruct i. cbn. by intros ->. Qed.

Lemma set_oi_pending_twice p q i :
  set_oi_pending p (set_oi_pending q i) = set_oi_pending p i.
Proof. done. Qed.

(** An object with a store has an entry in the table of object states. *)
Lemma lookup_info_Some m obj st :
  oi_store (lookup_info m obj) = Some st → m !! obj = Some (lookup_info m obj).
Proof. unfold lookup_info. by destruct (m !! obj). Qed.

(** C10.  For an object of the store without pending flag, [remove]
    and then [add] both return; the world afterwards is the world
    before with the object put into the dirty set, and nothing else
    changed: the pending flag is clear again, the object is dirty. *)
Theorem remove_then_add_leaves_dirty (w : World) (obj : Obj) :
  oi_store (info_of w obj) = Some (store_id (self w)) →
  oi_pending (info_of w obj) = None →
  ∃ w1,
    remove obj w = (Return tt, w1) ∧
    add obj w1
    = (Return tt,
       set_self (set_dirty (dirty_insert obj (_dirty (self w))) (self w)) w) ∧
    obj ∈ dirty_insert obj (_dirty (self w)).
Proof.
  intros Hs Hp. eexists. unfold remove, add. unfold_monad. cbn in *.
  rewrite bool_decide_eq_false_2 by (intros ?; congruence).
  rewrite Hp. cbn. split; [done|]. cbn.
  rewrite !lookup_info_insert_eq. cbn. rewrite Hs.
  rewrite bool_decide_eq_false_2 by (intros [? ?]; congruence).
  cbn. split; [|apply elem_of_dirty_insert; by left].
  rewrite insert_insert_eq, lookup_info_insert_eq.
  rewrite set_oi_pending_twice, set_oi_pending_id by done.
  by rewrite insert_id by (by eapply lookup_info_Some).
Qed.

(** ** Field writes *)

(** C1 (as amended).  With change notification enabled, a field write
    with a defined value puts the object into the dirty set whatever the
    checkpoint holds, and a write of [Undef] leaves the dirty set as it
    is.  The write that changes nothing is dropped when the object is
    flushed: a dirty object without pending flag whose values equal the
    checkpoint is flushed without a statement and is clean afterwards. *)
Theorem field_write_marks_dirty (w : World) (obj : Obj) (name : ColName) :
  oi_changed_hook (info_of w obj) = true →
  (∀ value,
     fst (set_value obj name (Some value) w) = Return tt ∧
     obj ∈ _dirty (self (snd (set_value obj name (Some value) w)))) ∧
  _dirty (self (snd (set_value obj name None w))) = _dirty (self w) ∧
  (obj ∈ _dirty (self w) →
   oi_pending (info_of w obj) = None →
   oi_values (info_of w obj) = oi_checkpoint (info_of w obj) →
   fst (_flush_one obj w) = Return tt ∧
   executed (_connection (self (snd (_flush_one obj w))))
   = executed (_connection (self w)) ∧
   obj ∉ _dirty (self (snd (_flush_one obj w)))).
Proof.
  intros Hhook. cbn in Hhook. split; [|split].
  - intros value. unfold set_value, _object_changed. unfold_monad. cbn.
    rewrite Hhook. cbn. split; [done|]. apply elem_of_dirty_insert. by left.
  - unfold set_value, _object_changed. unfold_monad. cbn. by rewrite Hhook.
  - intros Hd Hp Hv. cbn in Hp, Hv. unfold _flush_one. unfold_monad. cbn.
    rewrite bool_decide_eq_true_2 by done. cbn.
    rewrite Hp. unfold check_changed.
    rewrite bool_decide_eq_false_2 by (intros Hne; by apply Hne).
    cbn. repeat split. rewrite elem_of_dirty_remove. tauto.
Qed.

(** ** What a method may change *)

(** [respects R E m]: running [m] relates the world before to the world
    after by [R], whether [m] returns or raises, and [m] raises only
    exceptions in [E]. *)
Definition respects {A} (R : relation World) (E : Exn → Prop) (m : M A) : Prop :=
  ∀ w, R w (snd (m w)) ∧ ∀ e, fst (m w) = Raise e → E e.

Section respects.
Context (R : relation World) `{!PreOrder R} (E : Exn → Prop).

Lemma respects_ret {A} (a : A) : respects R E (ret a).
Proof. intros w. split; [reflexivity|done]. Qed.

Lemma respects_gets {A} (f : World → A) : respects R E (gets f).
Proof. intros w. split; [reflexivity|done]. Qed.

Lemma respects_raise {A} e : E e → respects R E (@raise A e).
Proof. intros He w. split; [reflexivity|]. cbn. by intros ? [= <-]. Qed.

Lemma respects_modify f : (∀ w, R w (f w)) → respects R E (modify f).
Proof. intros Hf w. split; [apply Hf|done]. Qed.

Lemma respects_bind {A B} (m : M A) (f : A → M B) :
  respects R E m → (∀ a, respects R E (f a)) → respects R E (bind m f).
Proof.
  intros Hm Hf w. unfold bind. destruct (Hm w) as [HR HE].
  destruct (m w) as [[a|e] w1]; cbn in *.
  - destruct (Hf a w1) as [HR' HE']. split; [by etrans|done].
  - split; [done|]. intros e' [= <-]. by apply HE.
Qed.

Lemma respects_for_each {A} (l : list A) (f : A → M unit) :
  (∀ a, respects R E (f a)) → respects R E (for_each l f).
Proof.
  intros Hf. induction l as [|a l IH]; cbn.
  - apply respects_ret.
  - by apply respects_bind.
Qed.
End respects.

(** The exceptions that flushing one object can raise: a missing key, a
    result without row, and whatever the backend raises. *)
Definition flush_exn (e : Exn) : Prop :=
  match e with
  | KeyError | TypeError | BackendError _ => True
  | _ => False
  end.

(** What the steps of [_flush_one obj] may change: the state of [obj]
    except its store and its pending flag, the statements that the
    connection has seen, whether [obj] is a ghost, the cache entries of
    [obj] (an entry of another object may go, none may come), and, when
    [redirty] holds, the dirty set by putting [obj] into it. *)
Record frame (redirty : bool) (obj : Obj) (w w' : World) : Prop := mkFrame {
  frame_store_id : store_id (self w') = store_id (self w);
  frame_order : _order (self w') = _order (self w);
  frame_next_id : next_id w' = next_id w;
  frame_flushed : flushed w' = flushed w;
  frame_commits :
    commits (_connection (self w')) = commits (_connection (self w));
  frame_infos : ∀ x, x ≠ obj → infos w' !! x = infos w !! x;
  frame_pending :
    oi_pending (lookup_info (infos w') obj)
    = oi_pending (lookup_info (infos w) obj);
  frame_store :
    oi_store (lookup_info (infos w') obj)
    = oi_store (lookup_info (infos w) obj);
  frame_dirty :
    _dirty (self w') = _dirty (self w) ∨
    (redirty = true ∧ _dirty (self w') = dirty_insert obj (_dirty (self w)));
  frame_ghosts :
    ∀ x, x ≠ obj → x ∈ _ghosts (self w') ↔ x ∈ _ghosts (self w);
  frame_cache :
    ∀ k x, _cache (self w') !! k = Some x →
           x = obj ∨ _cache (self w) !! k = Some x;
}.

Lemma dirty_insert_idemp obj d :
  dirty_insert obj (dirty_insert obj d) = dirty_insert obj d.
Proof.
  unfold dirty_insert at 1. rewrite decide_True; [done|].
  apply elem_of_dirty_insert. by left.
Qed.

#[global] Instance frame_preorder redirty obj : PreOrder (frame redirty obj).
Proof.
  split.
  - intros w. split; auto.
  - intros w1 w2 w3 [] []. split; try congruence.
    + intros x Hx. by rewrite frame_infos1, frame_infos0.
    + destruct frame_dirty0 as [H1|[Hb H1]], frame_dirty1 as [H2|[Hb' H2]];
        rewrite H2, H1; auto.
      right. by rewrite dirty_insert_idemp.
    + intros x Hx. by rewrite frame_ghosts1, frame_ghosts0.
    + intros k x Hk. apply frame_cache1 in Hk as [?|Hk]; auto.
Qed.

Lemma frame_weaken obj w w' : frame false obj w w' → frame true obj w w'.
Proof.
  intros []. split; auto. destruct frame_dirty0 as [?|[? ?]]; [auto|done].
Qed.

Section frame_steps.
Context (redirty : bool) (obj : Obj) (E : Exn → Prop).

Lemma frame_update_info f :
  (∀ i, oi_pending (f i) = oi_pending i) →
  (∀ i, oi_store (f i) = oi_store i) →
  respects (frame redirty obj) E (update_info obj f).
Proof.
  intros Hp Hs. apply respects_modify. intros w. split; cbn; auto.
  - intros x Hx. by rewrite lookup_insert_ne.
  - by rewrite lookup_info_insert_eq.
  - by rewrite lookup_info_insert_eq.
Qed.

Lemma frame_set_ghosts g :
  (∀ s x, x ≠ obj → x ∈ g s ↔ x ∈ _ghosts s) →
  respects (frame redirty obj) E (modify_store (λ s, set_ghosts (g s) s)).
Proof. intros Hg. apply respects_modify. intros w. split; cbn; auto. Qed.

Lemma frame_set_ghost : respects (frame redirty obj) E (_set_ghost obj).
Proof. apply frame_set_ghosts. intros. set_solver. Qed.

Lemma frame_set_alive : respects (frame redirty obj) E (_set_alive obj).
Proof. apply frame_set_ghosts. intros. set_solver. Qed.

Lemma frame_cache_del k :
  E KeyError → respects (frame redirty obj) E (cache_del k).
Proof.
  intros HE w. unfold cache_del.
  destruct (_cache (self w) !! k) eqn:Hk; cbn.
  - split; [|done]. split; cbn; auto.
    intros k' x Hx. right. apply lookup_delete_Some in Hx. tauto.
  - split; [reflexivity|]. by intros ? [= <-].
Qed.

Lemma frame_cache_insert k :
  respects (frame redirty obj) E
    (modify_store (λ s, set_cache (<[k := obj]> (_cache s)) s)).
Proof.
  apply respects_modify. intros w. split; cbn; auto.
  intros k' x Hx. apply lookup_insert_Some in Hx. naive_solver.
Qed.

Lemma frame_execute statement :
  (∀ c, E (BackendError c)) →
  respects (frame redirty obj) E (execute statement).
Proof.
  intros HE w. unfold execute.
  destruct (next_response _) as [[c|one rowid] rs]; cbn.
  - split; [split; cbn; auto|]. by intros ? [= <-].
  - split; [split; cbn; auto|done].
Qed.

Lemma frame_primary_values_of :
  E KeyError → respects (frame redirty obj) E (primary_values_of obj).
Proof.
  intros HE w. unfold primary_values_of. unfold_monad.
  destruct (oi_primary_values _); cbn.
  - split; [reflexivity|done].
  - split; [reflexivity|]. by intros ? [= <-].
Qed.

Lemma frame_add_to_cache :
  E KeyError → respects (frame redirty obj) E (_add_to_cache obj).
Proof.
  intros HE. unfold _add_to_cache.
  apply respects_bind; [apply _|apply respects_gets; apply _|]. intros i.
  case_decide; [apply respects_ret; apply _|].
  apply respects_bind; [apply _| |intros _].
  { destruct (oi_primary_values i);
      [by apply frame_cache_del|apply respects_ret; apply _]. }
  apply respects_bind; [apply _|apply frame_cache_insert|intros _].
  by apply frame_update_info.
Qed.

Lemma frame_remove_from_cache :
  E KeyError → respects (frame redirty obj) E (_remove_from_cache obj).
Proof.
  intros HE. unfold _remove_from_cache.
  apply respects_bind; [apply _|apply respects_gets; apply _|]. intros i.
  destruct (oi_primary_values i); [|apply respects_ret; apply _].
  apply respects_bind; [apply _|by apply frame_cache_del|intros _].
  by apply frame_update_info.
Qed.
End frame_steps.

Lemma frame_set_value obj E name value :
  respects (frame true obj) E (set_value obj name value).
Proof.
  unfold set_value.
  apply respects_bind; [apply _|apply respects_gets; apply _|]. intros i.
  apply respects_bind; [apply _|by apply frame_update_info|intros _].
  destruct (oi_changed_hook i); [|apply respects_ret; apply _].
  unfold _object_changed. destruct value; [|apply respects_ret; apply _].
  apply respects_modify. intros w. split; cbn; auto.
Qed.

Lemma frame_set_values obj E cols values :
  E TypeError → respects (frame true obj) E (_set_values obj cols values).
Proof.
  intros HE. unfold _set_values. destruct values as [row|].
  - apply respects_for_each; [apply _|]. intros [name value].
    apply frame_set_value.
  - by apply respects_raise; [apply _|].
Qed.

Lemma frame_fill_missing_values obj result :
  respects (frame true obj) flush_exn (_fill_missing_values obj result).
Proof.
  unfold _fill_missing_values.
  apply respects_bind; [apply _|apply respects_gets; apply _|]. intros i.
  destruct (filter _ _); [apply respects_ret; apply _|].
  apply respects_bind; [apply _|by apply frame_execute|intros r].
  by apply frame_set_values.
Qed.

(** ** Flushing one object *)

(** The three branches of [_flush_one], by the pending flag. *)
Definition flush_remove (obj : Obj) : M unit :=
  primary_values <- primary_values_of obj ;;
  execute (Delete (compare_columns (primary_key (obj_class obj)) primary_values)
                  (table (obj_class obj))) ;;
  _disable_change_notification obj ;;
  _set_ghost obj ;;
  _remove_from_cache obj.

Definition flush_add (obj : Obj) (obj_info : ObjectInfo) : M unit :=
  let defined :=
    omap (λ name, (name,.) <$> oi_values obj_info !! name)
         (columns (obj_class obj)) in
  result <- execute (Insert defined.*1 defined.*2 (table (obj_class obj))) ;;
  _fill_missing_values obj result ;;
  _enable_change_notification obj ;;
  _set_alive obj ;;
  _add_to_cache obj ;;
  checkpoint obj.

Definition flush_update (obj : Obj) (obj_info : ObjectInfo) : M unit :=
  if check_changed obj_info then
    let sets :=
      omap (λ name, (name,.) <$> get_change obj_info name)
           (columns (obj_class obj)) in
    match sets with
    | [] => ret tt
    | _ :: _ =>
        primary_values <- primary_values_of obj ;;
        execute (Update sets
                   (compare_columns (primary_key (obj_class obj)) primary_values)
                   (table (obj_class obj))) ;;
        _add_to_cache obj
    end ;;
    checkpoint obj
  else ret tt.

Definition flush_action (obj : Obj) (obj_info : ObjectInfo) : M unit :=
  match oi_pending obj_info with
  | Some PENDING_REMOVE => flush_remove obj
  | Some PENDING_ADD => flush_add obj obj_info
  | None => flush_update obj obj_info
  end.

Lemma _flush_one_unfold obj :
  _flush_one obj
  = (dirty <- _is_dirty obj ;;
     if negb dirty then ret tt
     else
       _set_clean obj ;;
       obj_info <- get_obj_info obj ;;
       update_info obj (set_oi_pending None) ;;
       flush_action obj obj_info ;;
       emit_flushed obj).
Proof. reflexivity. Qed.

Ltac respects_step :=
  first
    [ apply respects_ret; apply _
    | apply respects_gets; apply _
    | apply frame_set_ghost
    | apply frame_set_alive
    | apply frame_execute; done
    | apply frame_primary_values_of; done
    | apply frame_add_to_cache; done
    | apply frame_remove_from_cache; done
    | apply frame_update_info; done
    | apply respects_bind; [apply _| |intros ?] ].

Lemma flush_remove_frame redirty obj :
  respects (frame redirty obj) flush_exn (flush_remove obj).
Proof. unfold flush_remove, _disable_change_notification. repeat respects_step. Qed.

Lemma flush_update_frame redirty obj obj_info :
  respects (frame redirty obj) flush_exn (flush_update obj obj_info).
Proof.
  unfold flush_update, checkpoint. destruct (check_changed obj_info).
  - respects_step; [|respects_step].
    destruct (omap _ _); repeat respects_step.
  - respects_step.
Qed.

Lemma flush_add_frame obj obj_info :
  respects (frame true obj) flush_exn (flush_add obj obj_info).
Proof.
  unfold flush_add, checkpoint, _enable_change_notification. cbv zeta.
  respects_step; [respects_step|].
  respects_step; [apply frame_fill_missing_values|].
  repeat respects_step.
Qed.

Lemma flush_action_frame obj obj_info :
  respects
    (frame (bool_decide (oi_pending obj_info = Some PENDING_ADD)) obj)
    flush_exn (flush_action obj obj_info).
Proof.
  unfold flush_action. destruct (oi_pending obj_info) as [[]|].
  - apply flush_add_frame.
  - apply flush_remove_frame.
  - apply flush_update_frame.
Qed.

(** What flushing one dirty object does to the world. *)
Record flushed_one (obj : Obj) (w : World) (r : outcome unit) (w' : World)
    : Prop := mkFlushedOne {
  fo_store_id : store_id (self w') = store_id (self w);
  fo_order : _order (self w') = _order (self w);
  fo_next_id : next_id w' = next_id w;
  fo_commits :
    commits (_connection (self w')) = commits (_connection (self w));
  fo_infos : ∀ x, x ≠ obj → infos w' !! x = infos w !! x;
  fo_pending : oi_pending (lookup_info (infos w') obj) = None;
  fo_store :
    oi_store (lookup_info (infos w') obj)
    = oi_store (lookup_info (infos w) obj);
  fo_dirty :
    _dirty (self w') = dirty_remove obj (_dirty (self w)) ∨
    (oi_pending (lookup_info (infos w) obj) = Some PENDING_ADD ∧
     _dirty (self w') = dirty_remove obj (_dirty (self w)) ++ [obj]);
  fo_ghosts :
    ∀ x, x ≠ obj → x ∈ _ghosts (self w') ↔ x ∈ _ghosts (self w);
  fo_cache :
    ∀ k x, _cache (self w') !! k = Some x →
           x = obj ∨ _cache (self w) !! k = Some x;
  fo_flushed :
    match r with
    | Return _ => flushed w' = flushed w ++ [obj]
    | Raise e => flushed w' = flushed w ∧ flush_exn e
    end;
}.

Lemma dirty_insert_remove obj d :
  dirty_insert obj (dirty_remove obj d) = dirty_remove obj d ++ [obj].
Proof.
  unfold dirty_insert. rewrite decide_False; [done|].
  rewrite elem_of_dirty_remove. tauto.
Qed.

Lemma _flush_one_spec obj w :
  obj ∈ _dirty (self w) →
  flushed_one obj w (fst (_flush_one obj w)) (snd (_flush_one obj w)).
Proof.
  intros Hd. rewrite _flush_one_unfold.
  set (i := lookup_info (infos w) obj).
  set (w0 := mkWorld (set_dirty (dirty_remove obj (_dirty (self w))) (self w))
                     (<[obj := set_oi_pending None i]> (infos w))
                     (next_id w) (flushed w)).
  assert (Heq : ∀ k : ObjectInfo → M unit,
    (dirty <- _is_dirty obj ;;
     if negb dirty then ret tt
     else _set_clean obj ;; obj_info <- get_obj_info obj ;;
          update_info obj (set_oi_pending None) ;; k obj_info) w
    = k i w0).
  { intros k. unfold _is_dirty, _set_clean, get_obj_info, update_info,
      modify_store, modify, gets, bind. cbn.
    by rewrite bool_decide_eq_true_2 by done. }
  rewrite (Heq (λ obj_info, flush_action obj obj_info ;; emit_flushed obj)).
  unfold bind. clear Heq.
  destruct (flush_action_frame obj i w0) as [Hfr Hex].
  destruct (flush_action obj i w0) as [[[]|e] w1]; cbn in *.
  - destruct Hfr. cbn in *. split; cbn; try done.
    + intros x Hx. by rewrite frame_infos0, lookup_insert_ne.
    + by rewrite frame_pending0, lookup_info_insert_eq.
    + by rewrite frame_store0, lookup_info_insert_eq.
    + destruct frame_dirty0 as [->|[Hb ->]]; [by left|right].
      apply bool_decide_eq_true in Hb. by rewrite dirty_insert_remove.
    + by rewrite frame_flushed0.
  - destruct Hfr. cbn in *. split; cbn; try done.
    + intros x Hx. by rewrite frame_infos0, lookup_insert_ne.
    + by rewrite frame_pending0, lookup_info_insert_eq.
    + by rewrite frame_store0, lookup_info_insert_eq.
    + destruct frame_dirty0 as [->|[Hb ->]]; [by left|right].
      apply bool_decide_eq_true in Hb. by rewrite dirty_insert_remove.
    + split; [done|]. by apply Hex.
Qed.

(** ** The flush loop *)

(** What a run of the loop does: [fl] lists the objects on which
    "flushed" was emitted, oldest first. *)
Record flush_run (predecessors : gmap Obj (gset Obj)) (w : World)
    (r : outcome unit) (w' : World) (fl : list Obj) : Prop := mkFlushRun {
  fr_flushed : flushed w' = flushed w ++ fl;
  fr_store_id : store_id (self w') = store_id (self w);
  fr_order : _order (self w') = _order (self w);
  fr_next_id : next_id w' = next_id w;
  fr_commits :
    commits (_connection (self w')) = commits (_connection (self w));
  fr_flushed_dirty : ∀ x, x ∈ fl → x ∈ _dirty (self w);
  fr_dirty : ∀ x, x ∈ _dirty (self w') → x ∈ _dirty (self w);
  fr_infos : ∀ x, x ∉ _dirty (self w) → infos w' !! x = infos w !! x;
  fr_ghosts :
    ∀ x, x ∉ _dirty (self w) → x ∈ _ghosts (self w') ↔ x ∈ _ghosts (self w);
  fr_cache :
    ∀ k x, _cache (self w') !! k = Some x →
           x ∈ _dirty (self w) ∨ _cache (self w) !! k = Some x;
  (* every predecessor of a flushed object that was dirty was flushed
     before it, and none is flushed with or after it *)
  fr_topological :
    ∀ l1 a l2 b, fl = l1 ++ a :: l2 →
      b ∈ default ∅ (predecessors !! a) →
      b ∉ a :: l2 ∧ (b ∈ _dirty (self w) → b ∈ l1);
  fr_outcome :
    match r with
    | Return _ =>
        _dirty (self w') = [] ∧ ∀ x, x ∈ _dirty (self w) → x ∈ fl
    | Raise e =>
        flush_exn e ∨ e = Diverges ∨
        (e = StoreError cant_flush_ordering_loop ∧
         _dirty (self w') ≠ [] ∧
         ∀ x, x ∈ _dirty (self w') →
              ¬ no_dirty_predecessor predecessors (_dirty (self w')) x)
    end;
}.

Lemma flush_run_nil predecessors w r :
  match r with
  | Return _ => _dirty (self w) = []
  | Raise e =>
      flush_exn e ∨ e = Diverges ∨
      (e = StoreError cant_flush_ordering_loop ∧
       _dirty (self w) ≠ [] ∧
       ∀ x, x ∈ _dirty (self w) →
            ¬ no_dirty_predecessor predecessors (_dirty (self w)) x)
  end →
  flush_run predecessors w r w [].
Proof.
  intros Hr. split; rewrite ?app_nil_r; auto.
  - by intros x Hx%elem_of_nil.
  - by intros [] ????.
  - destruct r; [|done]. split; [done|]. rewrite Hr. by intros x Hx%elem_of_nil.
Qed.

Lemma flush_loop_unfold predecessors fuel w :
  flush_loop predecessors fuel w
  = if decide (_dirty (self w) = []) then (Return tt, w)
    else match fuel with
         | O => (Raise Diverges, w)
         | S fuel' =>
             match list_find (no_dirty_predecessor predecessors (_dirty (self w)))
                             (_dirty (self w)) with
             | None => (Raise (StoreError cant_flush_ordering_loop), w)
             | Some (_, obj) =>
                 (_flush_one obj ;; flush_loop predecessors fuel') w
             end
         end.
Proof. destruct fuel; cbn; by destruct (_dirty (self w)). Qed.

Lemma flush_loop_run predecessors fuel w :
  ∃ fl, flush_run predecessors w (fst (flush_loop predecessors fuel w))
                  (snd (flush_loop predecessors fuel w)) fl.
Proof.
  revert w. induction fuel as [|fuel IH]; intros w;
    rewrite flush_loop_unfold; case_decide as Hd;
    try (exists []; apply flush_run_nil; cbn; by auto).
  destruct (list_find _ _) as [[n x]|] eqn:Hfind; cbn.
  2:{ exists []. apply flush_run_nil.
      right; right. split; [done|]. split; [done|].
      intros y Hy. by eapply list_find_None, Forall_forall in Hfind. }
  apply list_find_Some in Hfind as (Hnx & Helig & _).
  assert (Hx : x ∈ _dirty (self w)) by (by eapply list_elem_of_lookup_2).
  pose proof (_flush_one_spec x w Hx) as Hone.
  unfold bind. destruct (_flush_one x w) as [[[]|e] w1]; cbn in Hone.
  + (* the object was flushed; the loop goes on *)
    destruct (IH w1) as [fl Hrun].
    destruct Hone, Hrun. exists (x :: fl).
    assert (Hsub : ∀ y, y ∈ _dirty (self w1) → y ∈ _dirty (self w)).
    { intros y. destruct fo_dirty0 as [->|[_ ->]];
        rewrite ?elem_of_app, ?elem_of_dirty_remove, ?list_elem_of_singleton;
        naive_solver. }
    assert (Hkeep : ∀ y, y ≠ x → y ∈ _dirty (self w) → y ∈ _dirty (self w1)).
    { intros y ??. destruct fo_dirty0 as [->|[_ ->]];
        rewrite ?elem_of_app, ?elem_of_dirty_remove; naive_solver. }
    split; try congruence.
    * rewrite fr_flushed0, fo_flushed0. by rewrite <- app_assoc.
    * intros y [->|Hy]%elem_of_cons; auto.
    * auto.
    * intros y Hy. rewrite fr_infos0, fo_infos0; [done|by intros ->|auto].
    * intros y Hy. rewrite fr_ghosts0, fo_ghosts0; [done|by intros ->|auto].
    * intros k y Hk. apply fr_cache0 in Hk as [Hk|Hk]; [auto|].
      apply fo_cache0 in Hk as [->|Hk]; auto.
    * intros l1 a l2 b Hfl Hb. destruct l1 as [|x' l1]; cbn in Hfl.
      -- injection Hfl as <- <-. split; [|intros Hbd; by destruct (Helig b)].
         intros [->|Hbfl]%elem_of_cons; [by apply (Helig x)|].
         apply (Helig b); auto.
      -- injection Hfl as <- ->.
         destruct (fr_topological0 l1 a l2 b eq_refl Hb) as [Hnot Hin].
         split; [done|]. intros Hbd.
         destruct (decide (b = x)) as [->|Hne]; [left|right; auto].
    * destruct (fst (flush_loop predecessors fuel w1)) as [[]|e]; [|done].
      destruct fr_outcome0 as [Hnil Hall]. split; [done|].
      intros y Hy. destruct (decide (y = x)) as [->|Hne]; [left|right; auto].
  + (* flushing the object raised *)
    destruct Hone. destruct fo_flushed0 as [Hfl Hexn].
    exists []. split; cbn; rewrite ?app_nil_r; auto.
    * by intros y Hy%elem_of_nil.
    * intros y. destruct fo_dirty0 as [->|[_ ->]];
        rewrite ?elem_of_app, ?elem_of_dirty_remove, ?list_elem_of_singleton;
        naive_solver.
    * intros y Hy. apply fo_infos0. by intros ->.
    * intros y Hy. apply fo_ghosts0. by intros ->.
    * intros k y Hk. apply fo_cache0 in Hk as [->|Hk]; auto.
    * by intros [] ????.
Qed.

(** ** The loop ends *)

(** An object that is scheduled to be added may be flushed twice. *)
Definition flush_weight (w : World) (x : Obj) : nat :=
  if decide (oi_pending (lookup_info (infos w) x) = Some PENDING_ADD)
  then 2 else 1.

Definition flush_measure (w : World) : nat :=
  sum_list (flush_weight w <$> _dirty (self w)).

Lemma sum_list_dirty_remove (f g : Obj → nat) x d :
  (∀ y, y ≠ x → f y = g y) → x ∈ d →
  sum_list (f <$> dirty_remove x d) + g x ≤ sum_list (g <$> d).
Proof.
  intros Hfg. unfold dirty_remove.
  assert (Hle : ∀ l, sum_list (f <$> filter (λ o, o ≠ x) l) ≤ sum_list (g <$> l)).
  { induction l as [|y l IH]; [done|].
    destruct (decide (y ≠ x)).
    - rewrite filter_cons_True by done. cbn. rewrite Hfg by done. lia.
    - rewrite filter_cons_False by done. cbn. lia. }
  induction d as [|y d IH]; intros Hx; [by apply elem_of_nil in Hx|].
  destruct (decide (y = x)) as [->|Hne].
  - rewrite filter_cons_False by (intros ?; done). specialize (Hle d). cbn. lia.
  - rewrite filter_cons_True by done. cbn. rewrite Hfg by done.
    apply elem_of_cons in Hx as [?|Hx]; [done|]. specialize (IH Hx). lia.
Qed.

Lemma flush_measure_bound w : flush_measure w ≤ 2 * length (_dirty (self w)).
Proof.
  unfold flush_measure. induction (_dirty (self w)) as [|x d IH]; cbn; [done|].
  unfold flush_weight at 1. case_decide; lia.
Qed.

Lemma flush_measure_step x w w' :
  x ∈ _dirty (self w) →
  flushed_one x w (Return tt) w' →
  flush_measure w' < flush_measure w.
Proof.
  intros Hx []. unfold flush_measure.
  assert (Hw : ∀ y, y ≠ x → flush_weight w' y = flush_weight w y).
  { intros y Hy. unfold flush_weight, lookup_info. by rewrite fo_infos0. }
  pose proof (sum_list_dirty_remove _ _ x _ Hw Hx) as Hle.
  destruct fo_dirty0 as [->|[Hadd ->]].
  - assert (1 ≤ flush_weight w x) by (unfold flush_weight; case_decide; lia).
    lia.
  - rewrite fmap_app, sum_list_with_app. cbn.
    assert (flush_weight w x = 2) as Hwx
      by (unfold flush_weight; by rewrite decide_True).
    assert (flush_weight w' x = 1) as ->
      by (unfold flush_weight; rewrite decide_False; [done|congruence]).
    lia.
Qed.

Lemma flush_exn_not_diverges e : flush_exn e → e ≠ Diverges.
Proof. by intros He ->. Qed.

Lemma flush_loop_terminates predecessors fuel w :
  flush_measure w ≤ fuel →
  fst (flush_loop predecessors fuel w) ≠ Raise Diverges.
Proof.
  revert w. induction fuel as [|fuel IH]; intros w Hfuel;
    rewrite flush_loop_unfold; case_decide as Hd; try done.
  - exfalso. unfold flush_measure in Hfuel.
    destruct (_dirty (self w)) as [|x d]; [done|]. cbn in Hfuel.
    unfold flush_weight in Hfuel at 1. case_decide; lia.
  - destruct (list_find _ _) as [[n x]|] eqn:Hfind; [|done].
    apply list_find_Some in Hfind as (Hnx & _ & _).
    assert (Hx : x ∈ _dirty (self w)) by (by eapply list_elem_of_lookup_2).
    pose proof (_flush_one_spec x w Hx) as Hone.
    unfold bind. destruct (_flush_one x w) as [[[]|e] w1]; cbn in Hone.
    + apply IH. apply flush_measure_step in Hone; [lia|done].
    + cbn. destruct Hone. destruct fo_flushed0 as [_ He].
      intros [= ->]. done.
Qed.

(** ** flush *)

(** [flush] is the loop, run on the predecessor map of the order table
    with enough fuel, followed by the clearing of the table. *)
Lemma flush_unfold w :
  flush w
  = match flush_loop (build_predecessors (_order (self w)))
                     (2 * length (_dirty (self w))) w with
    | (Return _, w') => (Return tt, set_self (set_order ∅ (self w')) w')
    | (Raise e, w') => (Raise e, w')
    end.
Proof.
  unfold flush, bind, gets, modify_store, modify.
  by destruct (flush_loop _ _ w) as [[[]|e] w'].
Qed.

(** The loop of [flush] never runs out of fuel. *)
Lemma flush_terminates w : fst (flush w) ≠ Raise Diverges.
Proof.
  rewrite flush_unfold.
  pose proof (flush_loop_terminates (build_predecessors (_order (self w)))
                (2 * length (_dirty (self w))) w (flush_measure_bound w)) as H.
  by destruct (flush_loop _ _ w) as [[[]|e] w'].
Qed.

Lemma flush_run_of_flush w :
  ∃ w1 fl,
    flush_run (build_predecessors (_order (self w))) w (fst (flush w)) w1 fl ∧
    fst (flush w) ≠ Raise Diverges ∧
    snd (flush w)
    = match fst (flush w) with
      | Return _ => set_self (set_order ∅ (self w1)) w1
      | Raise _ => w1
      end.
Proof.
  pose proof (flush_terminates w) as Hterm. revert Hterm.
  rewrite flush_unfold.
  destruct (flush_loop_run (build_predecessors (_order (self w)))
              (2 * length (_dirty (self w))) w) as [fl Hrun].
  destruct (flush_loop _ _ w) as [[[]|e] w1]; cbn in *; eauto.
Qed.

(** A flush that returns leaves nothing dirty and an empty order table. *)
Lemma flush_returns_clean w :
  fst (flush w) = Return tt →
  _dirty (self (snd (flush w))) = [] ∧ _order (self (snd (flush w))) = ∅.
Proof.
  destruct (flush_run_of_flush w) as (w1 & fl & Hrun & _ & ->).
  intros Hret. rewrite Hret in Hrun |- *. cbn.
  split; [|done]. by destruct Hrun as [_ _ _ _ _ _ _ _ _ _ _ [? _]].
Qed.

(** What a flush raises is the ordering-loop error or the error of a
    statement. *)
Lemma flush_raises w e :
  fst (flush w) = Raise e →
  e = StoreError cant_flush_ordering_loop ∨ flush_exn e.
Proof.
  destruct (flush_run_of_flush w) as (w1 & fl & Hrun & Hterm & _).
  intros He. rewrite He in Hrun, Hterm.
  destruct Hrun as [_ _ _ _ _ _ _ _ _ _ _ [?|[->|[-> _]]]]; auto. done.
Qed.

(** ** The constraints of the order table *)

(** A pair of the order table constrains the flush when its count is
    positive. *)
Definition constraint (w : World) (before after : Obj) : Prop :=
  ∃ n, _order (self w) !! (before, after) = Some n ∧ (0 < n)%Z.



Lemma elem_of_foldr_add_predecessor (l : list (Obj * Obj * Z)) before after :
  before ∈ default ∅ (foldr add_predecessor ∅ l !! after)
  ↔ ∃ n, (before, after, n) ∈ l ∧ (0 < n)%Z.
Proof.
  induction l as [|[[b a] n] l IH]; cbn.
  - rewrite lookup_empty. cbn. split; [set_solver|].
    by intros (n & Hn%elem_of_nil & _).
  - set (m := foldr add_predecessor ∅ l) in *.
    assert (Hcons : (∃ n', (before, after, n') ∈ (b, a, n) :: l ∧ (0 < n')%Z)
                    ↔ (b = before ∧ a = after ∧ (0 < n)%Z)
                      ∨ ∃ n', (before, after, n') ∈ l ∧ (0 < n')%Z).
    { split.
      - intros (n' & [Heq|Hin]%elem_of_cons & Hpos); [left|right; eauto].
        by simplify_eq.
      - intros [(-> & -> & Hpos)|(n' & Hin & Hpos)].
        + exists n. split; [left|done].
        + exists n'. split; [by right|done]. }
    rewrite Hcons, <- IH. clear Hcons IH.
    case_decide as Hn; [|naive_solver].
    destruct (m !! a) as [s|] eqn:Ha.
    + destruct (decide (a = after)) as [->|Hne].
      * rewrite lookup_insert_eq, Ha. cbn. set_solver.
      * rewrite lookup_insert_ne by done. naive_solver.
    + destruct (decide (a = after)) as [->|Hne].
      * rewrite lookup_insert_eq, Ha. cbn. set_solver.
      * rewrite lookup_insert_ne by done. naive_solver.
Qed.

(** Only the pairs with a positive count are in the predecessor map. *)
Lemma elem_of_build_predecessors w before after :
  before ∈ default ∅ (build_predecessors (_order (self w)) !! after)
  ↔ constraint w before after.
Proof.
  unfold build_predecessors, constraint.
  rewrite elem_of_foldr_add_predecessor.
  by setoid_rewrite elem_of_map_to_list.
Qed.









(* ===================================================================== *)
(** * Runs of the store on concrete worlds *)
(* ===================================================================== *)

(** A class [Foo] with the table [foo (id, title)] keyed by [id], as in
    the tests of the store. *)
Definition Foo : ClsInfo := mkClsInfo "Foo" "foo" ["id"; "title"] ["id"].

Definition foo (n : positive) : Obj := mkObj n Foo.

(** An empty store over a connection that answers as [responses] say. *)
Definition new_world (responses : list Response) : World :=
  mkWorld (mkStore 1 (mkConnection responses [] 0) ∅ ∅ [] ∅) ∅ 100 [].

(** [obj.id = id; obj.title = title]. *)
Definition set_fields (obj : Obj) (id : Z) (title : string) : M unit :=
  set_value obj "id" (Some (VInt id)) ;;
  set_value obj "title" (Some (VStr title)).

Definition after {A} (m : M A) (w : World) : World := snd (m w).

(** Three new objects, all added. *)
Definition three_added : World :=
  after (set_fields (foo 1) 10 "a" ;; set_fields (foo 2) 20 "b" ;;
         set_fields (foo 3) 30 "c" ;;
         add (foo 1) ;; add (foo 2) ;; add (foo 3)) (new_world []).

(** [foo 3] before [foo 2] before [foo 1]. *)
Definition three_in_line : World :=
  after (add_flush_order (foo 3) (foo 2) ;; add_flush_order (foo 2) (foo 1))
        three_added.

(** [foo 2] and [foo 3] wait for each other; [foo 1] is free. *)
Definition two_in_circle : World :=
  after (add_flush_order (foo 2) (foo 3) ;; add_flush_order (foo 3) (foo 2))
        three_added.

Ltac decide_by_computation :=
  match goal with
  | |- ?P => apply (bool_decide_unpack P); vm_compute; exact I
  end.





(* ===================================================================== *)
(** * The order table *)
(* ===================================================================== *)

(** A call of [add_flush_order] or of [remove_flush_order]. *)
Inductive OrderCall := AddOrder | RemoveOrder.

Definition order_call (before after : Obj) (c : OrderCall) : M unit :=
  match c with
  | AddOrder => add_flush_order before after
  | RemoveOrder => remove_flush_order before after
  end.

(** The count of a pair; a pair without entry counts zero. *)
Definition order_count (w : World) (pair : Obj * Obj) : Z :=
  default 0%Z (_order (self w) !! pair).

(** The number of [add] calls minus the number of [remove] calls. *)
Fixpoint net_calls (calls : list OrderCall) : Z :=
  match calls with
  | [] => 0
  | AddOrder :: calls' => 1 + net_calls calls'
  | RemoveOrder :: calls' => net_calls calls' - 1
  end.

Lemma order_calls_count before after calls w :
  is_Some (_order (self w) !! (before, after)) →
  is_Some (_order (self (snd (for_each calls (order_call before after) w)))
             !! (before, after)) ∧
  order_count (snd (for_each calls (order_call before after) w)) (before, after)
  = (order_count w (before, after) + net_calls calls)%Z.
Proof.
  revert w. induction calls as [|c calls IH]; intros w [n Hn].
  - cbn. split; [by exists n|lia].
  - cbn [for_each]. unfold bind.
    destruct c; unfold order_call at 1, order_call at 2;
      unfold add_flush_order, remove_flush_order, modify_store, modify;
      cbn [fst snd]; rewrite Hn.
    + match goal with
      | |- context [for_each calls _ ?w1] => destruct (IH w1) as [IH1 IH2]
      end.
      { cbn. rewrite lookup_insert_eq. by eexists. }
      split; [done|]. rewrite IH2. unfold order_count. cbn.
      rewrite lookup_insert_eq, Hn. cbn. lia.
    + match goal with
      | |- context [for_each calls _ ?w1] => destruct (IH w1) as [IH1 IH2]
      end.
      { cbn. rewrite lookup_insert_eq. by eexists. }
      split; [done|]. rewrite IH2. unfold order_count. cbn.
      rewrite lookup_insert_eq, Hn. cbn. lia.
Qed.

(** C6 (as amended).  [add_flush_order] increments the count of the
    pair (a pair without entry gets the count one); [remove_flush_order]
    decrements the count of a pair that has an entry and does nothing
    for a pair that has none.  So the calls for a pair add up, and equal
    numbers of them cancel, when the pair has an entry or the first call
    is an [add].  In [flush] exactly the pairs with a positive count are
    constraints, and when [flush] returns the table is empty. *)
Theorem flush_order_counts (w : World) (before after : Obj) :
  _order (self (snd (add_flush_order before after w)))
  = <[(before, after) := (order_count w (before, after) + 1)%Z]>
      (_order (self w)) ∧
  (∀ n, _order (self w) !! (before, after) = Some n →
        _order (self (snd (remove_flush_order before after w)))
        = <[(before, after) := (n - 1)%Z]> (_order (self w))) ∧
  (_order (self w) !! (before, after) = None →
   _order (self (snd (remove_flush_order before after w))) = _order (self w)) ∧
  (∀ calls,
     is_Some (_order (self w) !! (before, after)) ∨ head calls = Some AddOrder →
     order_count (snd (for_each calls (order_call before after) w))
                 (before, after)
     = (order_count w (before, after) + net_calls calls)%Z) ∧
  (before ∈ default ∅ (build_predecessors (_order (self w)) !! after)
   ↔ (0 < order_count w (before, after))%Z) ∧
  (fst (flush w) = Return tt → _order (self (snd (flush w))) = ∅).
Proof.
  split_and!.
  - unfold add_flush_order, modify_store, modify, order_count. cbn.
    by destruct (_order (self w) !! (before, after)).
  - intros n Hn. unfold remove_flush_order, modify_store, modify. cbn.
    by rewrite Hn.
  - intros Hn. unfold remove_flush_order, modify_store, modify. cbn.
    by rewrite Hn.
  - intros calls [Hsome|Hhead].
    + by apply order_calls_count.
    + destruct calls as [|[] calls]; try done. cbn [for_each]. unfold bind.
      unfold order_call at 1.
      unfold add_flush_order, modify_store, modify. cbn [fst snd].
      match goal with
      | |- context [for_each calls _ ?w1] =>
          destruct (order_calls_count before after calls w1) as [_ ->]
      end.
      { cbn. destruct (_order (self w) !! (before, after));
          rewrite lookup_insert_eq; by eexists. }
      unfold order_count. cbn.
      destruct (_order (self w) !! (before, after));
        rewrite lookup_insert_eq; cbn; lia.
  - rewrite elem_of_build_predecessors. unfold constraint, order_count.
    destruct (_order (self w) !! (before, after)) as [n|]; cbn.
    + split; [by intros (? & [= <-] & ?)|eauto].
    + split; [by intros (? & [=] & ?)|lia].
  - destruct (flush_run_of_flush w) as (w1 & fl & _ & _ & ->).
    by intros ->.
Qed.

(** Two adds and two removes, in the order add, remove, remove, add,
    cancel; the first call is an add. *)
Lemma flush_order_counts_witness :
  order_count
    (after (for_each [AddOrder; RemoveOrder; RemoveOrder; AddOrder]
                     (order_call (foo 1) (foo 2))) (new_world []))
    (foo 1, foo 2)
  = order_count (new_world []) (foo 1, foo 2) ∧
  _order (self (snd (flush three_in_line))) = ∅.
Proof.
  destruct (flush_order_counts (new_world []) (foo 1) (foo 2))
    as (_ & _ & _ & Hcalls & _ & _).
  destruct (flush_order_counts three_in_line (foo 1) (foo 2))
    as (_ & _ & _ & _ & _ & Hflush).
  split.
  - unfold after. rewrite Hcalls; [cbn; lia|by right].
  - apply Hflush. vm_compute. reflexivity.
Defined.

(** C6, the claim as stated fails: one [remove_flush_order] and then one
    [add_flush_order] for a pair without entry do not cancel.  The pair
    is left with the count one, and the next flush obeys it: [foo 1]
    is flushed last instead of first. *)
Lemma flush_order_cancel_counterexample :
  let calls := remove_flush_order (foo 3) (foo 1) ;;
               add_flush_order (foo 3) (foo 1) in
  order_count three_added (foo 3, foo 1) = 0%Z ∧
  order_count (after calls three_added) (foo 3, foo 1) = 1%Z ∧
  flushed (snd (flush three_added)) = [foo 1; foo 2; foo 3] ∧
  flushed (snd (flush (after calls three_added))) = [foo 2; foo 3; foo 1].
Proof. vm_compute. by repeat split. Qed.

(* ===================================================================== *)
(** * get *)
(* ===================================================================== *)

Definition key_of_arg (key : KeyArg) : Key :=
  match key with
  | KeyTuple k => k
  | KeyScalar v => [v]
  end.

(** What [get] does once the key has passed the assertion. *)
Definition get_lookup (cls_info : ClsInfo) (key : Key) : M (option Obj) :=
  cached <- gets (λ w, _cache (self w) !! (cls_info, key)) ;;
  match cached with
  | Some obj => ret (Some obj)
  | None =>
      result <- execute (Select (columns cls_info)
                                (compare_columns (primary_key cls_info) key)
                                (Some (table cls_info)) (Some 1)) ;;
      match fst result with
      | None => ret None
      | Some values =>
          obj <- _load_object cls_info values ;;
          ret (Some obj)
      end
  end.

Lemma get_unfold cls_info key w :
  get cls_info key w
  = match flush w with
    | (Return _, w') =>
        if bool_decide (length (key_of_arg key) = length (primary_key cls_info))
        then get_lookup cls_info (key_of_arg key) w'
        else (Raise AssertionError, w')
    | (Raise e, w') => (Raise e, w')
    end.
Proof.
  unfold get. unfold bind at 1. destruct (flush w) as [[[]|e] w']; [|done].
  fold (key_of_arg key). by destruct (bool_decide _).
Qed.

Lemma respects_mono {A} (R R' : relation World) (E E' : Exn → Prop) (m : M A) :
  (∀ w w', R w w' → R' w w') → (∀ e, E e → E' e) →
  respects R E m → respects R' E' m.
Proof. intros HR HE Hm w. destruct (Hm w). split; auto. Qed.

(** The exceptions of [_load_object]. *)
Definition load_exn (e : Exn) : Prop :=
  match e with
  | KeyError | TypeError | IndexError => True
  | _ => False
  end.

Definition any_world : relation World := λ _ _, True.

#[global] Instance any_world_preorder : PreOrder any_world.
Proof. by split. Qed.

Lemma values_at_exn values positions :
  respects any_world load_exn (values_at values positions).
Proof.
  induction positions as [|i positions IH]; cbn.
  - apply respects_ret; apply _.
  - destruct (values !! i).
    + apply respects_bind; [apply _|done|]. intros ?. apply respects_ret; apply _.
    + by apply respects_raise; [apply _|].
Qed.

Lemma _load_object_exn cls_info values :
  respects any_world load_exn (_load_object cls_info values).
Proof.
  unfold _load_object.
  apply respects_bind; [apply _|apply values_at_exn|intros pv].
  apply respects_bind; [apply _|apply respects_gets; apply _|intros [obj|]].
  { apply respects_ret; apply _. }
  apply respects_bind; [apply _| |intros obj].
  { intros w. by split. }
  apply respects_bind; [apply _|apply respects_gets; apply _|intros me].
  apply respects_bind; [apply _| |intros _].
  { apply respects_modify; try apply _; done. }
  apply respects_bind; [apply _| |intros _].
  { eapply respects_mono; [| |by apply (frame_set_values obj load_exn)]; done. }
  apply respects_bind; [apply _| |intros _].
  { apply respects_modify; try apply _; done. }
  apply respects_bind; [apply _| |intros _].
  { eapply respects_mono; [| |by apply (frame_add_to_cache true obj load_exn)];
      done. }
  apply respects_bind; [apply _| |intros _].
  { apply respects_modify; try apply _; done. }
  apply respects_ret; apply _.
Qed.

(** C9.  [get] takes a key that is not a tuple as the tuple of that one
    value.  With a key whose length is not the number of primary-key
    columns, [get] raises what its [flush] raises and otherwise fails
    the assertion, with [AssertionError], which is no [StoreError]; with
    a key of the right length [get] never raises [AssertionError]. *)
Theorem get_key_assertion (w : World) (cls_info : ClsInfo) :
  (∀ v, get cls_info (KeyScalar v) w = get cls_info (KeyTuple [v]) w) ∧
  (∀ key,
     length (key_of_arg key) ≠ length (primary_key cls_info) →
     get cls_info key w
     = match flush w with
       | (Return _, w') => (Raise AssertionError, w')
       | (Raise e, w') => (Raise e, w')
       end) ∧
  (∀ m, AssertionError ≠ StoreError m) ∧
  (∀ key,
     length (key_of_arg key) = length (primary_key cls_info) →
     fst (get cls_info key w) ≠ Raise AssertionError).
Proof.
  split_and!.
  - intros v. by rewrite !get_unfold.
  - intros key Hlen. rewrite get_unfold.
    by rewrite bool_decide_eq_false_2 by done.
  - done.
  - intros key Hlen. rewrite get_unfold.
    pose proof (flush_raises w) as Hout.
    destruct (flush w) as [[[]|e] w']; cbn in *.
    2:{ intros [= ->]. by destruct (Hout _ eq_refl). }
    rewrite bool_decide_eq_true_2 by done.
    unfold get_lookup, bind, gets.
    destruct (_cache (self w') !! _); [done|].
    assert (Hbackend : ∀ c, (λ e, ∃ c', e = BackendError c') (BackendError c))
      by eauto.
    destruct (frame_execute false (mkObj 1 cls_info) _
                (Select (columns cls_info)
                        (compare_columns (primary_key cls_info) (key_of_arg key))
                        (Some (table cls_info)) (Some 1))
                Hbackend w') as [_ Hex].
    destruct (execute _ w') as [[[one rowid]|e] w1]; cbn in *.
    2:{ intros [= ->]. by destruct (Hex _ eq_refl). }
    destruct one as [values|]; [|done].
    destruct (_load_object_exn cls_info values w1) as [_ Hload].
    destruct (_load_object cls_info values w1) as [[obj|e] w2]; [done|].
    cbn in *. intros [= ->]. by apply (Hload AssertionError).
Qed.

(** A scalar key for [Foo], and tuples that are too long or too short. *)
Lemma get_key_assertion_witness :
  fst (get Foo (KeyTuple [VInt 10; VInt 11]) three_in_line) = Raise AssertionError ∧
  fst (get Foo (KeyTuple []) two_in_circle)
  = Raise (StoreError cant_flush_ordering_loop) ∧
  fst (get Foo (KeyScalar (VInt 10)) three_in_line) ≠ Raise AssertionError ∧
  fst (get Foo (KeyScalar (VInt 10)) three_in_line) = Return (Some (foo 1)).
Proof.
  destruct (get_key_assertion three_in_line Foo) as (_ & Hbad & _ & Hgood).
  destruct (get_key_assertion two_in_circle Foo) as (_ & Hbad' & _ & _).
  split_and!.
  - rewrite Hbad by (cbn; lia). vm_compute. reflexivity.
  - rewrite Hbad' by (cbn; lia). vm_compute. reflexivity.
  - apply Hgood. reflexivity.
  - vm_compute. reflexivity.
Defined.

(* ===================================================================== *)
(** * The identity cache across a flush *)
(* ===================================================================== *)

(** ** Invariants of the flush loop *)

(** A property that every successful [_flush_one] of a dirty object
    keeps holds after a flush that returns. *)
Lemma flush_loop_invariant (I : World → Prop) predecessors fuel w :
  (∀ w x, I w → x ∈ _dirty (self w) →
          fst (_flush_one x w) = Return tt → I (snd (_flush_one x w))) →
  I w →
  fst (flush_loop predecessors fuel w) = Return tt →
  I (snd (flush_loop predecessors fuel w)).
Proof.
  intros Hstep. revert w. induction fuel as [|fuel IH]; intros w HI;
    rewrite flush_loop_unfold; case_decide as Hd; try done.
  destruct (list_find _ _) as [[n x]|] eqn:Hfind; [|done].
  apply list_find_Some in Hfind as (Hnx & _ & _).
  assert (Hx : x ∈ _dirty (self w)) by (by eapply list_elem_of_lookup_2).
  specialize (Hstep w x HI Hx). unfold bind.
  destruct (_flush_one x w) as [[[]|e] w1]; [|done]. cbn in *. auto.
Qed.

Lemma flush_invariant (I : World → Prop) w :
  (∀ w x, I w → x ∈ _dirty (self w) →
          fst (_flush_one x w) = Return tt → I (snd (_flush_one x w))) →
  (∀ w, I w → I (set_self (set_order ∅ (self w)) w)) →
  I w →
  fst (flush w) = Return tt →
  I (snd (flush w)).
Proof.
  intros Hstep Hclear HI. rewrite flush_unfold.
  pose proof (flush_loop_invariant I (build_predecessors (_order (self w)))
                (2 * length (_dirty (self w))) w Hstep HI) as Hloop.
  destruct (flush_loop _ _ w) as [[[]|e] w1]; [|done]. cbn in *. auto.
Qed.

(** ** Steps that only write values *)

(** What filling in values may change: the values of [obj], the dirty
    set by putting [obj] into it, and the connection. *)
Record touch (obj : Obj) (w w' : World) : Prop := mkTouch {
  touch_frame : frame true obj w w';
  touch_cache : _cache (self w') = _cache (self w);
  touch_ghosts : _ghosts (self w') = _ghosts (self w);
  touch_info :
    ∃ values, lookup_info (infos w') obj
              = set_oi_values values (lookup_info (infos w) obj);
}.

Lemma set_oi_values_id i : set_oi_values (oi_values i) i = i.
Proof. by destruct i. Qed.

#[global] Instance touch_preorder obj : PreOrder (touch obj).
Proof.
  split.
  - intros w. split; [reflexivity|done..|].
    exists (oi_values (lookup_info (infos w) obj)). by rewrite set_oi_values_id.
  - intros w1 w2 w3 [H1 Hc1 Hg1 [v1 Hi1]] [H2 Hc2 Hg2 [v2 Hi2]].
    split; [by etrans|congruence..|].
    exists v2. by rewrite Hi2, Hi1.
Qed.





(** ** The steps of flushing one object, in detail *)

(** The world in which the action of [_flush_one] starts: the object
    is out of the dirty set and has no pending flag. *)
Definition popped (obj : Obj) (w : World) : World :=
  mkWorld (set_dirty (dirty_remove obj (_dirty (self w))) (self w))
          (<[obj := set_oi_pending None (lookup_info (infos w) obj)]> (infos w))
          (next_id w) (flushed w).

Lemma _flush_one_dirty obj w :
  obj ∈ _dirty (self w) →
  _flush_one obj w
  = (flush_action obj (lookup_info (infos w) obj) ;; emit_flushed obj)
      (popped obj w).
Proof.
  intros Hd. rewrite _flush_one_unfold.
  unfold _is_dirty, _set_clean, get_obj_info, update_info,
    modify_store, modify, gets, bind. cbn.
  by rewrite bool_decide_eq_true_2 by done.
Qed.

Lemma bind_assoc {A B C} (m : M A) (f : A → M B) (g : B → M C) w :
  bind (bind m f) g w = bind m (λ a, bind (f a) g) w.
Proof. unfold bind. by destruct (m w) as [[a|e] w1]. Qed.

(** The primary-key values that an object holds now. *)
Definition key_of (w : World) (obj : Obj) : Key :=
  get_value (lookup_info (infos w) obj) <$> primary_key (obj_class obj).

(** The world after [_add_to_cache] has moved the entry of [obj]. *)
Definition recached (obj : Obj) (cache : gmap (ClsInfo * Key) Obj) (w : World)
    : World :=
  mkWorld (set_cache (<[(obj_class obj, key_of w obj) := obj]> cache) (self w))
          (<[obj := set_oi_primary_values (Some (key_of w obj))
                      (lookup_info (infos w) obj)]> (infos w))
          (next_id w) (flushed w).

Lemma _add_to_cache_eq obj w :
  _add_to_cache obj w
  = if decide (Some (key_of w obj)
               = oi_primary_values (lookup_info (infos w) obj))
    then (Return tt, w)
    else match oi_primary_values (lookup_info (infos w) obj) with
         | Some old =>
             match _cache (self w) !! (obj_class obj, old) with
             | Some _ =>
                 (Return tt,
                  recached obj (delete (obj_class obj, old) (_cache (self w))) w)
             | None => (Raise KeyError, w)
             end
         | None => (Return tt, recached obj (_cache (self w)) w)
         end.
Proof.
  unfold _add_to_cache, cache_del, key_of, recached. unfold_monad. cbn.
  case_decide; [done|].
  destruct (oi_primary_values _) as [old|]; [|done].
  by destruct (_cache (self w) !! (obj_class obj, old)).
Qed.

Lemma _remove_from_cache_eq obj w :
  _remove_from_cache obj w
  = match oi_primary_values (lookup_info (infos w) obj) with
    | Some old =>
        match _cache (self w) !! (obj_class obj, old) with
        | Some _ =>
            (Return tt,
             mkWorld (set_cache (delete (obj_class obj, old) (_cache (self w)))
                                (self w))
                     (<[obj := set_oi_primary_values None
                                 (lookup_info (infos w) obj)]> (infos w))
                     (next_id w) (flushed w))
        | None => (Raise KeyError, w)
        end
    | None => (Return tt, w)
    end.
Proof.
  unfold _remove_from_cache, cache_del. unfold_monad. cbn.
  destruct (oi_primary_values _) as [old|]; [|done].
  by destruct (_cache (self w) !! (obj_class obj, old)).
Qed.


(** An object that the cache holds under the key it has now. *)
Definition cached (w : World) (obj : Obj) : Prop :=
  oi_primary_values (lookup_info (infos w) obj) = Some (key_of w obj) ∧
  _cache (self w) !! (obj_class obj, key_of w obj) = Some obj.


Arguments execute : simpl never.
Arguments _flush_one : simpl never.
Arguments flush_loop : simpl never.
Arguments flush : simpl never.
Arguments _add_to_cache : simpl never.
Arguments _remove_from_cache : simpl never.
Arguments _set_values : simpl never.
Arguments _fill_missing_values : simpl never.

Lemma flush_remove_spec obj w w' :
  flush_remove obj w = (Return tt, w') →
  ∃ old,
    oi_primary_values (lookup_info (infos w) obj) = Some old ∧
    is_Some (_cache (self w) !! (obj_class obj, old)) ∧
    _cache (self w') = delete (obj_class obj, old) (_cache (self w)) ∧
    _ghosts (self w') = {[obj]} ∪ _ghosts (self w) ∧
    _dirty (self w') = _dirty (self w) ∧
    lookup_info (infos w') obj
    = set_oi_primary_values None
        (set_oi_changed_hook false (lookup_info (infos w) obj)) ∧
    executed (_connection (self w'))
    = executed (_connection (self w))
      ++ [Delete (compare_columns (primary_key (obj_class obj)) old)
                 (table (obj_class obj))].
Proof.
  unfold flush_remove, primary_values_of. unfold_monad. cbn.
  destruct (oi_primary_values (lookup_info (infos w) obj)) as [old|] eqn:Hpv;
    cbn; [|done].
  unfold execute. destruct (next_response _) as [[c|one rowid] rs]; cbn; [done|].
  rewrite _remove_from_cache_eq. cbn.
  rewrite lookup_info_insert_eq. cbn. rewrite Hpv.
  destruct (_cache (self w) !! (obj_class obj, old)) eqn:Hc; [|done].
  intros [= <-]. exists old. cbn. rewrite lookup_info_insert_eq.
  split_and!; try done; by eexists.
Qed.





Arguments key_of : simpl never.

Lemma key_of_eq w w' obj :
  oi_values (info_of w obj) = oi_values (info_of w' obj) →
  key_of w obj = key_of w' obj.
Proof.
  intros Hv. unfold key_of. apply list_fmap_ext. intros _ name _.
  unfold get_value. by rewrite Hv.
Qed.



Lemma emit_flushed_eq obj w :
  emit_flushed obj w = (Return tt, set_flushed (flushed w ++ [obj]) w).
Proof. done. Qed.


(** ** The cache entry of an added object survives the rest of the flush *)




(** A flush with nothing dirty and an empty order table does nothing. *)
Lemma flush_clean w :
  _dirty (self w) = [] → _order (self w) = ∅ → flush w = (Return tt, w).
Proof.
  intros Hd Ho. rewrite flush_unfold, flush_loop_unfold.
  rewrite decide_True by done. f_equal.
  destruct w as [[] ? ? ?]. cbn in *. by subst.
Qed.



(** A method that returns, with the world it leaves. *)
Lemma returns_eq {A} (m : M A) (w : World) (a : A) :
  fst (m w) = Return a → m w = (Return a, after m w).
Proof. unfold after. destruct (m w) as [r v]. cbn. by intros ->. Qed.

(** The three objects were flushed, and [foo 1] is to be removed. *)
Definition one_to_remove : World :=
  after (flush ;; remove (foo 1)) three_in_line.

(** The removal was flushed: [foo 1] is a ghost. *)
Definition one_removed : World := after flush one_to_remove.








(* ===================================================================== *)
(** * Ghosts *)
(* ===================================================================== *)

(** The object was made by [object.__new__] before: its identity is in
    use. *)
Definition allocated (w : World) (o : Obj) : Prop :=
  (obj_id o < next_id w)%positive.

(** The cache holds the object only under the key that its state
    records. *)
Definition cached_only_at_key (w : World) (o : Obj) : Prop :=
  ∀ k, _cache (self w) !! k = Some o →
       ∃ pv, oi_primary_values (info_of w o) = Some pv ∧ k = (obj_class o, pv).

(** A ghost that is clean and of which the cache knows nothing. *)
Definition ghost_uncached (w : World) (o : Obj) : Prop :=
  o ∈ _ghosts (self w) ∧
  o ∉ _dirty (self w) ∧
  (∀ k, _cache (self w) !! k ≠ Some o) ∧
  allocated w o.

(** What the steps on one object leave to the others. *)
Record apart (obj : Obj) (w w' : World) : Prop := mkApart {
  apart_next_id : (next_id w ≤ next_id w')%positive;
  apart_dirty : ∀ x, x ≠ obj → x ∈ _dirty (self w') ↔ x ∈ _dirty (self w);
  apart_ghosts : ∀ x, x ≠ obj → x ∈ _ghosts (self w') ↔ x ∈ _ghosts (self w);
  apart_cache :
    ∀ k x, _cache (self w') !! k = Some x →
           x = obj ∨ _cache (self w) !! k = Some x;
}.

#[global] Instance apart_preorder obj : PreOrder (apart obj).
Proof.
  split.
  - intros w. split; auto. lia.
  - intros w1 w2 w3 [] []. split.
    + lia.
    + intros x Hx. by rewrite apart_dirty1, apart_dirty0.
    + intros x Hx. by rewrite apart_ghosts1, apart_ghosts0.
    + intros k x Hk. apply apart_cache1 in Hk as [?|Hk]; auto.
Qed.

Lemma frame_apart redirty obj w w' : frame redirty obj w w' → apart obj w w'.
Proof.
  intros []. split; auto.
  - rewrite frame_next_id0. lia.
  - intros x Hx. destruct frame_dirty0 as [->|[_ ->]]; [done|].
    rewrite elem_of_dirty_insert. naive_solver.
Qed.

Lemma flushed_one_apart obj w r w' : flushed_one obj w r w' → apart obj w w'.
Proof.
  intros []. split; auto.
  - rewrite fo_next_id0. lia.
  - intros x Hx. destruct fo_dirty0 as [->|[_ ->]];
      rewrite ?elem_of_app, elem_of_dirty_remove, ?list_elem_of_singleton;
      naive_solver.
Qed.

Lemma ghost_uncached_apart obj o w w' :
  obj ≠ o → apart obj w w' → ghost_uncached w o → ghost_uncached w' o.
Proof.
  intros Hne [] (Hg & Hd & Hc & Ha). split_and!.
  - by apply apart_ghosts0.
  - by rewrite apart_dirty0.
  - intros k Hk. apply apart_cache0 in Hk as [?|Hk]; [done|]. by apply (Hc k).
  - unfold allocated in *. lia.
Qed.

(** Flushing makes a ghost of an object that is scheduled to be removed,
    and takes its entry out of the cache. *)
Lemma _flush_one_remove_ghost o w w1 :
  o ∈ _dirty (self w) →
  oi_pending (info_of w o) = Some PENDING_REMOVE →
  cached_only_at_key w o →
  allocated w o →
  _flush_one o w = (Return tt, w1) →
  ghost_uncached w1 o.
Proof.
  intros Hd Hp Hcached Halloc Hrun.
  pose proof (_flush_one_spec o w Hd) as Hspec. rewrite Hrun in Hspec.
  destruct Hspec as [_ _ Hnext _ _ _ _ Hdirty _ _ _]. cbn [fst snd] in *.
  rewrite _flush_one_dirty in Hrun by done. unfold bind in Hrun.
  unfold flush_action in Hrun. rewrite Hp in Hrun.
  destruct (flush_remove o (popped o w)) as [[[]|e] wa] eqn:Hact; [|done].
  rewrite emit_flushed_eq in Hrun. injection Hrun as <-.
  apply flush_remove_spec in Hact as (old & Hpv & _ & Hcache & Hghosts & _).
  unfold popped in Hpv. cbn in Hpv. rewrite lookup_info_insert_eq in Hpv.
  cbn in Hpv. split_and!.
  - cbn. rewrite Hghosts. set_solver.
  - destruct Hdirty as [->|[? _]]; [|congruence].
    rewrite elem_of_dirty_remove. tauto.
  - intros k Hk. cbn in Hk. rewrite Hcache in Hk. cbn in Hk.
    apply lookup_delete_Some in Hk as [Hne Hk].
    destruct (Hcached k Hk) as (pv & Hpv' & ->). congruence.
  - unfold allocated in *. by rewrite Hnext.
Qed.

Lemma flush_makes_ghost o w :
  o ∈ _dirty (self w) →
  oi_pending (info_of w o) = Some PENDING_REMOVE →
  cached_only_at_key w o →
  allocated w o →
  fst (flush w) = Return tt →
  ghost_uncached (snd (flush w)) o.
Proof.
  intros Hd Hp Hcached Halloc Hret.
  pose proof (flush_invariant
    (λ v, (o ∈ _dirty (self v) ∧
           oi_pending (info_of v o) = Some PENDING_REMOVE ∧
           cached_only_at_key v o ∧ allocated v o) ∨
          ghost_uncached v o) w) as Hinv.
  destruct Hinv as [(Hd' & _)|Hghost]; [| |by left|done| |done].
  - clear. intros v x Hv Hx Hret.
    destruct (_flush_one x v) as [r v1] eqn:Hone. cbn [fst snd] in *. subst r.
    pose proof (_flush_one_spec x v Hx) as Hspec. rewrite Hone in Hspec.
    cbn [fst snd] in Hspec.
    destruct (decide (x = o)) as [->|Hne].
    + destruct Hv as [(Hd & Hp & Hc & Ha)|(_ & Hd & _)]; [|done].
      right. by eapply _flush_one_remove_ghost.
    + destruct Hv as [(Hd & Hp & Hc & Ha)|Hg].
      * left. pose proof (flushed_one_apart _ _ _ _ Hspec) as [].
        destruct Hspec. split_and!.
        -- by apply apart_dirty0.
        -- unfold lookup_info. by rewrite fo_infos0.
        -- intros k Hk. apply fo_cache0 in Hk as [?|Hk]; [done|].
           unfold lookup_info. rewrite fo_infos0 by done. by apply Hc.
        -- unfold allocated in *. lia.
      * right. eapply ghost_uncached_apart; [done| |done].
        by eapply flushed_one_apart.
  - intros v [?|?]; [by left|by right].
  - destruct (flush_returns_clean w Hret) as [Hnil _]. rewrite Hnil in Hd'.
    by apply elem_of_nil in Hd'.
Qed.

(** A flush leaves a clean ghost alone. *)
Lemma flush_keeps_ghost o w :
  ghost_uncached w o → ghost_uncached (snd (flush w)) o.
Proof.
  intros (Hg & Hd & Hc & Ha).
  destruct (flush_run_of_flush w) as (w1 & fl & Hrun & _ & ->).
  assert (Hw1 : ghost_uncached w1 o).
  { destruct Hrun. split_and!.
    - by apply fr_ghosts0.
    - intros Hd1. by apply Hd, fr_dirty0.
    - intros k Hk. apply fr_cache0 in Hk as [?|Hk]; [done|]. by apply (Hc k).
    - unfold allocated. by rewrite fr_next_id0. }
  by destruct (fst (flush w)).
Qed.

Lemma values_at_world values positions w :
  snd (values_at values positions w) = w.
Proof.
  induction positions as [|i positions IH]; cbn; [done|].
  destruct (values !! i); [|done]. unfold bind.
  by destruct (values_at values positions w) as [[]].
Qed.

Lemma apart_update_info obj E f : respects (apart obj) E (update_info obj f).
Proof. apply respects_modify. intros w. split; cbn; auto. lia. Qed.

(** What [_load_object] does with the object it has made. *)
Definition load_new (obj : Obj) (values : list Value) : M Obj :=
  me <- gets (λ w, store_id (self w)) ;;
  update_info obj (set_oi_store (Some me)) ;;
  _set_values obj (columns (obj_class obj)) (Some values) ;;
  save obj ;;
  _add_to_cache obj ;;
  _enable_change_notification obj ;;
  ret obj.

Lemma _load_object_eq cls_info values w :
  _load_object cls_info values w
  = match fst (values_at values (primary_key_pos cls_info) w) with
    | Raise e => (Raise e, w)
    | Return pv =>
        match _cache (self w) !! (cls_info, pv) with
        | Some obj => (Return obj, w)
        | None =>
            load_new (mkObj (next_id w) cls_info) values
                     (set_next_id (Pos.succ (next_id w)) w)
        end
    end.
Proof.
  unfold _load_object. unfold bind at 1.
  pose proof (values_at_world values (primary_key_pos cls_info) w) as Hw.
  destruct (values_at values (primary_key_pos cls_info) w) as [[pv|e] w0];
    cbn [fst snd] in *; subst w0; [|done].
  unfold bind at 1, gets at 1.
  by destruct (_cache (self w) !! (cls_info, pv)).
Qed.

Lemma bind_returns {A B} (P : B → Prop) (m : M A) (f : A → M B) w b :
  (∀ a w', fst (f a w') = Return b → P b) →
  fst (bind m f w) = Return b → P b.
Proof. unfold bind. destruct (m w) as [[a|e] w']; cbn; [eauto|done]. Qed.

Lemma load_new_spec obj values w :
  apart obj w (snd (load_new obj values w)) ∧
  ∀ x, fst (load_new obj values w) = Return x → x = obj.
Proof.
  split.
  - assert (Hrest : respects (apart obj) (λ _, True) (load_new obj values)).
    { unfold load_new, save, _enable_change_notification.
      apply respects_bind; [apply _|apply respects_gets; apply _|intros me].
      apply respects_bind; [apply _|apply apart_update_info|intros _].
      apply respects_bind; [apply _| |intros _].
      { eapply (respects_mono (frame true obj) _ (λ _, True));
          [apply frame_apart|done|by apply frame_set_values]. }
      apply respects_bind; [apply _|apply apart_update_info|intros _].
      apply respects_bind; [apply _| |intros _].
      { eapply (respects_mono (frame true obj) _ (λ _, True));
          [apply frame_apart|done|by apply frame_add_to_cache]. }
      apply respects_bind; [apply _|apply apart_update_info|intros _].
      apply respects_ret; apply _. }
    apply Hrest.
  - intros x. unfold load_new.
    do 6 (apply (bind_returns (λ b, b = obj)); intros ? ?).
    cbn. by intros [= ->].
Qed.

(** An object that [_load_object] makes is new: a ghost is not it. *)
Lemma _load_object_ghost o cls_info values w :
  ghost_uncached w o →
  fst (_load_object cls_info values w) ≠ Return o ∧
  ghost_uncached (snd (_load_object cls_info values w)) o.
Proof.
  intros Hghost. rewrite _load_object_eq.
  destruct (fst (values_at values (primary_key_pos cls_info) w)) as [pv|e];
    [|done].
  destruct (_cache (self w) !! (cls_info, pv)) as [x|] eqn:Hx.
  { cbn. split; [|done]. intros [= ->]. destruct Hghost as (_ & _ & Hc & _).
    by apply (Hc (cls_info, pv)). }
  set (obj := mkObj (next_id w) cls_info).
  assert (Hne : obj ≠ o).
  { intros <-. destruct Hghost as (_ & _ & _ & Ha). unfold allocated in Ha.
    cbn in Ha. lia. }
  set (w0 := set_next_id (Pos.succ (next_id w)) w).
  assert (Hw0 : ghost_uncached w0 o).
  { destruct Hghost as (Hg & Hd & Hc & Ha). split_and!; try done.
    unfold allocated in *. cbn. lia. }
  destruct (load_new_spec obj values w0) as [Hapart Hobj].
  split; [|by eapply ghost_uncached_apart].
  intros Hr. apply Hobj in Hr. congruence.
Qed.

Lemma execute_ghost o statement w :
  ghost_uncached w o → ghost_uncached (snd (execute statement w)) o.
Proof.
  intros Hghost. unfold execute.
  by destruct (next_response _) as [[c|one rowid] rs].
Qed.

Lemma get_lookup_ghost o cls_info key w r w' :
  ghost_uncached w o →
  get_lookup cls_info key w = (r, w') →
  r ≠ Return (Some o) ∧ ghost_uncached w' o.
Proof.
  intros Hghost Hrun. unfold get_lookup in Hrun.
  unfold bind at 1, gets in Hrun.
  destruct (_cache (self w) !! (cls_info, key)) as [x|] eqn:Hx.
  { injection Hrun as <- <-. split; [|done]. intros [= ->].
    destruct Hghost as (_ & _ & Hc & _). by eapply Hc. }
  unfold bind at 1 in Hrun.
  match type of Hrun with
  | context [execute ?s w] =>
      pose proof (execute_ghost o s w Hghost) as Hex;
      destruct (execute s w) as [[[one rowid]|e] w2]
  end; cbn [fst snd] in *.
  2:{ by injection Hrun as <- <-. }
  destruct one as [values|].
  2:{ by injection Hrun as <- <-. }
  unfold bind in Hrun.
  destruct (_load_object_ghost o cls_info values w2 Hex) as [Hne Hg].
  destruct (_load_object cls_info values w2) as [[x|e] w3]; cbn [fst snd] in *;
    injection Hrun as <- <-; [|done].
  split; [|done]. intros [= ->]. done.
Qed.

(** [get] does not return a ghost, and leaves it a ghost. *)
Lemma get_ghost o cls_info key w :
  ghost_uncached w o →
  fst (get cls_info key w) ≠ Return (Some o) ∧
  ghost_uncached (snd (get cls_info key w)) o.
Proof.
  intros Hghost. rewrite get_unfold.
  pose proof (flush_keeps_ghost o w Hghost) as Hflush.
  destruct (flush w) as [[[]|e] w1]; cbn [fst snd] in *; [|done].
  destruct (bool_decide _); [|done].
  destruct (get_lookup cls_info (key_of_arg key) w1) as [r w2] eqn:Hrun.
  by eapply get_lookup_ghost.
Qed.

(** ** commit *)

Arguments del_store : simpl never.

Lemma del_store_spec x w w' :
  del_store x w = (Return tt, w') →
  self w' = self w ∧
  oi_store (info_of w' x) = None ∧
  ∀ y, y ≠ x → info_of w' y = info_of w y.
Proof.
  unfold del_store. unfold_monad.
  destruct (oi_store (info_of w x)); [|done]. intros [= <-]. cbn.
  rewrite lookup_info_insert_eq. split_and!; try done.
  intros y Hy. by rewrite lookup_info_insert_ne.
Qed.

Lemma for_each_del_store l w w' :
  for_each l del_store w = (Return tt, w') →
  self w' = self w ∧
  (∀ x, x ∈ l → oi_store (info_of w' x) = None) ∧
  (∀ x, oi_store (info_of w x) = None → oi_store (info_of w' x) = None).
Proof.
  revert w. induction l as [|x l IH]; intros w; cbn [for_each].
  - intros [= <-]. split_and!; try done. by intros x Hx%elem_of_nil.
  - unfold bind. destruct (del_store x w) as [[[]|e] w1] eqn:Hdel; [|done].
    intros Hrest. apply del_store_spec in Hdel as (Hself & Hx & Hother).
    destruct (IH w1 Hrest) as (Hself' & Hl & Hkeep).
    split_and!.
    + congruence.
    + intros y [->|Hy]%elem_of_cons; auto.
    + intros y Hy. apply Hkeep. destruct (decide (y = x)) as [->|Hne]; [done|].
      by rewrite Hother.
Qed.

Lemma for_each_save l w :
  fst (for_each l save w) = Return tt ∧
  self (snd (for_each l save w)) = self w ∧
  ∀ x, oi_store (info_of (snd (for_each l save w)) x) = oi_store (info_of w x).
Proof.
  revert w. induction l as [|y l IH]; intros w; cbn [for_each]; [done|].
  unfold bind, save at 1 3 5, update_info, modify.
  match goal with
  | |- context [for_each l save ?w1] => destruct (IH w1) as (Hr & Hs & Hst)
  end.
  rewrite Hr, Hs. split_and!; try done.
  intros x. rewrite Hst. cbn.
  destruct (decide (y = x)) as [->|Hne].
  - by rewrite lookup_info_insert_eq.
  - by rewrite lookup_info_insert_ne.
Qed.

(** A commit that returns has no ghost left, and the ghosts it found
    belong to no store. *)
Lemma commit_ghosts o w w' :
  commit w = (Return tt, w') →
  _ghosts (self w') = ∅ ∧
  (ghost_uncached w o → oi_store (info_of w' o) = None) ∧
  commits (_connection (self w')) = S (commits (_connection (self w))).
Proof.
  unfold commit. unfold bind at 1.
  pose proof (flush_keeps_ghost o w) as Hflush.
  destruct (flush_run_of_flush w) as (wl & fl & Hrun & _ & Hsnd).
  destruct (flush w) as [[[]|e] w1]; cbn [fst snd] in *; [|done].
  assert (Hcommits : commits (_connection (self w1))
                     = commits (_connection (self w))).
  { rewrite Hsnd. cbn. by destruct Hrun. }
  clear Hsnd Hrun.
  unfold bind at 1. unfold connection_commit.
  destruct (next_response (_connection (self w1))) as [[c|one rowid] rs];
    cbn [fst snd]; [done|].
  unfold bind at 1, gets at 1. cbn [fst snd].
  unfold bind at 1.
  match goal with
  | |- context [for_each ?l del_store ?w2] =>
      pose proof (for_each_del_store l w2) as Hdel;
      destruct (for_each l del_store w2) as [[[]|e] w3]
  end; cbn [fst snd]; [|done].
  destruct (Hdel w3 eq_refl) as (Hself & Hnone & _). clear Hdel.
  unfold bind, gets.
  match goal with
  | |- context [for_each ?l save w3] =>
      destruct (for_each_save l w3) as (Hr & Hs & Hst);
      destruct (for_each l save w3) as [r w4]
  end.
  cbn [fst snd] in *. subst r. unfold modify_store, modify.
  intros [= <-]. cbn. split_and!.
  - done.
  - intros Hghost. rewrite Hst. apply Hnone.
    destruct (Hflush Hghost) as (Hg & _). cbn. by apply elem_of_elements.
  - rewrite Hs, Hself. cbn. by rewrite Hcommits.
Qed.

(** C3 (as amended).  The flush that deletes the row of an object
    scheduled to be removed makes the object a ghost and takes its entry
    out of the identity cache, without any commit.  A ghost is never
    returned by [get], whatever the class and the key, and [get] leaves
    it a ghost.  A commit that returns empties the ghost set and takes
    the store from the ghost. *)
Theorem ghost_never_returned (w : World) (o : Obj) :
  (o ∈ _dirty (self w) →
   oi_pending (info_of w o) = Some PENDING_REMOVE →
   cached_only_at_key w o →
   allocated w o →
   fst (flush w) = Return tt →
   ghost_uncached (snd (flush w)) o ∧
   commits (_connection (self (snd (flush w))))
   = commits (_connection (self w))) ∧
  (ghost_uncached w o →
   ∀ cls_info key,
     fst (get cls_info key w) ≠ Return (Some o) ∧
     ghost_uncached (snd (get cls_info key w)) o) ∧
  (ghost_uncached w o →
   ∀ w', commit w = (Return tt, w') →
         _ghosts (self w') = ∅ ∧ oi_store (info_of w' o) = None).
Proof.
  split_and!.
  - intros Hd Hp Hc Ha Hret. split; [by apply flush_makes_ghost|].
    destruct (flush_run_of_flush w) as (wl & fl & Hrun & _ & ->).
    rewrite Hret. cbn. by destruct Hrun.
  - intros Hghost cls_info key. by apply get_ghost.
  - intros Hghost w' Hcommit.
    destruct (commit_ghosts o w w' Hcommit) as (? & Hstore & _). auto.
Qed.

(** [foo 1] of [one_to_remove] becomes a ghost that [get] does not
    find, and the commit lets it go. *)
Lemma ghost_never_returned_witness :
  ghost_uncached one_removed (foo 1) ∧
  fst (get Foo (KeyScalar (VInt 10)) one_removed) ≠ Return (Some (foo 1)) ∧
  oi_store (info_of (after commit one_removed) (foo 1)) = None.
Proof.
  destruct (ghost_never_returned one_to_remove (foo 1)) as (Hflush & _ & _).
  destruct (ghost_never_returned one_removed (foo 1)) as (_ & Hget & Hcommit).
  assert (Hghost : ghost_uncached one_removed (foo 1)).
  { apply Hflush.
    - decide_by_computation.
    - vm_compute. reflexivity.
    - intros k Hk. exists [VInt 10]. split; [vm_compute; reflexivity|].
      eassert (Hl : map_to_list (_cache (self one_to_remove)) = _)
        by (vm_compute; reflexivity).
      apply elem_of_map_to_list in Hk. rewrite Hl in Hk.
      apply list_elem_of_In in Hk.
      destruct Hk as [Hk|[Hk|[Hk|[]]]]; try discriminate Hk.
      injection Hk as <-. reflexivity.
    - unfold allocated. vm_compute. reflexivity.
    - vm_compute. reflexivity. }
  split; [exact Hghost|]. split; [apply (Hget Hghost)|].
  assert (Hret : fst (commit one_removed) = Return tt)
    by (vm_compute; reflexivity).
  apply returns_eq in Hret. apply (Hcommit Hghost _ Hret).
Defined.

(** C3, the claim as stated fails: the cache entry of [foo 1] is there
    after [remove] and gone after the flush, when the object has become
    a ghost that still belongs to the store and no commit has taken
    place. *)
Lemma ghost_cache_purge_counterexample :
  _cache (self one_to_remove) !! (Foo, [VInt 10]) = Some (foo 1) ∧
  oi_pending (info_of one_to_remove (foo 1)) = Some PENDING_REMOVE ∧
  fst (flush one_to_remove) = Return tt ∧
  _cache (self one_removed) !! (Foo, [VInt 10]) = None ∧
  elements (_ghosts (self one_removed)) = [foo 1] ∧
  oi_store (info_of one_removed (foo 1)) = Some 1%positive ∧
  commits (_connection (self one_removed)) = 0.
Proof. vm_compute. by repeat split. Qed.

(* ===================================================================== *)
(** * The remaining properties on concrete worlds *)
(* ===================================================================== *)

(** The three objects, flushed: clean, cached, with change notification. *)
Definition three_flushed : World := after flush three_in_line.

(** An object of another store (the store of the world has identity 1). *)
Definition with_foreign : World :=
  set_infos (<[foo 9 := set_oi_store (Some 2%positive) new_info]>
               (infos three_added)) three_added.

(** A write of a new title to [foo 1] of [three_flushed] marks it dirty. *)
Lemma field_write_marks_dirty_witness :
  oi_changed_hook (info_of three_flushed (foo 1)) = true ∧
  foo 1 ∈ _dirty (self (snd (set_value (foo 1) "title" (Some (VStr "b"))
                                       three_flushed))).
Proof.
  assert (Hhook : oi_changed_hook (info_of three_flushed (foo 1)) = true)
    by (vm_compute; reflexivity).
  split; [exact Hhook|].
  destruct (field_write_marks_dirty three_flushed (foo 1) "title" Hhook)
    as (Hwrite & _ & _).
  apply (Hwrite (VStr "b")).
Defined.

(** C1, the claim as stated fails: [foo 1] of [three_flushed] is owned
    by the store, clean, and has change notification; its title is
    written twice, and the second write gives back the value of the
    checkpoint.  The values equal the checkpoint again
    ([check_changed] is false), yet the object is dirty.  One write of
    the value it already has makes it dirty as well. *)
Lemma noop_write_counterexample :
  let back_and_forth :=
    set_value (foo 1) "title" (Some (VStr "b")) ;;
    set_value (foo 1) "title" (Some (VStr "a")) in
  let same := set_value (foo 1) "title" (Some (VStr "a")) in
  oi_store (info_of three_flushed (foo 1)) = Some (store_id (self three_flushed)) ∧
  oi_changed_hook (info_of three_flushed (foo 1)) = true ∧
  oi_checkpoint (info_of three_flushed (foo 1)) !! "title" = Some (VStr "a") ∧
  fst (_is_dirty (foo 1) three_flushed) = Return false ∧
  check_changed (info_of (after back_and_forth three_flushed) (foo 1)) = false ∧
  fst (_is_dirty (foo 1) (after back_and_forth three_flushed)) = Return true ∧
  check_changed (info_of (after same three_flushed) (foo 1)) = false ∧
  fst (_is_dirty (foo 1) (after same three_flushed)) = Return true.
Proof. vm_compute. by repeat split. Qed.

(** The four usage errors, each at an object in the state of the claim. *)
Lemma usage_errors_leave_state_unchanged_witness :
  add (foo 1) three_added
  = (Raise (StoreError is_already_scheduled_to_be_added), three_added) ∧
  remove (foo 1) one_to_remove
  = (Raise (StoreError is_already_scheduled_to_be_removed), one_to_remove) ∧
  add (foo 9) with_foreign
  = (Raise (StoreError is_part_of_another_store), with_foreign) ∧
  reload (foo 1) three_added
  = (Raise (StoreError cant_reload_never_flushed), three_added).
Proof.
  destruct (usage_errors_leave_state_unchanged three_added (foo 1))
    as (Hadd & _ & _ & Hreload & _).
  destruct (usage_errors_leave_state_unchanged one_to_remove (foo 1))
    as (_ & Hremove & _ & _ & _).
  destruct (usage_errors_leave_state_unchanged with_foreign (foo 9))
    as (_ & _ & Hother & _ & _).
  split_and!.
  - apply Hadd; [|right]; vm_compute; reflexivity.
  - apply Hremove; vm_compute; reflexivity.
  - apply (Hother 2%positive); [vm_compute; reflexivity|].
    vm_compute. discriminate.
  - apply Hreload; vm_compute; reflexivity.
Defined.

(** A new object is added and removed at once. *)
Lemma add_then_remove_annihilates_witness :
  oi_pending (info_of (new_world []) (foo 1)) = None ∧
  ∃ w2, remove (foo 1) (after (add (foo 1)) (new_world [])) = (Return tt, w2) ∧
        oi_pending (info_of w2 (foo 1)) = None ∧
        (foo 1 ∉ _dirty (self w2)) ∧
        _is_dirty (foo 1) w2 = (Return false, w2).
Proof.
  assert (Hp : oi_pending (info_of (new_world []) (foo 1)) = None)
    by (vm_compute; reflexivity).
  split; [exact Hp|].
  assert (Hadd : fst (add (foo 1) (new_world [])) = Return tt)
    by (vm_compute; reflexivity).
  apply returns_eq in Hadd.
  exact (add_then_remove_annihilates _ _ (foo 1) Hp Hadd).
Defined.

(** [foo 1] of [three_flushed] is removed and added again. *)
Lemma remove_then_add_leaves_dirty_witness :
  oi_store (info_of three_flushed (foo 1)) = Some (store_id (self three_flushed)) ∧
  oi_pending (info_of three_flushed (foo 1)) = None ∧
  ∃ w1,
    remove (foo 1) three_flushed = (Return tt, w1) ∧
    add (foo 1) w1
    = (Return tt,
       set_self (set_dirty (dirty_insert (foo 1) (_dirty (self three_flushed)))
                           (self three_flushed)) three_flushed) ∧
    foo 1 ∈ dirty_insert (foo 1) (_dirty (self three_flushed)).
Proof.
  assert (Hs : oi_store (info_of three_flushed (foo 1))
               = Some (store_id (self three_flushed)))
    by (vm_compute; reflexivity).
  assert (Hp : oi_pending (info_of three_flushed (foo 1)) = None)
    by (vm_compute; reflexivity).
  split; [exact Hs|]. split; [exact Hp|].
  exact (remove_then_add_leaves_dirty three_flushed (foo 1) Hs Hp).
Defined.

(* ===================================================================== *)
(** * Further properties of the store *)
(* ===================================================================== *)

(** ** The other usage errors *)

(** [add] of an object that is in the store already (it has no pending
    flag and is no ghost) raises "is already in the store"; [remove] and
    [reload] of an object that does not belong to the store raise "is
    not in this store".  None of them changes the world. *)
Theorem foreign_and_present_objects_rejected (w : World) (obj : Obj) :
  let me := store_id (self w) in
  let obj_info := info_of w obj in
  (oi_store obj_info = Some me →
   oi_pending obj_info = None →
   obj ∉ _ghosts (self w) →
   add obj w = (Raise (StoreError is_already_in_the_store), w)) ∧
  (oi_store obj_info ≠ Some me →
   remove obj w = (Raise (StoreError is_not_in_this_store), w) ∧
   reload obj w = (Raise (StoreError is_not_in_this_store), w)).
Proof.
  cbn. split.
  - intros Hs Hp Hg. unfold add. unfold_monad. cbn.
    rewrite Hs, Hp.
    rewrite bool_decide_eq_false_2 by (intros [_ ?]; congruence).
    by rewrite bool_decide_eq_false_2 by done.
  - intros Hs. unfold remove, reload. unfold_monad. cbn.
    by rewrite !bool_decide_eq_true_2 by done.
Qed.

(** ** A new object that is added and removed *)

(** A new object that is added and then removed before a flush is left
    as a ghost that belongs to the store, though no statement was ever
    executed for it; [add] takes it back: it is no ghost any more, is
    scheduled to be added and is dirty. *)
Theorem add_then_remove_leaves_ghost (w : World) (obj : Obj) :
  oi_store (info_of w obj) = None →
  oi_pending (info_of w obj) = None →
  ∃ w1 w2 w3,
    add obj w = (Return tt, w1) ∧
    remove obj w1 = (Return tt, w2) ∧
    obj ∈ _ghosts (self w2) ∧
    oi_store (info_of w2 obj) = Some (store_id (self w2)) ∧
    executed (_connection (self w2)) = executed (_connection (self w)) ∧
    add obj w2 = (Return tt, w3) ∧
    obj ∉ _ghosts (self w3) ∧
    oi_pending (info_of w3 obj) = Some PENDING_ADD ∧
    obj ∈ _dirty (self w3).
Proof.
  intros Hs Hp.
  assert (Hadd : ∃ w1, add obj w = (Return tt, w1) ∧
            oi_store (info_of w1 obj) = Some (store_id (self w1)) ∧
            oi_pending (info_of w1 obj) = Some PENDING_ADD ∧
            _ghosts (self w1) = _ghosts (self w) ∧
            executed (_connection (self w1)) = executed (_connection (self w))).
  { eexists. unfold add. unfold_monad. cbn. rewrite Hs, Hp. cbn.
    split; [done|]. cbn. by rewrite !lookup_info_insert_eq. }
  destruct Hadd as (w1 & Hadd & Hs1 & Hp1 & _ & He1).
  assert (Hrem : ∃ w2, remove obj w1 = (Return tt, w2) ∧
            oi_store (info_of w2 obj) = Some (store_id (self w2)) ∧
            oi_pending (info_of w2 obj) = None ∧
            obj ∈ _ghosts (self w2) ∧
            executed (_connection (self w2)) = executed (_connection (self w1))).
  { eexists. unfold remove. unfold_monad. cbn.
    rewrite bool_decide_eq_false_2 by (intros ?; congruence).
    rewrite Hp1. cbn. split; [done|]. cbn. rewrite !lookup_info_insert_eq.
    split_and!; try done. set_solver. }
  destruct Hrem as (w2 & Hrem & Hs2 & Hp2 & Hg2 & He2).
  assert (Hagain : ∃ w3, add obj w2 = (Return tt, w3) ∧
            obj ∉ _ghosts (self w3) ∧
            oi_pending (info_of w3 obj) = Some PENDING_ADD ∧
            obj ∈ _dirty (self w3)).
  { eexists. unfold add. unfold_monad. cbn.
    rewrite bool_decide_eq_false_2 by (intros [_ ?]; congruence).
    rewrite Hp2, Hs2. rewrite bool_decide_eq_true_2 by done.
    cbn. split; [done|]. cbn. rewrite !lookup_info_insert_eq.
    split_and!; try done; [set_solver|]. apply elem_of_dirty_insert. by left. }
  destruct Hagain as (w3 & Hagain & ?).
  exists w1, w2, w3. split_and!; try tauto. congruence.
Qed.

(** ** Removing an object that has no row *)

(** [remove] accepts an object of the store that has no cached primary
    key (a ghost), and schedules it to be removed.  Flushing it raises
    [KeyError] before any statement is executed, and no flush returns
    while it is dirty. *)
Theorem remove_of_ghost_breaks_flush (w : World) (obj : Obj) :
  oi_store (info_of w obj) = Some (store_id (self w)) →
  oi_pending (info_of w obj) = None →
  oi_primary_values (info_of w obj) = None →
  ∃ w1,
    remove obj w = (Return tt, w1) ∧
    fst (_flush_one obj w1) = Raise KeyError ∧
    executed (_connection (self (snd (_flush_one obj w1))))
    = executed (_connection (self w)) ∧
    fst (flush w1) ≠ Return tt.
Proof.
  intros Hs Hp Hpv.
  set (I := λ w' : World,
    obj ∈ _dirty (self w') ∧
    oi_pending (info_of w' obj) = Some PENDING_REMOVE ∧
    oi_primary_values (info_of w' obj) = None).
  assert (Hraise : ∀ w', I w' →
    fst (_flush_one obj w') = Raise KeyError ∧
    executed (_connection (self (snd (_flush_one obj w'))))
    = executed (_connection (self w'))).
  { intros w' (Hd & Hp' & Hpv'). rewrite _flush_one_dirty by done.
    unfold flush_action. rewrite Hp'.
    unfold flush_remove, primary_values_of, popped. unfold_monad. cbn.
    rewrite lookup_info_insert_eq. cbn. by rewrite Hpv'. }
  assert (Hrem : ∃ w1, remove obj w = (Return tt, w1) ∧ I w1 ∧
            executed (_connection (self w1)) = executed (_connection (self w))).
  { eexists. unfold remove. unfold_monad. cbn.
    rewrite bool_decide_eq_false_2 by (intros ?; congruence).
    rewrite Hp. cbn. split; [done|]. unfold I. cbn.
    rewrite lookup_info_insert_eq. cbn. split_and!; try done.
    apply elem_of_dirty_insert. by left. }
  destruct Hrem as (w1 & Hrem & HI & He). exists w1.
  destruct (Hraise w1 HI) as [Hk Hex].
  split_and!; [done|done|congruence|].
  intros Hret.
  destruct (flush_returns_clean w1 Hret) as [Hnil _].
  assert (HI' : I (snd (flush w1))).
  { apply flush_invariant; [|done|done|done].
    intros w' x HIw Hx Hx_ret.
    destruct (decide (x = obj)) as [->|Hne].
    { destruct (Hraise w' HIw) as [Hk' _]. congruence. }
    destruct HIw as (Hd & Hp' & Hpv').
    destruct (_flush_one_spec x w' Hx) as [_ _ _ _ Hinfos _ _ Hdirty _ _ _].
    unfold I, lookup_info. rewrite (Hinfos obj) by done.
    split; [|done].
    assert (obj ∈ dirty_remove x (_dirty (self w')))
      by (apply elem_of_dirty_remove; auto).
    destruct Hdirty as [->|[_ ->]]; [done|]. apply elem_of_app. by left. }
  destruct HI' as [Hd _]. rewrite Hnil in Hd. by apply elem_of_nil in Hd.
Qed.

(** ** A statement that fails *)

(** The statement that flushing a dirty object has to execute: its
    INSERT or DELETE, or an UPDATE of a column that has changed. *)
Definition has_statement (i : ObjectInfo) (obj : Obj) : Prop :=
  match oi_pending i with
  | Some PENDING_ADD => True
  | Some PENDING_REMOVE => oi_primary_values i ≠ None
  | None =>
      oi_primary_values i ≠ None ∧
      ∃ name, name ∈ columns (obj_class obj) ∧ get_change i name ≠ None
  end.

(** When the statement of a dirty object fails, [_flush_one] passes the
    error on, but the object has left the dirty set and has lost its
    pending flag before: no "flushed" is emitted, cache and ghosts are
    as before, and flushing the object again does nothing. *)
Theorem failed_statement_is_not_retried (w : World) (obj : Obj)
    (code : nat) (rs : list Response) :
  obj ∈ _dirty (self w) →
  has_statement (info_of w obj) obj →
  responses (_connection (self w)) = Fails code :: rs →
  let w' := snd (_flush_one obj w) in
  fst (_flush_one obj w) = Raise (BackendError code) ∧
  obj ∉ _dirty (self w') ∧
  oi_pending (info_of w' obj) = None ∧
  flushed w' = flushed w ∧
  _cache (self w') = _cache (self w) ∧
  _ghosts (self w') = _ghosts (self w) ∧
  length (executed (_connection (self w')))
  = S (length (executed (_connection (self w)))) ∧
  _flush_one obj w' = (Return tt, w').
Proof.
  intros Hd Hst Hresp.
  assert (Hex : ∀ statement (w0 : World),
    responses (_connection (self w0)) = Fails code :: rs →
    execute statement w0
    = (Raise (BackendError code),
       set_self (set_connection
         (mkConnection rs (executed (_connection (self w0)) ++ [statement])
                       (commits (_connection (self w0)))) (self w0)) w0)).
  { intros statement w0 Hr. unfold execute, next_response. by rewrite Hr. }
  assert (Hnd : obj ∉ dirty_remove obj (_dirty (self w))).
  { rewrite elem_of_dirty_remove. tauto. }
  assert (Hskip : ∀ w0, obj ∉ _dirty (self w0) → _flush_one obj w0 = (Return tt, w0)).
  { intros w0 Hw0. rewrite _flush_one_unfold. unfold _is_dirty. unfold_monad.
    cbn. by rewrite bool_decide_eq_false_2 by done. }
  set (failed := λ (statement : Statement) (w0 : World),
    set_self (set_connection
      (mkConnection rs (executed (_connection (self w0)) ++ [statement])
                    (commits (_connection (self w0)))) (self w0)) w0).
  assert (Heq : ∃ statement,
    _flush_one obj w = (Raise (BackendError code), failed statement (popped obj w))).
  { rewrite _flush_one_dirty by done.
    unfold flush_action, has_statement in *.
    destruct (oi_pending (info_of w obj)) as [[]|] eqn:Hp.
    - eexists. unfold flush_add. cbv zeta. unfold bind.
      by rewrite Hex by done.
    - destruct (oi_primary_values (info_of w obj)) as [pv|] eqn:Hpv; [|done].
      eexists. unfold flush_remove, primary_values_of. unfold_monad.
      cbn. rewrite lookup_info_insert_eq. cbn. rewrite Hpv.
      by rewrite Hex by done.
    - destruct Hst as (Hpv & name & Hname & Hch).
      destruct (oi_primary_values (info_of w obj)) as [pv|] eqn:Hpv'; [|done].
      unfold flush_update.
      assert (Hcc : check_changed (info_of w obj) = true).
      { apply bool_decide_eq_true_2. intros Heq. apply Hch.
        unfold get_change. by rewrite decide_True by (by rewrite Heq). }
      rewrite Hcc.
      destruct (omap _ (columns (obj_class obj))) as [|s sets] eqn:Hsets.
      { exfalso.
        destruct (get_change (info_of w obj) name) as [v|] eqn:Hv; [|done].
        assert (Hin : (name, v) ∈
          omap (λ name, (name,.) <$> get_change (info_of w obj) name)
               (columns (obj_class obj))).
        { apply list_elem_of_omap. exists name. by rewrite Hv. }
        rewrite Hsets in Hin. by apply elem_of_nil in Hin. }
      eexists. unfold primary_values_of. unfold_monad.
      cbn. rewrite lookup_info_insert_eq. cbn. rewrite Hpv'.
      by rewrite Hex by done. }
  destruct Heq as [statement Heq]. cbn zeta. rewrite Heq. cbn.
  rewrite lookup_info_insert_eq, length_app. cbn.
  split_and!; try done; [lia|]. by apply Hskip.
Qed.

(** ** What a flush leaves alone *)

Lemma flush_frame w :
  next_id (snd (flush w)) = next_id w ∧
  commits (_connection (self (snd (flush w))))
  = commits (_connection (self w)) ∧
  ∀ x, x ∉ _dirty (self w) → info_of (snd (flush w)) x = info_of w x.
Proof.
  destruct (flush_run_of_flush w) as (w1 & fl & Hrun & _ & ->).
  destruct Hrun as [_ _ _ Hnext Hcommits _ _ Hinfos _ _ _ _].
  destruct (fst (flush w)) as [[]|e]; cbn; split_and!; try done;
    intros x Hx; unfold lookup_info; by rewrite Hinfos.
Qed.

(** A flush changes neither the identity of the store nor the number of
    commits, and makes no object.  It makes no object dirty; the state
    of an object that is not dirty, and whether it is a ghost, stay as
    they are; and an object that is not dirty gets no new cache entry. *)
Theorem flush_touches_only_dirty (w : World) :
  store_id (self (snd (flush w))) = store_id (self w) ∧
  next_id (snd (flush w)) = next_id w ∧
  commits (_connection (self (snd (flush w))))
  = commits (_connection (self w)) ∧
  (∀ x, x ∈ _dirty (self (snd (flush w))) → x ∈ _dirty (self w)) ∧
  (∀ x, x ∉ _dirty (self w) →
        info_of (snd (flush w)) x = info_of w x ∧
        (x ∈ _ghosts (self (snd (flush w))) ↔ x ∈ _ghosts (self w))) ∧
  (∀ k x, _cache (self (snd (flush w))) !! k = Some x →
          x ∈ _dirty (self w) ∨ _cache (self w) !! k = Some x).
Proof.
  destruct (flush_run_of_flush w) as (w1 & fl & Hrun & _ & ->).
  destruct Hrun as [_ Hid _ Hnext Hcommits _ Hdirty Hinfos Hghosts Hcache _ _].
  destruct (fst (flush w)) as [[]|e]; cbn; split_and!; try done.
  - intros x Hx. split; [|auto]. unfold lookup_info. by rewrite Hinfos.
  - intros x Hx. split; [|auto]. unfold lookup_info. by rewrite Hinfos.
Qed.

(** A flush that has returned leaves a world in which a second flush
    returns at once and changes nothing: no statement is executed. *)
Theorem flush_twice_is_flush_once (w w1 : World) :
  flush w = (Return tt, w1) → flush w1 = (Return tt, w1).
Proof.
  intros Hflush. pose proof (flush_returns_clean w) as Hclean.
  rewrite Hflush in Hclean. destruct (Hclean eq_refl) as [Hd Ho].
  by apply flush_clean.
Qed.

(** ** commit *)

(** What [save()] keeps of an object state. *)
Definition snapshot (i : ObjectInfo) : Snapshot :=
  mkSnapshot (oi_store i) (oi_pending i) (oi_primary_values i) (oi_values i).

Lemma for_each_save_saved l w :
  ∀ x, info_of (snd (for_each l save w)) x
       = if decide (x ∈ l)
         then set_oi_saved (Some (snapshot (info_of w x))) (info_of w x)
         else info_of w x.
Proof.
  revert w. induction l as [|y l IH]; intros w x; cbn [for_each]; [done|].
  unfold bind, save at 1, update_info, modify. rewrite IH. cbn.
  destruct (decide (x = y)) as [->|Hne].
  - rewrite lookup_info_insert_eq. rewrite (decide_True (P := y ∈ y :: l)) by left.
    by case_decide.
  - rewrite lookup_info_insert_ne by done.
    destruct (decide (x ∈ l)).
    + by rewrite decide_True by (by right).
    + rewrite decide_False; [done|]. by intros [?|?]%elem_of_cons.
Qed.

(** [commit] commits only what a flush has written: when the flush
    raises, [commit] raises the same and the connection is not asked to
    commit.  When [commit] returns, the connection has committed once,
    nothing is dirty, the order table and the ghost set are empty, and
    every cached object has been saved in the state it has. *)
Theorem commit_flushes_first (w : World) :
  (∀ e, fst (flush w) = Raise e →
        commit w = (Raise e, snd (flush w)) ∧
        commits (_connection (self (snd (commit w))))
        = commits (_connection (self w))) ∧
  (∀ w', commit w = (Return tt, w') →
         commits (_connection (self w')) = S (commits (_connection (self w))) ∧
         _dirty (self w') = [] ∧
         _order (self w') = ∅ ∧
         _ghosts (self w') = ∅ ∧
         ∀ k x, _cache (self w') !! k = Some x →
                oi_saved (info_of w' x) = Some (snapshot (info_of w' x))).
Proof.
  split.
  - intros e He.
    destruct (flush_frame w) as (_ & Hc & _).
    assert (Heq : commit w = (Raise e, snd (flush w))).
    { unfold commit. unfold bind at 1.
      by destruct (flush w) as [[[]|e'] w1]; cbn in *; simplify_eq. }
    by rewrite Heq.
  - intros w'.
    unfold commit. unfold bind at 1.
    pose proof (flush_returns_clean w) as Hclean.
    destruct (flush_frame w) as (_ & Hc & _).
    destruct (flush w) as [[[]|e] w1]; cbn [fst snd] in *; [|done].
    destruct (Hclean eq_refl) as [Hd Ho]. clear Hclean.
    unfold bind at 1. unfold connection_commit.
    destruct (next_response (_connection (self w1))) as [[c|one rowid] rs];
      cbn [fst snd]; [done|].
    unfold bind at 1, gets at 1. cbn [fst snd].
    unfold bind at 1.
    match goal with
    | |- context [for_each ?l del_store ?w2] =>
        pose proof (for_each_del_store l w2) as Hdel;
        destruct (for_each l del_store w2) as [[[]|e] w3]
    end; cbn [fst snd]; [|done].
    destruct (Hdel w3 eq_refl) as (Hself & _). clear Hdel.
    unfold bind, gets.
    pose proof (for_each_save_saved (_iter_cached w3) w3) as Hsaved.
    destruct (for_each_save (_iter_cached w3) w3) as (Hr & Hs & _).
    destruct (for_each (_iter_cached w3) save w3) as [r w4].
    cbn [fst snd] in *. subst r. unfold modify_store, modify.
    intros [= <-]. cbn. rewrite Hs, Hself. cbn. split_and!; try done.
    { by rewrite Hc. }
    intros k x Hk. rewrite Hsaved.
    rewrite decide_True; [done|].
    unfold _iter_cached. apply list_elem_of_fmap. exists (k, x).
    split; [done|]. apply elem_of_map_to_list. by rewrite Hself.
Qed.

(** ** Store.execute *)

(** [Store.execute] writes the pending changes before the statement:
    when the flush raises, the statement is not sent; otherwise the
    statement is the one executed last, nothing is dirty when it is
    executed, and the order table is empty. *)
Theorem execute_flushes_first (w : World) (statement : Statement) :
  (∀ e, fst (flush w) = Raise e →
        Store_execute statement w = (Raise e, snd (flush w))) ∧
  (fst (flush w) = Return tt →
   Store_execute statement w = execute statement (snd (flush w)) ∧
   executed (_connection (self (snd (Store_execute statement w))))
   = executed (_connection (self (snd (flush w)))) ++ [statement] ∧
   _dirty (self (snd (Store_execute statement w))) = [] ∧
   _order (self (snd (Store_execute statement w))) = ∅).
Proof.
  unfold Store_execute. split.
  - intros e He. unfold bind. by destruct (flush w) as [[[]|e'] w1]; simplify_eq/=.
  - intros Hret. destruct (flush_returns_clean w Hret) as [Hd Ho].
    unfold bind. destruct (flush w) as [[[]|e'] w1]; simplify_eq/=.
    split; [done|]. unfold execute.
    by destruct (next_response _) as [[] ?].
Qed.

(** ** reload *)

(** The values after the writes [l], in this order, to the values
    [vals]. *)
Definition written (vals : gmap ColName Value) (l : list (ColName * Value))
    : gmap ColName Value :=
  foldl (λ m p, <[p.1 := p.2]> m) vals l.

Lemma lookup_written_other vals l name :
  name ∉ l.*1 → written vals l !! name = vals !! name.
Proof.
  revert vals. induction l as [|[n v] l IH]; intros vals Hn; [done|].
  cbn in *. apply not_elem_of_cons in Hn as [Hne Hn].
  unfold written in *. cbn. rewrite IH by done. by rewrite lookup_insert_ne.
Qed.

Lemma lookup_written vals l i name v :
  NoDup l.*1 → l !! i = Some (name, v) → written vals l !! name = Some v.
Proof.
  revert vals i. induction l as [|[n x] l IH]; intros vals i Hnd Hi; [done|].
  cbn in Hnd. apply NoDup_cons in Hnd as [Hn Hnd].
  destruct i as [|i]; cbn in Hi.
  - injection Hi as -> ->. unfold written. cbn.
    fold (written (<[name:=v]> vals) l).
    rewrite lookup_written_other by done. by rewrite lookup_insert_eq.
  - unfold written in *. cbn. by eapply IH.
Qed.

Lemma fst_zip_take {A B} (l : list A) (k : list B) :
  (zip l k).*1 = take (length k) l.
Proof.
  revert k. induction l as [|a l IH]; intros [|b k]; cbn; try done.
  by rewrite IH.
Qed.

Lemma NoDup_take {A} (l : list A) n : NoDup l → NoDup (take n l).
Proof.
  intros Hnd. rewrite <- (take_drop n l) in Hnd.
  by apply NoDup_app in Hnd as [? _].
Qed.

(** The world after the values [l] have been written to [obj]. *)
Definition wrote (obj : Obj) (l : list (ColName * Value)) (w : World) : World :=
  mkWorld
    (set_dirty (if oi_changed_hook (info_of w obj)
                then dirty_insert obj (_dirty (self w))
                else _dirty (self w)) (self w))
    (<[obj := set_oi_values (written (oi_values (info_of w obj)) l)
                            (info_of w obj)]> (infos w))
    (next_id w) (flushed w).

Lemma for_each_set_value obj l w :
  l ≠ [] →
  for_each l (λ '(name, value), set_value obj name (Some value)) w
  = (Return tt, wrote obj l w).
Proof.
  revert w. induction l as [|[name v] l IH]; intros w Hl; [done|].
  cbn [for_each]. unfold bind.
  assert (Hone : set_value obj name (Some v) w
                 = (Return tt, wrote obj [(name, v)] w)).
  { unfold set_value, _object_changed, wrote, written. unfold_monad. cbn.
    destruct (oi_changed_hook (info_of w obj)); [done|].
    by destruct w as [[] ? ? ?]. }
  rewrite Hone. destruct l as [|p l]; [done|].
  rewrite IH by done. f_equal. unfold wrote, written. cbn.
  rewrite !lookup_info_insert_eq. cbn. rewrite insert_insert_eq.
  destruct (oi_changed_hook (info_of w obj)); [|done].
  by rewrite dirty_insert_idemp.
Qed.

Lemma dirty_remove_insert obj d :
  dirty_remove obj (dirty_insert obj d) = dirty_remove obj d.
Proof.
  unfold dirty_insert. case_decide; [done|].
  unfold dirty_remove. rewrite filter_app. cbn.
  rewrite decide_False by (intros Hne; by apply Hne).
  apply app_nil_r.
Qed.

(** [reload] of an object of the store that has been flushed, when the
    SELECT finds a row: the statement selects by the cached primary key;
    the values of the row are written to the columns, in their order
    (a column beyond the end of a short row keeps its value); the values
    become the checkpoint and the object is taken out of the dirty set,
    so what had been written to it and not flushed is dropped.  The
    pending flag stays as it is: an object that was scheduled to be
    removed stays scheduled, but no flush will remove it while it is not
    dirty. *)
Theorem reload_discards_changes (w : World) (obj : Obj) (key : Key)
    (row : list Value) (rowid : nat) (rs : list Response) :
  oi_store (info_of w obj) = Some (store_id (self w)) →
  oi_primary_values (info_of w obj) = Some key →
  responses (_connection (self w)) = Result (Some row) rowid :: rs →
  ∃ w',
    reload obj w = (Return tt, w') ∧
    executed (_connection (self w'))
    = executed (_connection (self w))
      ++ [Select (columns (obj_class obj))
                 (compare_columns (primary_key (obj_class obj)) key)
                 (Some (table (obj_class obj))) (Some 1)] ∧
    (NoDup (columns (obj_class obj)) →
     ∀ i name v, columns (obj_class obj) !! i = Some name → row !! i = Some v →
                 oi_values (info_of w' obj) !! name = Some v) ∧
    (∀ name, name ∉ take (length row) (columns (obj_class obj)) →
             oi_values (info_of w' obj) !! name
             = oi_values (info_of w obj) !! name) ∧
    oi_checkpoint (info_of w' obj) = oi_values (info_of w' obj) ∧
    oi_pending (info_of w' obj) = oi_pending (info_of w obj) ∧
    _dirty (self w') = dirty_remove obj (_dirty (self w)) ∧
    _cache (self w') = _cache (self w) ∧
    ∀ x, x ≠ obj → info_of w' x = info_of w x.
Proof.
  intros Hs Hpv Hresp.
  set (cols := columns (obj_class obj)).
  set (w1 := set_self (set_connection
    (mkConnection rs
       (executed (_connection (self w))
        ++ [Select cols (compare_columns (primary_key (obj_class obj)) key)
                   (Some (table (obj_class obj))) (Some 1)])
       (commits (_connection (self w)))) (self w)) w).
  assert (Hvals : ∀ vals : gmap ColName Value,
    (NoDup cols →
     ∀ i name v, cols !! i = Some name → row !! i = Some v →
                 written vals (zip cols row) !! name = Some v) ∧
    (∀ name, name ∉ take (length row) cols →
             written vals (zip cols row) !! name = vals !! name)).
  { intros vals. split.
    - intros Hnd i name v Hc Hr.
      apply (lookup_written _ _ i).
      + rewrite fst_zip_take. by apply NoDup_take.
      + rewrite lookup_zip_with. by rewrite Hc, Hr.
    - intros name Hn. apply lookup_written_other. by rewrite fst_zip_take. }
  assert (Heq : reload obj w
    = (_set_values obj cols (Some row) ;; checkpoint obj ;; _set_clean obj) w1).
  { unfold reload. unfold_monad. cbn.
    rewrite bool_decide_eq_false_2 by (intros ?; congruence).
    rewrite Hpv. unfold execute, next_response. by rewrite Hresp. }
  rewrite Heq. clear Heq. unfold _set_values.
  destruct (Hvals (oi_values (info_of w obj))) as [H1 H2]. clear Hvals.
  destruct (decide (zip cols row = [])) as [Hzip|Hzip].
  - rewrite Hzip in *. eexists. unfold checkpoint, _set_clean.
    unfold bind at 1. cbn [for_each]. unfold_monad. cbn. split; [done|]. cbn.
    rewrite lookup_info_insert_eq. cbn.
    split_and!; try done.
    intros x Hx. by rewrite lookup_info_insert_ne.
  - unfold bind at 1. rewrite for_each_set_value by done.
    eexists. unfold checkpoint, _set_clean. unfold_monad. cbn. split; [done|].
    cbn. rewrite !lookup_info_insert_eq. cbn.
    split_and!; try done.
    + destruct (oi_changed_hook (info_of w obj)); [|done].
      apply dirty_remove_insert.
    + intros x Hx. by rewrite !lookup_info_insert_ne.
Qed.

(** [reload] of an object whose row is gone: the SELECT is executed,
    its result has no row, and [reload] raises [TypeError], which is no
    [StoreError]; the object and the dirty set are as before. *)
Theorem reload_without_row_raises_TypeError (w : World) (obj : Obj) (key : Key)
    (rowid : nat) (rs : list Response) :
  oi_store (info_of w obj) = Some (store_id (self w)) →
  oi_primary_values (info_of w obj) = Some key →
  responses (_connection (self w)) = Result None rowid :: rs →
  fst (reload obj w) = Raise TypeError ∧
  infos (snd (reload obj w)) = infos w ∧
  _dirty (self (snd (reload obj w))) = _dirty (self w) ∧
  _cache (self (snd (reload obj w))) = _cache (self w) ∧
  executed (_connection (self (snd (reload obj w))))
  = executed (_connection (self w))
    ++ [Select (columns (obj_class obj))
               (compare_columns (primary_key (obj_class obj)) key)
               (Some (table (obj_class obj))) (Some 1)].
Proof.
  intros Hs Hpv Hresp. unfold reload. unfold_monad. cbn.
  rewrite bool_decide_eq_false_2 by (intros ?; congruence).
  rewrite Hpv. unfold execute, next_response. rewrite Hresp. cbn.
  unfold _set_values. by cbn.
Qed.

(** ** rollback *)

(** What the loop of [rollback] over [objects] may change: the states of
    these objects and the cache, where an entry may go and only an entry
    of one of these objects may come. *)
Record rolled (objects : list Obj) (w w' : World) : Prop := mkRolled {
  rolled_store_id : store_id (self w') = store_id (self w);
  rolled_connection : _connection (self w') = _connection (self w);
  rolled_ghosts : _ghosts (self w') = _ghosts (self w);
  rolled_dirty : _dirty (self w') = _dirty (self w);
  rolled_order : _order (self w') = _order (self w);
  rolled_next_id : next_id w' = next_id w;
  rolled_flushed : flushed w' = flushed w;
  rolled_infos : ∀ x, x ∉ objects → infos w' !! x = infos w !! x;
  rolled_cache :
    ∀ k x, _cache (self w') !! k = Some x →
           x ∈ objects ∨ _cache (self w) !! k = Some x;
}.

#[global] Instance rolled_preorder objects : PreOrder (rolled objects).
Proof.
  split.
  - intros w. split; auto.
  - intros w1 w2 w3 [] []. split; try congruence.
    + intros x Hx. by rewrite rolled_infos1, rolled_infos0.
    + intros k x Hk. apply rolled_cache1 in Hk as [?|Hk]; auto.
Qed.

Lemma rolled_update_info objects obj E f :
  obj ∈ objects → respects (rolled objects) E (update_info obj f).
Proof.
  intros Hobj. apply respects_modify. intros w. split; cbn; auto.
  intros x Hx. rewrite lookup_insert_ne; [done|]. by intros ->.
Qed.

Lemma rolled_remove_from_cache objects obj :
  obj ∈ objects →
  respects (rolled objects) (λ e, e = KeyError) (_remove_from_cache obj).
Proof.
  intros Hobj w. rewrite _remove_from_cache_eq.
  destruct (oi_primary_values _) as [old|]; [|split; [reflexivity|done]].
  destruct (_cache (self w) !! _) eqn:Hold; cbn.
  - split; [|done]. split; cbn; auto.
    + intros x Hx. rewrite lookup_insert_ne; [done|]. by intros ->.
    + intros k x Hk. apply lookup_delete_Some in Hk as [_ Hk]. auto.
  - split; [reflexivity|]. by intros ? [= <-].
Qed.

Lemma rolled_add_to_cache objects obj :
  obj ∈ objects →
  respects (rolled objects) (λ e, e = KeyError) (_add_to_cache obj).
Proof.
  intros Hobj w. rewrite _add_to_cache_eq.
  case_decide; [split; [reflexivity|done]|].
  assert (Hrec : ∀ c,
    (∀ k x, c !! k = Some x → _cache (self w) !! k = Some x) →
    rolled objects w (recached obj c w)).
  { intros c Hc. split; cbn; auto.
    - intros x Hx. rewrite lookup_insert_ne; [done|]. by intros ->.
    - intros k x [[_ <-]|[_ Hk]]%lookup_insert_Some; auto. }
  destruct (oi_primary_values _) as [old|].
  - destruct (_cache (self w) !! _) eqn:Hold; cbn.
    + split; [|done]. apply Hrec. intros k x Hk.
      by apply lookup_delete_Some in Hk as [_ Hk].
    + split; [reflexivity|]. by intros ? [= <-].
  - split; [by apply Hrec|done].
Qed.

Lemma rolled_rollback_over restore objects l :
  (∀ x, x ∈ l → x ∈ objects) →
  respects (rolled objects) (λ e, e = KeyError) (rollback_over restore l).
Proof.
  intros Hl. unfold rollback_over.
  induction l as [|obj l IH]; cbn [for_each]; [apply respects_ret; apply _|].
  assert (Hobj : obj ∈ objects) by (apply Hl; left).
  apply respects_bind; [apply _| |intros _; apply IH; intros; apply Hl; by right].
  apply respects_bind; [apply _|by apply rolled_remove_from_cache|intros _].
  apply respects_bind; [apply _|by apply rolled_update_info|intros _].
  apply respects_bind; [apply _|apply respects_gets; apply _|intros i].
  apply respects_bind; [apply _|apply respects_gets; apply _|intros me].
  case_bool_decide; [|apply respects_ret; apply _].
  apply respects_bind; [apply _|by apply rolled_add_to_cache|intros _].
  by apply rolled_update_info.
Qed.

Lemma rollback_unfold restore w :
  rollback restore w
  = match rollback_over restore (rollback_objects w) w with
    | (Return _, w1) =>
        connection_rollback
          (set_self (set_dirty [] (set_ghosts ∅ (self w1))) w1)
    | (Raise e, w1) => (Raise e, w1)
    end.
Proof.
  unfold rollback. unfold bind at 1, gets at 1. unfold bind at 1.
  by destruct (rollback_over restore (rollback_objects w) w) as [[[]|e] w1].
Qed.

(** [rollback], whatever [restore()] does to an object state.  When it
    returns, the dirty set and the ghost set are empty, while the order
    table is as before: the constraints outlive a rollback.  No
    statement is executed and nothing is committed, no object is made,
    and the state of an object that was neither dirty nor a ghost nor in
    the cache is as before.  [rollback] raises only [KeyError] (a cache
    entry to delete is missing) or the error of the connection; after a
    [KeyError] the dirty set and the ghost set are as before. *)
Theorem rollback_clears_dirty_and_ghosts (restore : ObjectInfo → ObjectInfo)
    (w : World) :
  (fst (rollback restore w) = Return tt →
   _dirty (self (snd (rollback restore w))) = [] ∧
   _ghosts (self (snd (rollback restore w))) = ∅) ∧
  _order (self (snd (rollback restore w))) = _order (self w) ∧
  executed (_connection (self (snd (rollback restore w))))
  = executed (_connection (self w)) ∧
  commits (_connection (self (snd (rollback restore w))))
  = commits (_connection (self w)) ∧
  next_id (snd (rollback restore w)) = next_id w ∧
  (∀ x, x ∉ _dirty (self w) → x ∉ _ghosts (self w) → x ∉ _iter_cached w →
        info_of (snd (rollback restore w)) x = info_of w x) ∧
  (∀ e, fst (rollback restore w) = Raise e →
        (e = KeyError ∧
         _dirty (self (snd (rollback restore w))) = _dirty (self w) ∧
         _ghosts (self (snd (rollback restore w))) = _ghosts (self w)) ∨
        ∃ code, e = BackendError code).
Proof.
  rewrite rollback_unfold.
  assert (Hsub : ∀ x, x ∈ rollback_objects w → x ∈ rollback_objects w) by done.
  destruct (rolled_rollback_over restore _ _ Hsub w) as [Hr He].
  assert (Hinfo : ∀ w1, rolled (rollback_objects w) w w1 →
    ∀ x, x ∉ _dirty (self w) → x ∉ _ghosts (self w) → x ∉ _iter_cached w →
         info_of w1 x = info_of w x).
  { intros w1 [_ _ _ _ _ _ _ Hinfos _] x Hd Hg Hc.
    unfold lookup_info. rewrite Hinfos; [done|].
    unfold rollback_objects. rewrite elem_of_remove_dups, !elem_of_app.
    rewrite elem_of_elements. tauto. }
  destruct (rollback_over restore (rollback_objects w) w) as [[[]|e] w1];
    cbn [fst snd] in *.
  - specialize (Hinfo w1 Hr).
    destruct Hr as [_ Hconn _ _ Horder Hnext _ _ _].
    unfold connection_rollback. cbn.
    destruct (next_response _) as [[code|one rowid] rs]; cbn;
      (split_and!; try done; try congruence).
    intros e [= <-]. right. by eexists.
  - specialize (Hinfo w1 Hr).
    destruct Hr as [_ Hconn Hghosts Hdirty Horder Hnext _ _ _].
    split_and!; try done; try congruence.
    intros e' [= <-]. left. by rewrite (He e eq_refl).
Qed.

(** ** get and the identity cache *)

(** The identity is not in use: the object has no state and is not
    dirty. *)
Definition unused (w : World) (o : Obj) : Prop :=
  infos w !! o = None ∧ o ∉ _dirty (self w).

Lemma execute_world statement w :
  let w' := snd (execute statement w) in
  _cache (self w') = _cache (self w) ∧
  _dirty (self w') = _dirty (self w) ∧
  _order (self w') = _order (self w) ∧
  infos w' = infos w ∧
  next_id w' = next_id w.
Proof. unfold execute. by destruct (next_response _) as [[] ?]. Qed.

(** Loading the values of a row into an object without state caches the
    object under the key of the row and makes nothing dirty. *)
Lemma load_new_unused obj values w :
  info_of w obj = new_info →
  ∃ w', load_new obj values w = (Return obj, w') ∧
        _cache (self w') !! (obj_class obj, key_of w' obj) = Some obj ∧
        _dirty (self w') = _dirty (self w) ∧
        _order (self w') = _order (self w).
Proof.
  intros Hinfo.
  unfold load_new. unfold bind at 1, gets at 1. unfold bind at 1.
  unfold update_info at 1, modify at 1. cbn [fst snd].
  rewrite Hinfo.
  set (wa := set_infos _ w).
  assert (Hset : ∃ wb,
    _set_values obj (columns (obj_class obj)) (Some values) wa = (Return tt, wb) ∧
    oi_primary_values (info_of wb obj) = None ∧
    _cache (self wb) = _cache (self w) ∧
    _dirty (self wb) = _dirty (self w) ∧
    _order (self wb) = _order (self w)).
  { unfold _set_values.
    destruct (decide (zip (columns (obj_class obj)) values = [])) as [Hz|Hz].
    - rewrite Hz. exists wa. split; [done|]. subst wa. cbn.
      by rewrite lookup_info_insert_eq.
    - rewrite for_each_set_value by done. eexists. split; [done|].
      subst wa. unfold wrote. cbn. by rewrite !lookup_info_insert_eq. }
  destruct Hset as (wb & Hset & Hpv & Hc & Hd & Ho).
  unfold bind at 1. rewrite Hset.
  unfold bind at 1. unfold save, update_info at 1, modify at 1. cbn [fst snd].
  set (wc := set_infos _ wb).
  assert (Hpvc : oi_primary_values (info_of wc obj) = None).
  { subst wc. cbn. by rewrite lookup_info_insert_eq. }
  unfold bind at 1. rewrite _add_to_cache_eq.
  rewrite decide_False by (by rewrite Hpvc). rewrite Hpvc.
  unfold bind, _enable_change_notification, update_info, modify, ret.
  eexists. split; [done|]. cbn.
  split_and!; try done.
  erewrite key_of_eq; [apply lookup_insert_eq|].
  cbn. by rewrite !lookup_info_insert_eq.
Qed.

(** An object that [get] returns is in the identity cache afterwards,
    under a key of the class, and nothing is dirty.  Asking for that key
    returns the very same object and leaves the world as it is: no
    statement is executed and no object is made. *)
Theorem get_caches_what_it_returns (w w1 : World) (cls_info : ClsInfo)
    (key : KeyArg) (o : Obj) :
  unused w (mkObj (next_id w) cls_info) →
  get cls_info key w = (Return (Some o), w1) →
  ∃ k, _cache (self w1) !! (cls_info, k) = Some o ∧
       _dirty (self w1) = [] ∧
       (length k = length (primary_key cls_info) →
        get cls_info (KeyTuple k) w1 = (Return (Some o), w1)).
Proof.
  intros [Hnone Hnd] Hget.
  assert (Hagain : ∀ k,
    _cache (self w1) !! (cls_info, k) = Some o →
    _dirty (self w1) = [] → _order (self w1) = ∅ →
    length k = length (primary_key cls_info) →
    get cls_info (KeyTuple k) w1 = (Return (Some o), w1)).
  { intros k Hk Hd Ho Hlen. rewrite get_unfold, flush_clean by done.
    cbn [key_of_arg]. rewrite bool_decide_eq_true_2 by done.
    unfold get_lookup, bind, gets. cbn. by rewrite Hk. }
  rewrite get_unfold in Hget.
  pose proof (flush_returns_clean w) as Hclean.
  destruct (flush_frame w) as (Hnext & _ & Hinfos).
  destruct (flush w) as [[[]|e] wf]; cbn [fst snd] in *; [|done].
  destruct (Hclean eq_refl) as [Hd Ho]. clear Hclean.
  case_bool_decide as Hlen; [|done].
  unfold get_lookup in Hget. unfold bind at 1, gets at 1 in Hget.
  cbn [fst snd] in Hget.
  destruct (_cache (self wf) !! (cls_info, key_of_arg key)) as [c|] eqn:Hc.
  { injection Hget as -> <-. exists (key_of_arg key). by auto. }
  unfold bind at 1 in Hget.
  destruct (execute_world
              (Select (columns cls_info)
                 (compare_columns (primary_key cls_info) (key_of_arg key))
                 (Some (table cls_info)) (Some 1)) wf)
    as (Hc2 & Hd2 & Ho2 & Hi2 & Hn2).
  destruct (execute _ wf) as [[[one rowid]|e] w2]; cbn [fst snd] in *; [|done].
  destruct one as [values|]; [|done].
  unfold bind in Hget. rewrite _load_object_eq in Hget.
  destruct (fst (values_at values (primary_key_pos cls_info) w2)) as [pv|e];
    [|done].
  destruct (_cache (self w2) !! (cls_info, pv)) as [c|] eqn:Hpv.
  { injection Hget as -> <-. exists pv.
    split_and!; [done|congruence|]. apply Hagain; congruence. }
  set (obj := mkObj (next_id w2) cls_info) in *.
  destruct (load_new_unused obj values (set_next_id (Pos.succ (next_id w2)) w2))
    as (w' & Hload & Hcache & Hd' & Ho').
  { cbn. rewrite Hi2. subst obj. rewrite Hn2, Hnext.
    rewrite (Hinfos _ Hnd). unfold lookup_info. by rewrite Hnone. }
  rewrite Hload in Hget. injection Hget as <- <-. cbn in Hd', Ho'.
  exists (key_of w' obj). split_and!; [done|congruence|].
  apply Hagain; [done|congruence|congruence].
Qed.

(** ** The statements of a flush *)

(** The world after the connection has answered to [statement], with
    the answers [rs] still to come. *)
Definition sent (statement : Statement) (rs : list Response) (w : World)
    : World :=
  set_self (set_connection
    (mkConnection rs (executed (_connection (self w)) ++ [statement])
                  (commits (_connection (self w)))) (self w)) w.

Lemma execute_answers statement w r rs :
  responses (_connection (self w)) = r :: rs →
  execute statement w
  = (match r with
     | Fails code => Raise (BackendError code)
     | Result one rowid => Return (one, rowid)
     end, sent statement rs w).
Proof.
  intros Hr. unfold execute, next_response. rewrite Hr. by destruct r.
Qed.

Lemma key_of_values w obj :
  key_of w obj
  = (λ name, default VNone (oi_values (info_of w obj) !! name))
      <$> primary_key (obj_class obj).
Proof. reflexivity. Qed.

(** Flushing an object that is scheduled to be added and lacks the
    values of some columns.  The INSERT gives the columns that have a
    value; then one SELECT asks for the missing columns, by the identity
    of the inserted row when a primary-key column is among them and by
    the primary key otherwise.  Its row is written to the missing
    columns; the object is cached under the primary key it has then,
    alive, notified of changes, checkpointed and clean. *)
Theorem flush_add_fills_missing_values (w : World) (obj : Obj)
    (one : option (list Value)) (rowid rowid' : nat) (row : list Value)
    (rs : list Response) :
  let i := info_of w obj in
  let cls_info := obj_class obj in
  let defined := omap (λ name, (name,.) <$> oi_values i !! name)
                      (columns cls_info) in
  let missing := filter (λ name, oi_values i !! name = None)
                        (columns cls_info) in
  let where_ :=
    if bool_decide (None ∈ (λ name, oi_values i !! name) <$> primary_key cls_info)
    then insert_identity rowid
    else compare_columns (primary_key cls_info)
                         (get_value i <$> primary_key cls_info) in
  obj ∈ _dirty (self w) →
  oi_pending i = Some PENDING_ADD →
  oi_primary_values i = None →
  oi_changed_hook i = false →
  missing ≠ [] →
  responses (_connection (self w))
  = Result one rowid :: Result (Some row) rowid' :: rs →
  ∃ w',
    _flush_one obj w = (Return tt, w') ∧
    executed (_connection (self w'))
    = executed (_connection (self w))
      ++ [Insert defined.*1 defined.*2 (table cls_info);
          Select missing where_ None None] ∧
    (NoDup (columns cls_info) →
     ∀ n name v, missing !! n = Some name → row !! n = Some v →
                 oi_values (info_of w' obj) !! name = Some v) ∧
    (∀ name, name ∉ take (length row) missing →
             oi_values (info_of w' obj) !! name = oi_values i !! name) ∧
    oi_checkpoint (info_of w' obj) = oi_values (info_of w' obj) ∧
    oi_primary_values (info_of w' obj) = Some (key_of w' obj) ∧
    _cache (self w')
    = <[(cls_info, key_of w' obj) := obj]> (_cache (self w)) ∧
    oi_changed_hook (info_of w' obj) = true ∧
    oi_pending (info_of w' obj) = None ∧
    (obj ∉ _dirty (self w')) ∧
    (obj ∉ _ghosts (self w')) ∧
    flushed w' = flushed w ++ [obj].
Proof.
  intros i cls_info defined missing where_ Hd Hp Hpv Hhook Hmiss Hresp.
  rewrite _flush_one_dirty by done. unfold flush_action. fold i. rewrite Hp.
  unfold flush_add. cbv zeta. fold cls_info. fold defined.
  unfold bind at 1. unfold bind at 1.
  rewrite (execute_answers _ (popped obj w) (Result one rowid)
             (Result (Some row) rowid' :: rs)) by done.
  set (w1 := sent _ _ (popped obj w)).
  assert (Hi1 : info_of w1 obj = set_oi_pending None i).
  { subst w1. cbn. by rewrite lookup_info_insert_eq. }
  assert (Hfill : _fill_missing_values obj (one, rowid) w1
    = (_set_values obj missing (Some row))
        (sent (Select missing where_ None None) rs w1)).
  { unfold _fill_missing_values. unfold bind at 1, get_obj_info, gets at 1.
    cbn [fst snd]. rewrite Hi1. cbn [oi_values set_oi_pending].
    fold cls_info. fold missing.
    destruct missing as [|m ms] eqn:Hm; [done|]. rewrite <- Hm.
    unfold bind. unfold get_value. cbn [oi_values set_oi_pending snd].
    by rewrite (execute_answers _ w1 (Result (Some row) rowid') rs). }
  unfold bind at 1. rewrite Hfill. clear Hfill.
  set (w2 := sent _ rs w1).
  assert (Hi2 : info_of w2 obj = set_oi_pending None i).
  { exact Hi1. }
  assert (Hvals : ∀ vals : gmap ColName Value,
    (NoDup (columns cls_info) →
     ∀ n name v, missing !! n = Some name → row !! n = Some v →
                 written vals (zip missing row) !! name = Some v) ∧
    (∀ name, name ∉ take (length row) missing →
             written vals (zip missing row) !! name = vals !! name)).
  { intros vals. split.
    - intros Hnd n name v Hc Hr.
      apply (lookup_written _ _ n).
      + rewrite fst_zip_take. apply NoDup_take. by apply NoDup_filter.
      + rewrite lookup_zip_with. by rewrite Hc, Hr.
    - intros name Hn. apply lookup_written_other. by rewrite fst_zip_take. }
  destruct (Hvals (oi_values i)) as [Hv1 Hv2]. clear Hvals.
  assert (Hset : ∃ w3,
    _set_values obj missing (Some row) w2 = (Return tt, w3) ∧
    self w3 = self w2 ∧ next_id w3 = next_id w2 ∧ flushed w3 = flushed w2 ∧
    info_of w3 obj
    = set_oi_values (written (oi_values i) (zip missing row))
                    (set_oi_pending None i)).
  { unfold _set_values.
    destruct (decide (zip missing row = [])) as [Hz|Hz].
    - rewrite Hz. exists w2. by split_and!.
    - rewrite for_each_set_value by done. eexists. split; [done|].
      unfold wrote. rewrite Hi2. cbn. rewrite Hhook, lookup_info_insert_eq.
      by split_and!. }
  destruct Hset as (w3 & Hset & Hself3 & Hnext3 & Hfl3 & Hi3).
  rewrite Hset. clear Hset.
  unfold bind at 1. unfold _enable_change_notification at 1.
  unfold update_info at 1, modify at 1. cbn [fst snd].
  unfold bind at 1. unfold _set_alive at 1, modify_store at 1, modify at 1.
  cbn [fst snd]. unfold bind at 1.
  rewrite _add_to_cache_eq. cbn [infos set_infos set_self].
  rewrite lookup_info_insert_eq, Hi3. cbn [oi_primary_values set_oi_changed_hook
    set_oi_values set_oi_pending]. rewrite Hpv.
  rewrite decide_False by done.
  unfold checkpoint, emit_flushed, update_info, modify, bind.
  eexists. split; [done|]. unfold recached. rewrite !key_of_values. cbn.
  rewrite !lookup_info_insert_eq. cbn. rewrite Hself3, Hfl3. cbn.
  split_and!; try done.
  - by rewrite <- app_assoc.
  - rewrite elem_of_dirty_remove. tauto.
  - set_solver.
Qed.

(** Flushing an object that has no pending flag and has changed.  The
    UPDATE sets the columns whose value differs from the checkpoint and
    is keyed by the primary key under which the object is cached, not by
    the one it has now.  When the primary key has not changed the cache
    stays as it is.  When it has changed, the entry of the object moves
    from the old key to the new one; if the cache has no entry under the
    old key, the flush raises [KeyError] after the UPDATE has been
    executed.  When the flush returns, the values are the checkpoint and
    the object is clean. *)
Theorem flush_update_moves_cache_entry (w : World) (obj : Obj) (old : Key)
    (one : option (list Value)) (rowid : nat) (rs : list Response) :
  let i := info_of w obj in
  let cls_info := obj_class obj in
  let sets := omap (λ name, (name,.) <$> get_change i name)
                   (columns cls_info) in
  let new := key_of w obj in
  obj ∈ _dirty (self w) →
  oi_pending i = None →
  oi_primary_values i = Some old →
  sets ≠ [] →
  responses (_connection (self w)) = Result one rowid :: rs →
  let w' := snd (_flush_one obj w) in
  executed (_connection (self w'))
  = executed (_connection (self w))
    ++ [Update sets (compare_columns (primary_key cls_info) old)
               (table cls_info)] ∧
  (new ≠ old → _cache (self w) !! (cls_info, old) = None →
   fst (_flush_one obj w) = Raise KeyError ∧
   _cache (self w') = _cache (self w) ∧
   oi_checkpoint (info_of w' obj) = oi_checkpoint i) ∧
  (new = old ∨ is_Some (_cache (self w) !! (cls_info, old)) →
   fst (_flush_one obj w) = Return tt ∧
   _cache (self w')
   = (if decide (new = old) then _cache (self w)
      else <[(cls_info, new) := obj]> (delete (cls_info, old) (_cache (self w)))) ∧
   oi_primary_values (info_of w' obj) = Some new ∧
   oi_values (info_of w' obj) = oi_values i ∧
   oi_checkpoint (info_of w' obj) = oi_values i ∧
   (obj ∉ _dirty (self w')) ∧
   flushed w' = flushed w ++ [obj]).
Proof.
  intros i cls_info sets new Hd Hp Hpv Hsets Hresp.
  assert (Hcc : check_changed i = true).
  { apply bool_decide_eq_true_2. intros Heq.
    destruct sets as [|[name v] l] eqn:Hs; [done|].
    assert (Hin : (name, v) ∈ sets) by (rewrite Hs; left).
    apply list_elem_of_omap in Hin as (name' & _ & Hch).
    unfold get_change in Hch. by rewrite decide_True in Hch by (by rewrite Heq). }
  set (statement := Update sets (compare_columns (primary_key cls_info) old)
                           (table cls_info)).
  set (w1 := sent statement rs (popped obj w)).
  assert (Hi1 : info_of w1 obj = set_oi_pending None i).
  { subst w1. cbn. by rewrite lookup_info_insert_eq. }
  assert (Hkey : key_of w1 obj = new).
  { apply key_of_eq. by rewrite Hi1. }
  assert (Heq : _flush_one obj w
    = match _add_to_cache obj w1 with
      | (Return _, w2) => (checkpoint obj ;; emit_flushed obj) w2
      | (Raise e, w2) => (Raise e, w2)
      end).
  { rewrite _flush_one_dirty by done. unfold flush_action. fold i. rewrite Hp.
    unfold flush_update. rewrite Hcc. fold cls_info. fold sets.
    destruct sets as [|s l] eqn:Hs; [done|].
    assert (Hold : primary_values_of obj (popped obj w)
                   = (Return old, popped obj w)).
    { unfold primary_values_of, popped. unfold_monad. cbn.
      rewrite lookup_info_insert_eq. cbn. fold i. by rewrite Hpv. }
    rewrite !bind_assoc. unfold bind at 1. rewrite Hold.
    rewrite bind_assoc. unfold bind at 1.
    rewrite (execute_answers _ (popped obj w) (Result one rowid) rs) by done.
    unfold bind. reflexivity. }
  cbn zeta. rewrite Heq. clear Heq.
  rewrite _add_to_cache_eq, Hkey, Hi1.
  cbn [oi_primary_values set_oi_pending]. rewrite Hpv.
  assert (Hc1 : _cache (self w1) = _cache (self w)) by done.
  rewrite Hc1.
  destruct (decide (Some new = Some old)) as [[= Hsame]|Hdiff].
  - unfold checkpoint, emit_flushed, update_info, modify, bind. cbn.
    rewrite !lookup_info_insert_eq. cbn. fold i.
    split; [done|]. split; [by intros Hne|]. intros _.
    rewrite decide_True by done.
    split_and!; try done; [congruence|]. rewrite elem_of_dirty_remove. tauto.
  - assert (Hne : new ≠ old) by congruence.
    fold cls_info.
    destruct (_cache (self w) !! (cls_info, old)) as [c|] eqn:Hold.
    + unfold checkpoint, emit_flushed, update_info, modify, bind, recached.
      rewrite Hkey. cbn. rewrite !lookup_info_insert_eq. cbn. fold i.
      split; [done|]. split; [by intros _ ?|]. intros _.
      rewrite decide_False by done.
      split_and!; try done. rewrite elem_of_dirty_remove. tauto.
    + cbn. rewrite lookup_info_insert_eq. cbn. fold i.
      split; [done|]. split; [done|].
      intros [?|[? ?]]; done.
Qed.

(* ===================================================================== *)
(** * Further properties of storm/database.py *)
(* ===================================================================== *)

Section literals.
Import database.

(** The elements at the even positions of a list, and those at the odd
    positions.  When a statement is split at its quotes, the tokens at
    the odd positions are the bodies of its single-quoted literals (the
    last one is not closed when the number of quotes is odd), the tokens
    at the even positions are the text outside them. *)
Fixpoint evens {A} (l : list A) : list A :=
  match l with
  | [] => []
  | x :: l' => x :: match l' with
                    | [] => []
                    | _ :: l'' => evens l''
                    end
  end.

Definition odds {A} (l : list A) : list A := evens (tail l).

Lemma evens_odds_map f ts :
  (evens (map_even f ts) = f <$> evens ts ∧ odds (map_even f ts) = odds ts) ∧
  length (map_even f ts) = length ts.
Proof.
  induction ts as [ts IH] using (induction_ltof1 _ length). unfold ltof in IH.
  destruct ts as [|t [|u ts]]; [done..|].
  destruct (IH ts) as [[IH1 IH2] IH3]; [cbn; lia|].
  unfold odds in *. cbn. rewrite IH1, IH3. repeat split.
  f_equal. by destruct ts as [|? [|? ?]].
Qed.

Lemma split_no_quote s : Forall (λ t, quote ∉ t) (split quote s).
Proof.
  induction s as [|c s IH]; cbn.
  - repeat constructor. apply not_elem_of_nil.
  - case_decide as Hc.
    + constructor; [apply not_elem_of_nil|done].
    + destruct (split quote s) as [|t ts]; [repeat constructor|].
      * by intros [?|?%elem_of_nil]%elem_of_cons.
      * apply Forall_cons in IH as [Ht Hts]. constructor; [|done].
        by intros [?|?]%elem_of_cons.
Qed.

Lemma split_one t : quote ∉ t → split quote t = [t].
Proof.
  induction t as [|c t IH]; intros Hq; [done|].
  apply not_elem_of_cons in Hq as [Hc Hq]. cbn.
  rewrite decide_False by done. by rewrite IH.
Qed.

Lemma split_app_quote t s :
  quote ∉ t → split quote (t ++ quote :: s) = t :: split quote s.
Proof.
  induction t as [|c t IH]; intros Hq; cbn.
  - by rewrite decide_True.
  - apply not_elem_of_cons in Hq as [Hc Hq].
    rewrite decide_False by done. by rewrite IH.
Qed.

(** Joining tokens without quotes and splitting again gives the
    tokens. *)
Lemma split_join ts :
  ts ≠ [] → Forall (λ t, quote ∉ t) ts → split quote (join quote ts) = ts.
Proof.
  induction ts as [|t ts IH]; intros Hne Hq; [done|].
  apply Forall_cons in Hq as [Ht Hts].
  destruct ts as [|u ts]; cbn [join].
  - by apply split_one.
  - rewrite split_app_quote by done. f_equal. by apply IH.
Qed.

Lemma replace_skip_no_quote old new skip t :
  quote ∉ new → quote ∉ t → quote ∉ replace_skip old new skip t.
Proof.
  intros Hn. revert skip. induction t as [|c t IH]; intros skip Ht; [done|].
  apply not_elem_of_cons in Ht as [Hc Ht]. cbn.
  destruct skip as [|k]; [|by apply IH].
  destruct (startswith old (c :: t)).
  - rewrite elem_of_app. intros [?|?]; [done|]. by eapply IH.
  - rewrite not_elem_of_cons. split; [done|]. by apply IH.
Qed.

Lemma replace_no_quote old new t :
  quote ∉ new → quote ∉ t → quote ∉ replace old new t.
Proof.
  intros Hn Ht. unfold replace. destruct old; [|by apply replace_skip_no_quote].
  rewrite elem_of_app. intros [?|Hin]; [done|].
  apply list_elem_of_In, in_flat_map in Hin as (c & Hc & Hin).
  apply list_elem_of_In in Hc, Hin.
  apply elem_of_cons in Hin as [Heq|?]; [|done]. apply Ht. by rewrite Heq.
Qed.

Lemma map_even_Forall (P : str → Prop) f ts :
  (∀ t, P t → P (f t)) → Forall P ts → Forall P (map_even f ts).
Proof.
  intros Hf. induction ts as [ts IH] using (induction_ltof1 _ length).
  unfold ltof in IH. intros Hts.
  destruct ts as [|t [|u ts]]; [done| |].
  - apply Forall_cons in Hts as [? _]. repeat constructor. auto.
  - apply Forall_cons in Hts as [? [? ?]%Forall_cons]. cbn.
    repeat constructor; auto. apply IH; [cbn; lia|done].
Qed.

(** The conversion keeps the literals of a statement, whatever the
    source mark is, when the target mark holds no quote: split at the
    quotes, the converted statement has as many tokens as the statement;
    its tokens at odd positions, the bodies of the literals, are those
    of the statement; and, when the conversion takes place, its tokens
    at even positions are those of the statement with the marks
    replaced. *)
Theorem convert_param_marks_keeps_literals
    (statement from_mark to_mark : str) :
  quote ∉ to_mark →
  length (split quote (convert_param_marks statement from_mark to_mark))
  = length (split quote statement) ∧
  odds (split quote (convert_param_marks statement from_mark to_mark))
  = odds (split quote statement) ∧
  (from_mark ≠ to_mark → contains from_mark statement = true →
   evens (split quote (convert_param_marks statement from_mark to_mark))
   = replace from_mark to_mark <$> evens (split quote statement)).
Proof.
  intros Hq. unfold convert_param_marks. cbv zeta.
  assert (Hsplit :
    split quote (join quote (map_even (replace from_mark to_mark)
                                      (split quote statement)))
    = map_even (replace from_mark to_mark) (split quote statement)).
  { apply split_join.
    - apply map_even_nonempty, split_nonempty.
    - apply map_even_Forall; [|apply split_no_quote].
      intros t. by apply replace_no_quote. }
  destruct (evens_odds_map (replace from_mark to_mark) (split quote statement))
    as [[He Ho] Hl].
  destruct (bool_decide (from_mark = to_mark)) eqn:Heq; cbn.
  { apply bool_decide_eq_true in Heq. by split_and!. }
  destruct (contains from_mark statement) eqn:Hc; cbn.
  - rewrite Hsplit. by split_and!.
  - by split_and!.
Qed.

End literals.

(** ** Iterating over a result *)

Section Result_iter.
Import database.
Context {V : Type}.

Lemma iter_fetchmany_all (n fuel : nat) (l : list (Row V)) :
  0 < n → length l < fuel →
  iter_fetchmany fuel (mkCursor l n) = Some (l, mkCursor [] n).
Proof.
  intros Hn. revert l. induction fuel as [|fuel IH]; intros l Hl; [lia|].
  destruct n as [|n]; [lia|]. cbn [iter_fetchmany fetchmany arraysize rows].
  destruct (take (S n) l) as [|r rs] eqn:Htake.
  - destruct l as [|r l]; [by rewrite drop_nil|]. discriminate Htake.
  - rewrite IH.
    + by rewrite <- Htake, take_drop.
    + rewrite length_drop. destruct l; [by rewrite take_nil in Htake|].
      cbn in *. lia.
Qed.

Lemma iter_fetchmany_unbounded (fuel : nat) (l : list (Row V)) :
  length l < fuel →
  iter_fetchmany fuel (mkCursor l 0) = Some (l, mkCursor [] 0).
Proof.
  intros Hl. destruct fuel as [|fuel]; [lia|].
  cbn [iter_fetchmany fetchmany arraysize rows].
  destruct l as [|r l]; [done|].
  destruct fuel as [|fuel]; [cbn in Hl; lia|].
  cbn [iter_fetchmany fetchmany arraysize rows]. by rewrite app_nil_r.
Qed.

Lemma iter_fetchone_upto (fuel : nat) (l1 l2 : list (Row V)) :
  Forall (λ r, r ≠ []) l1 → head l2 = Some [] ∨ l2 = [] →
  length (l1 ++ l2) < fuel →
  iter_fetchone fuel (mkCursor (l1 ++ l2) 1) = Some (l1, mkCursor (tail l2) 1).
Proof.
  intros Hl1 Hl2. revert fuel. induction Hl1 as [|r l1 Hr _ IH]; intros fuel Hf.
  - destruct fuel as [|fuel]; [lia|]. cbn.
    destruct Hl2 as [Hl2| ->]; [|done].
    by destruct l2 as [|[|] ?].
  - destruct fuel as [|fuel]; [cbn in Hf; lia|]. cbn.
    destruct r as [|v r]; [done|].
    rewrite IH; [done|]. cbn in Hf. lia.
Qed.

(** Iterating over a result to its end, with fuel for more iterations
    than the cursor has rows.  A cursor that fetches two or more rows at
    a time yields all its rows, in order, and is left empty; so does a
    cursor whose [arraysize] is 0, which fetches all its rows at once.
    A cursor that fetches one row at a time yields its rows up to the
    first empty row, which it takes and does not yield; it yields all
    its rows when none is empty. *)
Theorem Result_iter_yields_the_rows (c : Cursor V) (fuel : nat) :
  length (rows c) < fuel →
  (2 ≤ arraysize c →
   __iter__ fuel c = Some (rows c, mkCursor [] (arraysize c))) ∧
  (arraysize c = 1 →
   ∀ l1 l2, rows c = l1 ++ l2 →
            Forall (λ r, r ≠ []) l1 →
            head l2 = Some [] ∨ l2 = [] →
            __iter__ fuel c = Some (l1, mkCursor (tail l2) 1)) ∧
  (arraysize c = 0 → __iter__ fuel c = Some (rows c, mkCursor [] 0)).
Proof.
  intros Hf. destruct c as [l n]. cbn in *. unfold __iter__. cbn.
  split_and!.
  - intros Hn. rewrite decide_False by lia. apply iter_fetchmany_all; lia.
  - intros -> l1 l2 -> Hl1 Hl2. rewrite decide_True by done.
    by apply iter_fetchone_upto.
  - intros ->. rewrite decide_False by lia.
    by apply iter_fetchmany_unbounded.
Qed.

End Result_iter.

(* ===================================================================== *)
(** * The further properties on concrete worlds *)
(* ===================================================================== *)

(** The world [w] over a connection that will answer as [rs] say. *)
Definition answering (rs : list Response) (w : World) : World :=
  set_self (set_connection
    (mkConnection rs (executed (_connection (self w)))
                  (commits (_connection (self w)))) (self w)) w.

(** [foo 1] is added to a store whose connection fails. *)
Definition one_added_failing : World :=
  after (set_fields (foo 1) 10 "a" ;; add (foo 1)) (new_world [Fails 7]).

(** [foo 1] of [three_flushed] is in the store; the new [foo 7] is
    not. *)
Lemma foreign_and_present_objects_rejected_witness :
  add (foo 1) three_flushed
  = (Raise (StoreError is_already_in_the_store), three_flushed) ∧
  remove (foo 7) three_flushed
  = (Raise (StoreError is_not_in_this_store), three_flushed) ∧
  reload (foo 7) three_flushed
  = (Raise (StoreError is_not_in_this_store), three_flushed).
Proof.
  destruct (foreign_and_present_objects_rejected three_flushed (foo 1))
    as [Hadd _].
  destruct (foreign_and_present_objects_rejected three_flushed (foo 7))
    as [_ Hother].
  split.
  - apply Hadd; [vm_compute; reflexivity..|]. decide_by_computation.
  - apply Hother. vm_compute. discriminate.
Defined.

Lemma add_then_remove_leaves_ghost_witness :
  oi_store (info_of (new_world []) (foo 1)) = None ∧
  oi_pending (info_of (new_world []) (foo 1)) = None ∧
  ∃ w1 w2 w3,
    add (foo 1) (new_world []) = (Return tt, w1) ∧
    remove (foo 1) w1 = (Return tt, w2) ∧
    foo 1 ∈ _ghosts (self w2) ∧
    oi_store (info_of w2 (foo 1)) = Some (store_id (self w2)) ∧
    executed (_connection (self w2))
    = executed (_connection (self (new_world []))) ∧
    add (foo 1) w2 = (Return tt, w3) ∧
    foo 1 ∉ _ghosts (self w3) ∧
    oi_pending (info_of w3 (foo 1)) = Some PENDING_ADD ∧
    foo 1 ∈ _dirty (self w3).
Proof.
  assert (Hs : oi_store (info_of (new_world []) (foo 1)) = None)
    by (vm_compute; reflexivity).
  assert (Hp : oi_pending (info_of (new_world []) (foo 1)) = None)
    by (vm_compute; reflexivity).
  split; [exact Hs|]. split; [exact Hp|].
  exact (add_then_remove_leaves_ghost (new_world []) (foo 1) Hs Hp).
Defined.

(** The ghost [foo 1] of [one_removed] is removed once more. *)
Lemma remove_of_ghost_breaks_flush_witness :
  oi_store (info_of one_removed (foo 1)) = Some (store_id (self one_removed)) ∧
  oi_pending (info_of one_removed (foo 1)) = None ∧
  oi_primary_values (info_of one_removed (foo 1)) = None ∧
  ∃ w1,
    remove (foo 1) one_removed = (Return tt, w1) ∧
    fst (_flush_one (foo 1) w1) = Raise KeyError ∧
    executed (_connection (self (snd (_flush_one (foo 1) w1))))
    = executed (_connection (self one_removed)) ∧
    fst (flush w1) ≠ Return tt.
Proof.
  assert (Hs : oi_store (info_of one_removed (foo 1))
               = Some (store_id (self one_removed)))
    by (vm_compute; reflexivity).
  assert (Hp : oi_pending (info_of one_removed (foo 1)) = None)
    by (vm_compute; reflexivity).
  assert (Hpv : oi_primary_values (info_of one_removed (foo 1)) = None)
    by (vm_compute; reflexivity).
  split; [exact Hs|]. split; [exact Hp|]. split; [exact Hpv|].
  exact (remove_of_ghost_breaks_flush one_removed (foo 1) Hs Hp Hpv).
Defined.

(** The INSERT of [foo 1] fails with the code 7. *)
Lemma failed_statement_is_not_retried_witness :
  fst (_flush_one (foo 1) one_added_failing) = Raise (BackendError 7) ∧
  foo 1 ∉ _dirty (self (snd (_flush_one (foo 1) one_added_failing))) ∧
  oi_pending (info_of (snd (_flush_one (foo 1) one_added_failing)) (foo 1))
  = None.
Proof.
  assert (Hd : foo 1 ∈ _dirty (self one_added_failing))
    by decide_by_computation.
  assert (Hst : has_statement (info_of one_added_failing (foo 1)) (foo 1)).
  { unfold has_statement.
    assert (Hp : oi_pending (info_of one_added_failing (foo 1))
                 = Some PENDING_ADD) by (vm_compute; reflexivity).
    by rewrite Hp. }
  assert (Hr : responses (_connection (self one_added_failing)) = [Fails 7])
    by (vm_compute; reflexivity).
  destruct (failed_statement_is_not_retried one_added_failing (foo 1) 7 []
              Hd Hst Hr) as (H1 & H2 & H3 & _).
  split; [exact H1|]. split; [exact H2|exact H3].
Defined.

(** A second flush of [three_in_line]. *)
Lemma flush_twice_is_flush_once_witness :
  flush three_flushed = (Return tt, three_flushed).
Proof.
  assert (Hflush : fst (flush three_in_line) = Return tt)
    by (vm_compute; reflexivity).
  apply returns_eq in Hflush.
  exact (flush_twice_is_flush_once three_in_line three_flushed Hflush).
Defined.

(** With the circle of [two_in_circle] nothing is committed. *)
Lemma commit_flushes_first_witness :
  fst (commit two_in_circle) = Raise (StoreError cant_flush_ordering_loop) ∧
  commits (_connection (self (snd (commit two_in_circle)))) = 0.
Proof.
  destruct (commit_flushes_first two_in_circle) as [Hraise _].
  assert (Hflush : fst (flush two_in_circle)
                   = Raise (StoreError cant_flush_ordering_loop))
    by (vm_compute; reflexivity).
  destruct (Hraise _ Hflush) as [Heq Hc]. clear Hraise Hflush.
  split.
  - rewrite Heq. reflexivity.
  - rewrite Hc. vm_compute. reflexivity.
Defined.

(** A statement that is executed while three objects wait to be added
    comes after their INSERTs. *)
Lemma execute_flushes_first_witness :
  executed (_connection (self (snd (Store_execute (Delete (compare_columns [] []) "foo")
                                                  three_in_line))))
  = executed (_connection (self three_flushed))
    ++ [Delete (compare_columns [] []) "foo"] ∧
  length (executed (_connection (self three_flushed))) = 3.
Proof.
  destruct (execute_flushes_first three_in_line
              (Delete (compare_columns [] []) "foo")) as [_ Hret].
  assert (Hflush : fst (flush three_in_line) = Return tt)
    by (vm_compute; reflexivity).
  destruct (Hret Hflush) as (_ & Hex & _).
  split; [exact Hex|]. vm_compute. reflexivity.
Defined.

(** [three_flushed], when the row of [foo 1] has a new title in the
    database, and when the row is gone. *)
Definition title_changed : World :=
  answering [Result (Some [VInt 10; VStr "z"]) 0] three_flushed.

Definition row_gone : World := answering [Result None 0] three_flushed.

(** [foo 1] is reloaded with its new title. *)
Lemma reload_discards_changes_witness :
  ∃ w',
    reload (foo 1) title_changed = (Return tt, w') ∧
    oi_values (info_of w' (foo 1)) !! "title" = Some (VStr "z") ∧
    oi_checkpoint (info_of w' (foo 1)) = oi_values (info_of w' (foo 1)) ∧
    _dirty (self w') = dirty_remove (foo 1) (_dirty (self title_changed)).
Proof.
  assert (Hs : oi_store (info_of title_changed (foo 1))
               = Some (store_id (self title_changed)))
    by (vm_compute; reflexivity).
  assert (Hpv : oi_primary_values (info_of title_changed (foo 1))
                = Some [VInt 10])
    by (vm_compute; reflexivity).
  assert (Hr : responses (_connection (self title_changed))
               = [Result (Some [VInt 10; VStr "z"]) 0])
    by (vm_compute; reflexivity).
  assert (Hnd : NoDup (columns (obj_class (foo 1)))).
  { apply (bool_decide_unpack _). vm_compute. exact I. }
  destruct (reload_discards_changes title_changed (foo 1) [VInt 10]
              [VInt 10; VStr "z"] 0 [] Hs Hpv Hr)
    as (w' & Hreload & _ & Hvals & _ & Hcp & _ & Hd & _).
  clear Hs Hpv Hr.
  exists w'. split; [exact Hreload|]. split.
  - apply (Hvals Hnd 1 "title"); reflexivity.
  - split; [exact Hcp|exact Hd].
Defined.

(** The row of [foo 1] is gone. *)
Lemma reload_without_row_raises_TypeError_witness :
  fst (reload (foo 1) row_gone) = Raise TypeError.
Proof.
  assert (Hs : oi_store (info_of row_gone (foo 1))
               = Some (store_id (self row_gone)))
    by (vm_compute; reflexivity).
  assert (Hpv : oi_primary_values (info_of row_gone (foo 1)) = Some [VInt 10])
    by (vm_compute; reflexivity).
  assert (Hr : responses (_connection (self row_gone)) = [Result None 0])
    by (vm_compute; reflexivity).
  destruct (reload_without_row_raises_TypeError row_gone (foo 1) [VInt 10] 0 []
              Hs Hpv Hr) as [H _].
  exact H.
Defined.

(** [foo 1] is found in the cache of [three_in_line] once it is
    flushed. *)
Lemma get_caches_what_it_returns_witness :
  ∃ w1 k,
    get Foo (KeyScalar (VInt 10)) three_in_line = (Return (Some (foo 1)), w1) ∧
    _cache (self w1) !! (Foo, k) = Some (foo 1) ∧
    _dirty (self w1) = [] ∧
    (length k = length (primary_key Foo) →
     get Foo (KeyTuple k) w1 = (Return (Some (foo 1)), w1)).
Proof.
  assert (Hu : unused three_in_line (mkObj (next_id three_in_line) Foo)).
  { split; [vm_compute; reflexivity|]. decide_by_computation. }
  assert (Hget : fst (get Foo (KeyScalar (VInt 10)) three_in_line)
                 = Return (Some (foo 1)))
    by (vm_compute; reflexivity).
  apply returns_eq in Hget.
  destruct (get_caches_what_it_returns three_in_line _ Foo
              (KeyScalar (VInt 10)) (foo 1) Hu Hget) as (k & H).
  eexists _, k. split; [exact Hget|exact H].
Defined.

(** A statement with two literals, one of them not closed. *)
Lemma convert_param_marks_keeps_literals_witness :
  odds (database.split database.quote
          (database.convert_param_marks (sql "a=? AND b='?' OR c=? '?")
                                        (sql "?") (sql "%s")))
  = [sql "?"; sql "?"].
Proof.
  assert (Hq : database.quote ∉ sql "%s").
  { intros Hin. apply list_elem_of_In in Hin. simpl in Hin.
    destruct Hin as [Hin|[Hin|[]]]; discriminate Hin. }
  destruct (convert_param_marks_keeps_literals
              (sql "a=? AND b='?' OR c=? '?") (sql "?") (sql "%s") Hq)
    as (_ & Ho & _).
  rewrite Ho. reflexivity.
Defined.

(** Three rows, fetched two at a time. *)
Lemma Result_iter_yields_the_rows_witness :
  database.__iter__ 4 (database.mkCursor [[1]; [2]; [3]] 2)
  = Some ([[1]; [2]; [3]], database.mkCursor [] 2).
Proof.
  destruct (Result_iter_yields_the_rows
              (database.mkCursor [[1]; [2]; [3]] 2) 4) as [H _].
  - cbn. lia.
  - apply H. cbn. lia.
Defined.

(** A new [foo 1] with a title and no id is added; the INSERT will
    answer with the row identity 5, the SELECT with the id 42. *)
Definition one_added_without_id : World :=
  after (set_value (foo 1) "title" (Some (VStr "a")) ;; add (foo 1))
        (new_world [Result None 5; Result (Some [VInt 42]) 0]).

(** The id of the flushed [foo 1] is changed from 10 to 11. *)
Definition id_changed : World :=
  answering [Result None 0]
            (after (set_value (foo 1) "id" (Some (VInt 11))) three_flushed).

Lemma flush_add_fills_missing_values_witness :
  ∃ w',
    _flush_one (foo 1) one_added_without_id = (Return tt, w') ∧
    executed (_connection (self w'))
    = [Insert ["title"] [VStr "a"] "foo";
       Select ["id"] (insert_identity 5) None None] ∧
    oi_values (info_of w' (foo 1)) !! "id" = Some (VInt 42) ∧
    _cache (self w')
    = <[(Foo, key_of w' (foo 1)) := foo 1]> (_cache (self one_added_without_id)).
Proof.
  assert (Hd : foo 1 ∈ _dirty (self one_added_without_id))
    by decide_by_computation.
  assert (Hp : oi_pending (info_of one_added_without_id (foo 1))
               = Some PENDING_ADD) by (vm_compute; reflexivity).
  assert (Hpv : oi_primary_values (info_of one_added_without_id (foo 1)) = None)
    by (vm_compute; reflexivity).
  assert (Hh : oi_changed_hook (info_of one_added_without_id (foo 1)) = false)
    by (vm_compute; reflexivity).
  assert (Hm : filter (λ name, oi_values (info_of one_added_without_id (foo 1))
                               !! name = None) (columns (obj_class (foo 1)))
               = ["id"]) by (vm_compute; reflexivity).
  assert (Hm' : filter (λ name, oi_values (info_of one_added_without_id (foo 1))
                                !! name = None) (columns (obj_class (foo 1)))
                ≠ []) by (rewrite Hm; discriminate).
  assert (Hr : responses (_connection (self one_added_without_id))
               = [Result None 5; Result (Some [VInt 42]) 0])
    by (vm_compute; reflexivity).
  assert (Hnd : NoDup (columns (obj_class (foo 1)))).
  { apply (bool_decide_unpack _). vm_compute. exact I. }
  destruct (flush_add_fills_missing_values one_added_without_id (foo 1)
              None 5 0 [VInt 42] [] Hd Hp Hpv Hh Hm' Hr)
    as (w' & Hflush & Hex & Hvals & _ & _ & _ & Hcache & _).
  clear Hd Hp Hpv Hh Hm' Hr.
  exists w'. split; [exact Hflush|]. split; [|split].
  - rewrite Hex. vm_compute. reflexivity.
  - apply (Hvals Hnd 0 "id"); [|reflexivity]. rewrite Hm. reflexivity.
  - exact Hcache.
Defined.

Lemma flush_update_moves_cache_entry_witness :
  fst (_flush_one (foo 1) id_changed) = Return tt ∧
  executed (_connection (self (snd (_flush_one (foo 1) id_changed))))
  = executed (_connection (self id_changed))
    ++ [Update [("id", VInt 11)] (compare_columns ["id"] [VInt 10]) "foo"] ∧
  oi_primary_values (info_of (snd (_flush_one (foo 1) id_changed)) (foo 1))
  = Some [VInt 11].
Proof.
  assert (Hd : foo 1 ∈ _dirty (self id_changed)) by decide_by_computation.
  assert (Hp : oi_pending (info_of id_changed (foo 1)) = None)
    by (vm_compute; reflexivity).
  assert (Hpv : oi_primary_values (info_of id_changed (foo 1)) = Some [VInt 10])
    by (vm_compute; reflexivity).
  assert (Hs : omap (λ name, (name,.) <$> get_change (info_of id_changed (foo 1)) name)
                    (columns (obj_class (foo 1)))
               = [("id", VInt 11)]) by (vm_compute; reflexivity).
  assert (Hs' : omap (λ name, (name,.) <$> get_change (info_of id_changed (foo 1)) name)
                     (columns (obj_class (foo 1))) ≠ [])
    by (rewrite Hs; discriminate).
  assert (Hr : responses (_connection (self id_changed)) = [Result None 0])
    by (vm_compute; reflexivity).
  assert (Hc : is_Some (_cache (self id_changed) !! (obj_class (foo 1), [VInt 10]))).
  { exists (foo 1). vm_compute. reflexivity. }
  assert (Hnew : key_of id_changed (foo 1) = [VInt 11])
    by (vm_compute; reflexivity).
  destruct (flush_update_moves_cache_entry id_changed (foo 1) [VInt 10]
              None 0 [] Hd Hp Hpv Hs' Hr) as (Hex & _ & Hret).
  destruct (Hret (or_intror Hc)) as (Hfst & _ & Hpv' & _).
  clear Hd Hp Hpv Hs' Hr Hc Hret.
  split; [exact Hfst|]. split.
  - rewrite Hex, Hs. reflexivity.
  - rewrite Hpv', Hnew. reflexivity.
Defined.

(** The three added objects of [three_in_line] are rolled back: the
    two constraints stay. *)
Lemma rollback_clears_dirty_and_ghosts_witness :
  _dirty (self (snd (rollback id three_in_line))) = [] ∧
  _ghosts (self (snd (rollback id three_in_line))) = ∅ ∧
  _order (self (snd (rollback id three_in_line))) = _order (self three_in_line) ∧
  size (_order (self three_in_line)) = 2.
Proof.
  destruct (rollback_clears_dirty_and_ghosts id three_in_line)
    as (Hret & Horder & _).
  assert (Hfst : fst (rollback id three_in_line) = Return tt)
    by (vm_compute; reflexivity).
  destruct (Hret Hfst) as [Hd Hg]. clear Hret Hfst.
  split; [exact Hd|]. split; [exact Hg|]. split; [exact Horder|].
  vm_compute. reflexivity.
Defined.

(* ===================================================================== *)
(** * Properties of storm/databases/sqlite.py *)
(* ===================================================================== *)

Section sqlite_properties.
Import sqlite.
Context {R : Type}.

(** What [_raw_execute] makes of the outcome of a call. *)
Definition result_of (o : Outcome R) : R + Raised :=
  match o with
  | Returns r => inl r
  | OperationalError message => inr (Operational message)
  | OtherError code => inr (Other code)
  end.

(** The connection after [n_calls] more calls of the driver with
    [statement], [n_reads] more readings of the clock and [n_sleeps]
    more sleeps. *)
Definition advanced (statement : str) (n_calls n_reads n_sleeps : nat)
    (c : Connection R) : Connection R :=
  mkConnection (_in_transaction c) (_timeout c) (answer c) (now c)
               (calls c + n_calls) (reads c + n_reads) (slept c + n_sleeps)
               (raw_log c ++ replicate n_calls statement).

Lemma advanced_step statement n_calls n_reads n_sleeps (c : Connection R) :
  advanced statement n_calls n_reads n_sleeps
    (mkConnection (_in_transaction c) (_timeout c) (answer c) (now c)
                  (S (calls c)) (S (reads c)) (S (slept c))
                  (raw_log c ++ [statement]))
  = advanced statement (S n_calls) (S n_reads) (S n_sleeps) c.
Proof.
  unfold advanced. cbn. rewrite <- app_assoc. cbn. f_equal; lia.
Qed.

Lemma retry_started_final k fuel statement t0 (c : Connection R) o :
  (∀ j, j < k → answer c (calls c + j) = OperationalError locked) →
  answer c (calls c + k) = o →
  o ≠ OperationalError locked →
  (∀ j, j < k → (now c (reads c + j) - t0 < _timeout c)%Z) →
  k < fuel →
  retry fuel statement (Some t0) c
  = Some (result_of o, advanced statement (S k) k k c).
Proof.
  revert fuel c. induction k as [|k IH]; intros fuel c Hlocked Ho Hfinal Hnow Hfuel;
    (destruct fuel as [|fuel]; [lia|]); cbn.
  - rewrite Nat.add_0_r in Ho. rewrite Ho.
    assert (Hc : mkConnection (_in_transaction c) (_timeout c) (answer c) (now c)
                   (S (calls c)) (reads c) (slept c) (raw_log c ++ [statement])
                 = advanced statement 1 0 0 c).
    { unfold advanced. cbn. f_equal; lia. }
    rewrite Hc. destruct o as [r|message|code]; try done. cbn.
    by rewrite bool_decide_eq_false_2 by congruence.
  - rewrite <- (Nat.add_0_r (calls c)) at 1. rewrite Hlocked by lia. cbn.
    rewrite bool_decide_eq_true_2 by done. cbn.
    rewrite bool_decide_eq_true_2
      by (specialize (Hnow 0 ltac:(lia)); by rewrite Nat.add_0_r in Hnow).
    unfold sleep. cbn. rewrite IH; cbn.
    + by rewrite advanced_step.
    + intros j Hj. rewrite <- (Hlocked (S j)) by lia. f_equal. lia.
    + rewrite <- Ho. f_equal. lia.
    + done.
    + intros j Hj. specialize (Hnow (S j) ltac:(lia)).
      by replace (S (reads c + j)) with (reads c + S j) by lia.
    + lia.
Qed.

Lemma retry_started_gives_up k fuel statement t0 (c : Connection R) :
  (∀ j, j ≤ k → answer c (calls c + j) = OperationalError locked) →
  (∀ j, j < k → (now c (reads c + j) - t0 < _timeout c)%Z) →
  ¬ (now c (reads c + k) - t0 < _timeout c)%Z →
  k < fuel →
  retry fuel statement (Some t0) c
  = Some (inr (Operational locked), advanced statement (S k) (S k) k c).
Proof.
  revert fuel c. induction k as [|k IH]; intros fuel c Hlocked Hnow Hlate Hfuel;
    (destruct fuel as [|fuel]; [lia|]); cbn.
  - rewrite <- (Nat.add_0_r (calls c)) at 1. rewrite Hlocked by lia. cbn.
    rewrite bool_decide_eq_true_2 by done. cbn.
    rewrite Nat.add_0_r in Hlate. rewrite bool_decide_eq_false_2 by done.
    do 2 f_equal. unfold advanced. cbn. f_equal; lia.
  - rewrite <- (Nat.add_0_r (calls c)) at 1. rewrite Hlocked by lia. cbn.
    rewrite bool_decide_eq_true_2 by done. cbn.
    rewrite bool_decide_eq_true_2
      by (specialize (Hnow 0 ltac:(lia)); by rewrite Nat.add_0_r in Hnow).
    unfold sleep. cbn. rewrite IH; cbn.
    + by rewrite advanced_step.
    + intros j Hj. rewrite <- (Hlocked (S j)) by lia. f_equal. lia.
    + intros j Hj. specialize (Hnow (S j) ltac:(lia)).
      by replace (S (reads c + j)) with (reads c + S j) by lia.
    + by replace (S (reads c + k)) with (reads c + S k) by lia.
    + lia.
Qed.

(** [_raw_execute], when [_enforce_transaction] has raised nothing and
    the first [k] calls with the statement fail with "database is
    locked".  The first failure starts the clock, and the statement is
    tried again at once; every later failure reads the clock and is
    followed by one sleep and one more try as long as less than the
    timeout has passed since the start.  If the next call gives
    anything else, a result or another error, that is what
    [_raw_execute] gives, after [k + 1] calls and [k - 1] sleeps.  If
    the next call fails in the same way and the timeout has passed,
    [_raw_execute] raises that error; this takes at least two calls,
    whatever the timeout is. *)
Theorem _raw_execute_retries_while_locked (statement : str)
    (c : Connection R) (k fuel : nat) :
  let c1 := snd (_enforce_transaction statement c) in
  fst (_enforce_transaction statement c) = None →
  (∀ j, j < k → answer c1 (calls c1 + j) = OperationalError locked) →
  (∀ j, 1 ≤ j < k →
        (now c1 (reads c1 + j) - now c1 (reads c1) < _timeout c1)%Z) →
  k < fuel →
  (answer c1 (calls c1 + k) ≠ OperationalError locked →
   _raw_execute fuel statement c
   = Some (result_of (answer c1 (calls c1 + k)),
           advanced statement (S k) k (k - 1) c1)) ∧
  (1 ≤ k →
   answer c1 (calls c1 + k) = OperationalError locked →
   ¬ (now c1 (reads c1 + k) - now c1 (reads c1) < _timeout c1)%Z →
   _raw_execute fuel statement c
   = Some (inr (Operational locked),
           advanced statement (S k) (S k) (k - 1) c1)).
Proof.
  intros c1 Hnone Hlocked Hnow Hfuel. unfold _raw_execute.
  destruct (_enforce_transaction statement c) as [[e|] c1'] eqn:Henf; [done|].
  cbn in c1. subst c1. clear Henf Hnone c. rename c1' into c.
  destruct fuel as [|fuel]; [lia|].
  destruct k as [|k].
  - split; [|lia]. intros Hfinal. cbn. rewrite Nat.add_0_r in *.
    assert (Hc : mkConnection (_in_transaction c) (_timeout c) (answer c) (now c)
                   (S (calls c)) (reads c) (slept c) (raw_log c ++ [statement])
                 = advanced statement 1 0 0 c).
    { unfold advanced. cbn. f_equal; lia. }
    rewrite Hc. destruct (answer c (calls c)) as [r|message|code]; try done.
    cbn. by rewrite bool_decide_eq_false_2 by congruence.
  - assert (Hfirst : answer c (calls c) = OperationalError locked).
    { specialize (Hlocked 0 ltac:(lia)). by rewrite Nat.add_0_r in Hlocked. }
    set (c2 := mkConnection (_in_transaction c) (_timeout c) (answer c) (now c)
                 (S (calls c)) (S (reads c)) (slept c) (raw_log c ++ [statement])).
    assert (Hstep : retry (S fuel) statement None c
                    = retry fuel statement (Some (now c (reads c))) c2).
    { cbn. rewrite Hfirst. cbn. by rewrite bool_decide_eq_true_2 by done. }
    rewrite Hstep.
    assert (Hadv : ∀ n_calls n_reads n_sleeps,
      advanced statement n_calls n_reads n_sleeps c2
      = advanced statement (S n_calls) (S n_reads) n_sleeps c).
    { intros. unfold advanced, c2. cbn. rewrite <- app_assoc. cbn.
      f_equal; lia. }
    assert (Hl2 : ∀ j, j < k → answer c2 (calls c2 + j) = OperationalError locked).
    { intros j Hj. cbn. rewrite <- (Hlocked (S j)) by lia. f_equal. lia. }
    assert (Hn2 : ∀ j, j < k →
      (now c2 (reads c2 + j) - now c (reads c) < _timeout c2)%Z).
    { intros j Hj. cbn. specialize (Hnow (S j) ltac:(lia)).
      by replace (S (reads c + j)) with (reads c + S j) by lia. }
    assert (Hk : answer c2 (calls c2 + k) = answer c (calls c + S k)).
    { cbn. f_equal. lia. }
    split.
    + intros Hfinal.
      rewrite (retry_started_final k fuel statement _ c2 _ Hl2 eq_refl);
        [|by rewrite Hk|done|lia].
      rewrite Hk, Hadv. cbn. by rewrite Nat.sub_0_r.
    + intros _ Hlast Hlate.
      rewrite (retry_started_gives_up k fuel statement _ c2);
        [| |done| |lia].
      * rewrite Hadv. cbn. by rewrite Nat.sub_0_r.
      * intros j Hj. destruct (decide (j = k)) as [->|]; [by rewrite Hk|].
        apply Hl2. lia.
      * cbn. by replace (S (reads c + k)) with (reads c + S k) by lia.
Qed.

(** [_enforce_transaction] for each statement of a list, in order. *)
Definition enforce_all (statements : list str) (c : Connection R)
    : Connection R :=
  foldl (λ c statement, snd (_enforce_transaction statement c)) c statements.

Lemma enforce_all_in_transaction (statements : list str) (c : Connection R) :
  Forall (λ statement, is_Some (_statement_re_match statement)) statements →
  _in_transaction c = true →
  raw_log (enforce_all statements c) = raw_log c ∧
  _in_transaction (enforce_all statements c) = true.
Proof.
  intros Hall. revert c.
  induction Hall as [|s l [g Hs] _ IH]; intros c Hc; [done|].
  unfold enforce_all in *. cbn. unfold _enforce_transaction at 2 4.
  rewrite Hs, Hc. cbn. by apply IH.
Qed.

(** [_enforce_transaction] begins a transaction at most once in a run of
    statements that match the pattern: the statement that makes
    PySQLite begin a transaction is sent when the connection is in no
    transaction and the first statement is a SELECT, before that
    statement, and no other statement is sent; after the run the
    connection is in a transaction.  A statement that does not match
    the pattern leaves the connection in no transaction and sends
    nothing. *)
Theorem _enforce_transaction_begins_once (statements : list str)
    (other : str) (c : Connection R) :
  Forall (λ statement, is_Some (_statement_re_match statement)) statements →
  _statement_re_match other = None →
  raw_log (enforce_all statements c)
  = raw_log c
    ++ (if negb (_in_transaction c)
           && bool_decide (_statement_re_match <$> head statements
                           = Some (Some false))
        then [begin_statement] else []) ∧
  (statements ≠ [] → _in_transaction (enforce_all statements c) = true) ∧
  _in_transaction (snd (_enforce_transaction other c)) = false ∧
  raw_log (snd (_enforce_transaction other c)) = raw_log c.
Proof.
  intros Hall Hother.
  assert (Hno : _in_transaction (snd (_enforce_transaction other c)) = false ∧
                raw_log (snd (_enforce_transaction other c)) = raw_log c).
  { unfold _enforce_transaction. by rewrite Hother. }
  destruct Hno as [Hno1 Hno2].
  destruct Hall as [|s l [g Hs] Hl].
  { cbn. rewrite andb_false_r. by rewrite app_nil_r. }
  assert (Hfirst :
    _in_transaction (snd (_enforce_transaction s c)) = true ∧
    raw_log (snd (_enforce_transaction s c))
    = raw_log c ++ (if negb (_in_transaction c) && negb g
                    then [begin_statement] else [])).
  { unfold _enforce_transaction. rewrite Hs.
    destruct (_in_transaction c) eqn:Hc; cbn; [by rewrite app_nil_r|].
    destruct g; cbn; [by rewrite app_nil_r|].
    by destruct (answer c (calls c)). }
  destruct Hfirst as [Hflag Hlog].
  destruct (enforce_all_in_transaction l _ Hl Hflag) as [Hlog' Hflag'].
  change (enforce_all (s :: l) c)
    with (enforce_all l (snd (_enforce_transaction s c))).
  rewrite Hlog', Hlog. cbn. rewrite Hs. split_and!; try done.
  by destruct g.
Qed.

End sqlite_properties.

(** A connection whose driver says "database is locked" twice and then
    returns 7; the clock advances by 10 with each reading, the timeout
    is 5000. *)
Definition locked_twice : sqlite.Connection nat :=
  sqlite.mkConnection false 5000
    (λ n, match n with
          | 0 | 1 => sqlite.OperationalError sqlite.locked
          | _ => sqlite.Returns 7
          end)
    (λ n, (10 * Z.of_nat n)%Z) 0 0 0 [].

Definition sqlite_statement (s : string) : sqlite.str :=
  String.list_ascii_of_string s.

(** An INSERT is tried three times, with one sleep, and returns 7. *)
Lemma _raw_execute_retries_while_locked_witness :
  sqlite._raw_execute 5 (sqlite_statement "INSERT INTO foo VALUES (1)")
                      locked_twice
  = Some (inl 7,
          sqlite.mkConnection true 5000 (sqlite.answer locked_twice)
            (sqlite.now locked_twice) 3 2 1
            (replicate 3 (sqlite_statement "INSERT INTO foo VALUES (1)"))).
Proof.
  destruct (_raw_execute_retries_while_locked
              (sqlite_statement "INSERT INTO foo VALUES (1)") locked_twice 2 5)
    as [Hfinal _].
  - reflexivity.
  - intros j Hj. destruct j as [|[|j]]; [reflexivity|reflexivity|lia].
  - intros j Hj. assert (j = 1) as -> by lia. vm_compute. reflexivity.
  - lia.
  - rewrite Hfinal; [reflexivity|]. vm_compute. discriminate.
Defined.

(** A SELECT, an INSERT and a SELECT: the transaction is begun once,
    before the first.  "select(1)" does not match the pattern. *)
Lemma _enforce_transaction_begins_once_witness :
  sqlite.raw_log
    (enforce_all [sqlite_statement "  SeLeCt 1";
                  sqlite_statement "INSERT INTO foo VALUES (1)";
                  sqlite_statement "select 2"] locked_twice)
  = [sqlite.begin_statement] ∧
  sqlite._in_transaction
    (snd (sqlite._enforce_transaction (sqlite_statement "select(1)")
                                      locked_twice)) = false.
Proof.
  destruct (_enforce_transaction_begins_once
              [sqlite_statement "  SeLeCt 1";
               sqlite_statement "INSERT INTO foo VALUES (1)";
               sqlite_statement "select 2"]
              (sqlite_statement "select(1)") locked_twice)
    as (Hlog & _ & Hother & _).
  - repeat constructor; eexists; vm_compute; reflexivity.
  - vm_compute. reflexivity.
  - split; [|exact Hother]. rewrite Hlog. vm_compute. reflexivity.
Defined.
